(** * zstdpool-syncpool: pooled zstd encoders and decoders

    A shallow embedding of [encoderpool.go] (package [syncpool]) and the
    properties of its release discipline.

    [encoderpool.go] holds four revisions of the package one after the other.
    The program verified here is made of the two latest ones: the encoder
    side of lines 1-76 and the decoder side of lines 223-358.  The earlier
    decoder revision (lines 125-222) is embedded under the names
    [Earlier_...], for comparison only.

    Two collaborators are outside the package: the codec engine
    ([github.com/klauspost/compress/zstd]) and Go's [sync.Pool].  The engine
    is a parameter ([Zstd]); [sync.Pool] is modelled as a bag of idle items
    with an optional [New] function, the item handed out by [Get] being
    chosen by the caller of the model. *)

From stdpp Require Import gmap list.

(** ** The codec engine *)

(** What a call into the engine does to the handle it is called on: it
    returns (the handle is left in state [s'] and the call yields [r]), or it
    raises a run-time panic inside the engine (for instance on a nil
    receiver). *)
Inductive call (S R : Type) : Type :=
  | Returns (s' : S) (r : R)
  | Faults.
Arguments Returns {S R} s' r.
Arguments Faults {S R}.

(** The part of [zstd] the package uses.  [Decoder] and [Encoder] are what a
    [*zstd.Decoder] and a [*zstd.Encoder] denote: the pointer together with
    the state of what it points to, the nil pointer included.  An [io.Reader]
    or [io.Writer] argument is an [option]: [None] is Go's [nil].
    [Decoder_closed], [Decoder_source] and [Encoder_target] are observers used
    in statements only; the package never calls them. *)
Record Zstd : Type := {
  Reader : Type;
  Writer : Type;
  DOption : Type;
  EOption : Type;
  Error : Type;
  Decoder : Type;
  Encoder : Type;
  NewReader : option Reader -> list DOption -> Decoder * option Error;
  NewWriter : option Writer -> list EOption -> Encoder * option Error;
  Decoder_Reset : Decoder -> option Reader -> call Decoder (option Error);
  Decoder_Close : Decoder -> call Decoder unit;
  Encoder_Reset : Encoder -> option Writer -> call Encoder unit;
  Encoder_Close : Encoder -> call Encoder (option Error);
  Decoder_closed : Decoder -> bool;
  Decoder_source : Decoder -> option Reader;
  Encoder_target : Encoder -> option Writer;
}.

(** ** Values stored in a [sync.Pool] *)

(** An [interface{}] value: nil, a [*EncoderWrapper], a [*DecoderWrapper]
    (both given by their address), or a value of any other dynamic type. *)
Inductive iface : Type :=
  | Nil
  | EncPtr (l : nat)
  | DecPtr (l : nat)
  | Other (tag : nat).

Global Instance iface_eq_dec : EqDecision iface.
Proof. solve_decision. Defined.

(** Number of times [x] occurs in a list of idle items. *)
Fixpoint occurrences (x : iface) (l : list iface) : nat :=
  match l with
  | [] => 0
  | y :: l' => (if decide (x = y) then 1 else 0) + occurrences x l'
  end.

Section Syncpool.

Context (Z : Zstd).

(** ** Data *)

(** [type EncoderWrapper struct { *zstd.Encoder }] (lines 27-29). *)
Record EncoderWrapper : Type := { ew_Encoder : Encoder Z }.

(** [type DecoderWrapper struct { *zstd.Decoder; pool *sync.Pool }]
    (lines 252-266); [dw_pool] is the address of the pool. *)
Record DecoderWrapper : Type := { dw_Decoder : Decoder Z; dw_pool : nat }.

(** [type EncoderPoolWrapper struct { pool *sync.Pool }] (lines 53-55). *)
Record EncoderPoolWrapper : Type := { epw_pool : nat }.

(** [type DecoderPoolWrapper struct { pool *sync.Pool }] (lines 324-326). *)
Record DecoderPoolWrapper : Type := { dpw_pool : nat }.

(** [type decoderReadCloser struct { dw *DecoderWrapper; io.Reader }]
    (lines 287-290).  The embedded reader is the read view of the decoder of
    the wrapper at address [drc_Reader]. *)
Record decoderReadCloser : Type := { drc_dw : nat; drc_Reader : nat }.

(** The closures assigned to [p.New]: lines 37-46 (capturing [options]) and
    lines 305-317 (capturing [options] and [p]). *)
Inductive factory : Type :=
  | NewEncoderFn (options : list (EOption Z))
  | NewDecoderFn (options : list (DOption Z)) (p : nat).

(** [sync.Pool]: the [New] field and the idle items. *)
Record SyncPool : Type := { New : option factory; idle : list iface }.

(** The functions given to [runtime.SetFinalizer]: the one of lines 41-43
    and the one of lines 312-314. *)
Inductive enc_finalizer : Type := Fin_Encoder_Close.
Inductive dec_finalizer : Type := Fin_Decoder_Close.

(** Calls that leave the package, in the order they are made. *)
Inductive event : Type :=
  | E_NewReader (options : list (DOption Z))
  | E_NewWriter (options : list (EOption Z))
  | E_DecoderReset (w : nat) (r : option (Reader Z))
  | E_DecoderClose (w : nat)
  | E_EncoderReset (w : nat) (t : option (Writer Z))
  | E_EncoderClose (w : nat)
  | E_PoolPut (p : nat) (x : iface)
  | E_PoolGet (p : nat)
  | E_SetFinalizer (x : iface).

(** The heap: pools, wrappers (each with the state of the handle it
    embeds), the finalizer table of the runtime, and the calls made so far. *)
Record World : Type := mkWorld {
  pools : gmap nat SyncPool;
  decs : gmap nat DecoderWrapper;
  encs : gmap nat EncoderWrapper;
  dec_fins : gmap nat dec_finalizer;
  enc_fins : gmap nat enc_finalizer;
  trace : list event;
}.

Definition empty_world : World :=
  mkWorld ∅ ∅ ∅ ∅ ∅ [].

Definition set_pools (f : gmap nat SyncPool -> gmap nat SyncPool) (s : World) : World :=
  mkWorld (f (pools s)) (decs s) (encs s) (dec_fins s) (enc_fins s) (trace s).
Definition set_decs (f : gmap nat DecoderWrapper -> gmap nat DecoderWrapper) (s : World) : World :=
  mkWorld (pools s) (f (decs s)) (encs s) (dec_fins s) (enc_fins s) (trace s).
Definition set_encs (f : gmap nat EncoderWrapper -> gmap nat EncoderWrapper) (s : World) : World :=
  mkWorld (pools s) (decs s) (f (encs s)) (dec_fins s) (enc_fins s) (trace s).
Definition set_dec_fins (f : gmap nat dec_finalizer -> gmap nat dec_finalizer) (s : World) : World :=
  mkWorld (pools s) (decs s) (encs s) (f (dec_fins s)) (enc_fins s) (trace s).
Definition set_enc_fins (f : gmap nat enc_finalizer -> gmap nat enc_finalizer) (s : World) : World :=
  mkWorld (pools s) (decs s) (encs s) (dec_fins s) (f (enc_fins s)) (trace s).
Definition emit (e : event) (s : World) : World :=
  mkWorld (pools s) (decs s) (encs s) (dec_fins s) (enc_fins s) (trace s ++ [e]).

(** ** Computations: state and panics *)

Inductive panic : Type :=
  | NilDeref
  | AssertFailed (x : iface)
  | PanicErr (e : Error Z)
  | EngineFault.

Inductive result (A : Type) : Type :=
  | Ok (a : A) (s : World)
  | Panic (v : panic) (s : World).
Arguments Ok {A} a s.
Arguments Panic {A} v s.

Definition M (A : Type) : Type := World -> result A.

Global Instance M_ret : MRet M := fun A (a : A) s => Ok a s.
Global Instance M_bind : MBind M := fun A B (k : A -> M B) (m : M A) s =>
  match m s with
  | Ok a s' => k a s'
  | Panic v s' => Panic v s'
  end.
Definition raise {A} (v : panic) : M A := fun s => Panic v s.
Definition modify (f : World -> World) : M unit := fun s => Ok tt (f s).

(** The world a computation stops in, whether it returns or panics. *)
Definition world_of {A} (r : result A) : World :=
  match r with Ok _ s => s | Panic _ s => s end.

(** ** Pointers *)

(** Reading through a wrapper or pool pointer; an address that holds nothing
    is the nil pointer. *)
Definition deref_dec (w : nat) : M DecoderWrapper :=
  fun s => match decs s !! w with
           | Some dw => Ok dw s
           | None => Panic NilDeref s
           end.

Definition deref_enc (w : nat) : M EncoderWrapper :=
  fun s => match encs s !! w with
           | Some ew => Ok ew s
           | None => Panic NilDeref s
           end.

Definition deref_pool (p : nat) : M SyncPool :=
  fun s => match pools s !! p with
           | Some sp => Ok sp s
           | None => Panic NilDeref s
           end.

(** ** Calls into the engine, on the handle embedded in a wrapper *)

(** [w.Decoder.Reset(r)], also written [w.Reset(r)]. *)
Definition decoder_Reset (w : nat) (r : option (Reader Z)) : M (option (Error Z)) :=
  dw ← deref_dec w;
  modify (emit (E_DecoderReset w r));;
  match Decoder_Reset Z (dw_Decoder dw) r with
  | Returns d' err =>
      modify (set_decs <[w := {| dw_Decoder := d'; dw_pool := dw_pool dw |}]>);;
      mret err
  | Faults => raise EngineFault
  end.

(** [w.Decoder.Close()]: the terminal close of the handle. *)
Definition decoder_Close (w : nat) : M unit :=
  dw ← deref_dec w;
  modify (emit (E_DecoderClose w));;
  match Decoder_Close Z (dw_Decoder dw) with
  | Returns d' _ =>
      modify (set_decs <[w := {| dw_Decoder := d'; dw_pool := dw_pool dw |}]>)
  | Faults => raise EngineFault
  end.

(** [w.Encoder.Reset(t)], also written [w.Reset(t)]; it has no result. *)
Definition encoder_Reset (w : nat) (t : option (Writer Z)) : M unit :=
  ew ← deref_enc w;
  modify (emit (E_EncoderReset w t));;
  match Encoder_Reset Z (ew_Encoder ew) t with
  | Returns e' _ => modify (set_encs <[w := {| ew_Encoder := e' |}]>)
  | Faults => raise EngineFault
  end.

(** [w.Encoder.Close()]; the callers in this package drop its error. *)
Definition encoder_Close (w : nat) : M (option (Error Z)) :=
  ew ← deref_enc w;
  modify (emit (E_EncoderClose w));;
  match Encoder_Close Z (ew_Encoder ew) with
  | Returns e' err => modify (set_encs <[w := {| ew_Encoder := e' |}]>);; mret err
  | Faults => raise EngineFault
  end.

(** ** Allocation and the runtime *)

(** [&EncoderWrapper{...}], [&DecoderWrapper{...}], [&sync.Pool{}]: a fresh
    address. *)
Definition alloc_enc (ew : EncoderWrapper) : M nat :=
  fun s => let l := fresh (dom (encs s)) in Ok l (set_encs <[l := ew]> s).

Definition alloc_dec (dw : DecoderWrapper) : M nat :=
  fun s => let l := fresh (dom (decs s)) in Ok l (set_decs <[l := dw]> s).

Definition alloc_pool (sp : SyncPool) : M nat :=
  fun s => let l := fresh (dom (pools s)) in Ok l (set_pools <[l := sp]> s).

(** [p.New = f]. *)
Definition set_New (p : nat) (f : factory) : M unit :=
  sp ← deref_pool p;
  modify (set_pools <[p := {| New := Some f; idle := idle sp |}]>).

(** [runtime.SetFinalizer(w, f)]. *)
Definition SetFinalizer_enc (w : nat) (f : enc_finalizer) : M unit :=
  modify (emit (E_SetFinalizer (EncPtr w)));;
  modify (set_enc_fins <[w := f]>).

Definition SetFinalizer_dec (w : nat) (f : dec_finalizer) : M unit :=
  modify (emit (E_SetFinalizer (DecPtr w)));;
  modify (set_dec_fins <[w := f]>).

(** ** The construction functions of the pools *)

(** The closure of lines 37-46: [e, _ := zstd.NewWriter(nil, options...)]. *)
Definition NewEncoderPool_New (options : list (EOption Z)) : M iface :=
  modify (emit (E_NewWriter options));;
  ew ← alloc_enc {| ew_Encoder := fst (NewWriter Z None options) |};
  SetFinalizer_enc ew Fin_Encoder_Close;;
  mret (EncPtr ew).

(** The closure of lines 305-317: [d, _ := zstd.NewReader(nil, options...)]. *)
Definition NewDecoderPool_New (options : list (DOption Z)) (p : nat) : M iface :=
  modify (emit (E_NewReader options));;
  dw ← alloc_dec {| dw_Decoder := fst (NewReader Z None options); dw_pool := p |};
  SetFinalizer_dec dw Fin_Decoder_Close;;
  mret (DecPtr dw).

Definition call_factory (f : factory) : M iface :=
  match f with
  | NewEncoderFn options => NewEncoderPool_New options
  | NewDecoderFn options p => NewDecoderPool_New options p
  end.

(** ** [sync.Pool] *)

(** [p.Put(x)]: a nil [x] is ignored, anything else becomes idle. *)
Definition Pool_Put (p : nat) (x : iface) : M unit :=
  modify (emit (E_PoolPut p x));;
  match x with
  | Nil => mret tt
  | _ =>
      sp ← deref_pool p;
      modify (set_pools <[p := {| New := New sp; idle := x :: idle sp |}]>)
  end.

(** [p.Get()]: hands out the idle item at position [i] when [pick] is
    [Some i] and there is one, and otherwise calls [New] (or yields nil when
    [New] is not set).  Which idle item is handed out, and whether one is, is
    up to [sync.Pool]: [pick] ranges over all its choices. *)
Definition Pool_Get (p : nat) (pick : option nat) : M iface :=
  sp ← deref_pool p;
  modify (emit (E_PoolGet p));;
  match pick ≫= (fun i => (fun x => (i, x)) <$> idle sp !! i) with
  | Some (i, x) =>
      modify (set_pools <[p := {| New := New sp; idle := delete i (idle sp) |}]>);;
      mret x
  | None =>
      match New sp with
      | Some f => call_factory f
      | None => mret Nil
      end
  end.

(** [sync.Pool] may drop an idle item at any time. *)
Definition Pool_drop (p : nat) (i : nat) : M unit :=
  sp ← deref_pool p;
  modify (set_pools <[p := {| New := New sp; idle := delete i (idle sp) |}]>).

(** ** The encoder side (lines 31-76) *)

(** [NewEncoderPool] (lines 34-49). *)
Definition NewEncoderPool (options : list (EOption Z)) : M nat :=
  p ← alloc_pool {| New := None; idle := [] |};
  set_New p (NewEncoderFn options);;
  mret p.

(** The type assertion of [x] to [*EncoderWrapper] (line 59). *)
Definition assert_EncoderWrapper (x : iface) : M nat :=
  match x with
  | EncPtr l => mret l
  | _ => raise (AssertFailed x)
  end.

(** [EncoderPoolWrapper.Get] (lines 58-62). *)
Definition EncoderPoolWrapper_Get (e : EncoderPoolWrapper) (pick : option nat)
    (w : option (Writer Z)) : M nat :=
  x ← Pool_Get (epw_pool e) pick;
  ew ← assert_EncoderWrapper x;
  encoder_Reset ew w;;
  mret ew.

(** [EncoderPoolWrapper.Put] (lines 65-68). *)
Definition EncoderPoolWrapper_Put (e : EncoderPoolWrapper) (w : nat) : M unit :=
  encoder_Reset w None;;
  Pool_Put (epw_pool e) (EncPtr w).

(** [NewEncoderPoolWrapper] (lines 74-76). *)
Definition NewEncoderPoolWrapper (options : list (EOption Z)) : M EncoderPoolWrapper :=
  p ← NewEncoderPool options;
  mret {| epw_pool := p |}.

(** ** The decoder side (lines 250-358) *)

(** [DecoderWrapper.Close] (lines 271-276). *)
Definition DecoderWrapper_Close (w : nat) : M unit :=
  err ← decoder_Reset w None;
  match err with
  | None => dw ← deref_dec w; Pool_Put (dw_pool dw) (DecPtr w)
  | Some _ => mret tt
  end.

(** [DecoderWrapper.IOReadCloser] (lines 280-285).  The engine's
    [IOReadCloser] wraps the decoder in a read view and changes nothing; the
    view is given by the address of the wrapper whose decoder it reads. *)
Definition DecoderWrapper_IOReadCloser (w : nat) : M decoderReadCloser :=
  _ ← deref_dec w;
  mret {| drc_dw := w; drc_Reader := w |}.

(** [decoderReadCloser.Close] (lines 294-297); the result is the [error]. *)
Definition decoderReadCloser_Close (a : decoderReadCloser) : M (option (Error Z)) :=
  DecoderWrapper_Close (drc_dw a);;
  mret None.

(** [NewDecoderPool] (lines 302-320). *)
Definition NewDecoderPool (options : list (DOption Z)) : M nat :=
  p ← alloc_pool {| New := None; idle := [] |};
  set_New p (NewDecoderFn options p);;
  mret p.

(** The type assertion of [x] to [*DecoderWrapper] (line 330). *)
Definition assert_DecoderWrapper (x : iface) : M nat :=
  match x with
  | DecPtr l => mret l
  | _ => raise (AssertFailed x)
  end.

(** [DecoderPoolWrapper.Get] (lines 329-342). *)
Definition DecoderPoolWrapper_Get (d : DecoderPoolWrapper) (pick : option nat)
    (r : option (Reader Z)) : M nat :=
  x ← Pool_Get (dpw_pool d) pick;
  dw ← assert_DecoderWrapper x;
  err ← decoder_Reset dw r;
  match err with
  | Some e => raise (PanicErr e)
  | None => mret dw
  end.

(** [DecoderPoolWrapper.Put] (lines 345-350). *)
Definition DecoderPoolWrapper_Put (d : DecoderPoolWrapper) (w : nat) : M unit :=
  err ← decoder_Reset w None;
  match err with
  | None => Pool_Put (dpw_pool d) (DecPtr w)
  | Some _ => mret tt
  end.

(** [NewDecoderPoolWrapper] (lines 356-358). *)
Definition NewDecoderPoolWrapper (options : list (DOption Z)) : M DecoderPoolWrapper :=
  p ← NewDecoderPool options;
  mret {| dpw_pool := p |}.

(** ** The earlier decoder revision (lines 139-222)

    Only the release path and the body of its finalizer are embedded; no
    pool of the program registers them. *)

(** [DecoderWrapper.Close] as of lines 172-177: the result of [Reset] is
    dropped and the wrapper is pooled in any case. *)
Definition Earlier_DecoderWrapper_Close (w : nat) : M unit :=
  decoder_Reset w None;;
  dw ← deref_dec w;
  Pool_Put (dw_pool dw) (DecPtr w).

(** ** Finalizers *)

(** The body of the function registered at line 41: [ew.Encoder.Close()]. *)
Definition NewEncoderPool_finalizer (ew : nat) : M unit :=
  encoder_Close ew;;
  mret tt.

(** The body of the function registered at line 312: [dw.Decoder.Close()]. *)
Definition NewDecoderPool_finalizer (dw : nat) : M unit :=
  decoder_Close dw.

(** The body of the function registered at line 213 of the earlier revision:
    [dw.Close()], which is [DecoderWrapper.Close] of that revision. *)
Definition Earlier_NewDecoderPool_finalizer (dw : nat) : M unit :=
  Earlier_DecoderWrapper_Close dw.

Definition enc_finalizer_body (f : enc_finalizer) : nat -> M unit :=
  match f with
  | Fin_Encoder_Close => NewEncoderPool_finalizer
  end.

Definition dec_finalizer_body (f : dec_finalizer) : nat -> M unit :=
  match f with
  | Fin_Decoder_Close => NewDecoderPool_finalizer
  end.

(** The runtime finds the object unreachable: its finalizer, when it has
    one, is cleared and run once. *)
Definition run_finalizer (x : iface) : M unit :=
  fun s =>
    match x with
    | EncPtr w =>
        match enc_fins s !! w with
        | Some f => enc_finalizer_body f w (set_enc_fins (delete w) s)
        | None => Ok tt s
        end
    | DecPtr w =>
        match dec_fins s !! w with
        | Some f => dec_finalizer_body f w (set_dec_fins (delete w) s)
        | None => Ok tt s
        end
    | _ => Ok tt s
    end.

(** ** Clients

    One step of a client of the package, of [sync.Pool] or of the runtime. *)
Inductive op : Type :=
  | Op_NewDecoderPool (options : list (DOption Z))
  | Op_NewEncoderPool (options : list (EOption Z))
  | Op_New (p : nat)
  | Op_DecGet (d : DecoderPoolWrapper) (pick : option nat) (r : option (Reader Z))
  | Op_DecPut (d : DecoderPoolWrapper) (w : nat)
  | Op_DecClose (w : nat)
  | Op_ReadCloserClose (a : decoderReadCloser)
  | Op_EncGet (e : EncoderPoolWrapper) (pick : option nat) (t : option (Writer Z))
  | Op_EncPut (e : EncoderPoolWrapper) (w : nat)
  | Op_DecReset (w : nat) (r : option (Reader Z))
  | Op_EncReset (w : nat) (t : option (Writer Z))
  | Op_DecoderClose (w : nat)
  | Op_EncoderClose (w : nat)
  | Op_Finalize (x : iface)
  | Op_Drop (p i : nat)
  | Op_RawGet (p : nat) (pick : option nat)
  | Op_RawPut (p : nat) (x : iface).

(** [p.New()], as [sync.Pool] calls it. *)
Definition Pool_New (p : nat) : M iface :=
  sp ← deref_pool p;
  match New sp with
  | Some f => call_factory f
  | None => mret Nil
  end.

(** [Op_DecReset], [Op_EncReset]: the holder of a wrapper uses it.
    [Op_DecoderClose]: [w.Decoder.Close()], the terminal close that goes
    around [DecoderWrapper.Close].  [Op_EncoderClose]: [w.Close()] on an
    encoder wrapper.  [Op_RawGet], [Op_RawPut]: the [*sync.Pool] used
    directly. *)
Definition run_op (o : op) : M unit :=
  match o with
  | Op_NewDecoderPool options => NewDecoderPoolWrapper options;; mret tt
  | Op_NewEncoderPool options => NewEncoderPoolWrapper options;; mret tt
  | Op_New p => Pool_New p;; mret tt
  | Op_DecGet d pick r => DecoderPoolWrapper_Get d pick r;; mret tt
  | Op_DecPut d w => DecoderPoolWrapper_Put d w
  | Op_DecClose w => DecoderWrapper_Close w
  | Op_ReadCloserClose a => decoderReadCloser_Close a;; mret tt
  | Op_EncGet e pick t => EncoderPoolWrapper_Get e pick t;; mret tt
  | Op_EncPut e w => EncoderPoolWrapper_Put e w
  | Op_DecReset w r => decoder_Reset w r;; mret tt
  | Op_EncReset w t => encoder_Reset w t
  | Op_DecoderClose w => decoder_Close w
  | Op_EncoderClose w => encoder_Close w;; mret tt
  | Op_Finalize x => run_finalizer x
  | Op_Drop p i => Pool_drop p i
  | Op_RawGet p pick => Pool_Get p pick;; mret tt
  | Op_RawPut p x => Pool_Put p x
  end.

(** The world after one step, and after a sequence of steps.  A step that
    panics leaves the world as it was when the panic was raised. *)
Definition exec (o : op) (s : World) : World := world_of (run_op o s).

Definition exec_all (tr : list op) (s : World) : World :=
  foldl (fun s o => exec o s) s tr.

(** The steps that go through the construction function of a decoder pool,
    [DecoderWrapper.Close] and [DecoderPoolWrapper.Put]. *)
Inductive release_op : Type :=
  | R_NewDecoderPool (options : list (DOption Z))
  | R_New (p : nat)
  | R_Close (w : nat)
  | R_Put (d : DecoderPoolWrapper) (w : nat).

Definition op_of_release (o : release_op) : op :=
  match o with
  | R_NewDecoderPool options => Op_NewDecoderPool options
  | R_New p => Op_New p
  | R_Close w => Op_DecClose w
  | R_Put d w => Op_DecPut d w
  end.

(** ** Properties of worlds *)

(** A handle fit for reuse: not closed, bound to nothing, and [Reset]
    succeeds on it. *)
Definition healthy (d : Decoder Z) : Prop :=
  Decoder_closed Z d = false /\ Decoder_source Z d = None /\
  forall r, exists d', Decoder_Reset Z d r = Returns d' None.

(** Every decoder wrapper idle in a pool embeds a healthy handle. *)
Definition pool_inv (s : World) : Prop :=
  forall p sp w, pools s !! p = Some sp -> DecPtr w ∈ idle sp ->
    exists dw, decs s !! w = Some dw /\ healthy (dw_Decoder dw).

Definition is_enc_item (x : iface) : bool :=
  match x with EncPtr _ => true | _ => false end.

Definition is_dec_item (x : iface) : bool :=
  match x with DecPtr _ => true | _ => false end.

(** Pools made by [NewEncoderPool], resp. [NewDecoderPool]. *)
Definition is_encoder_pool (s : World) (p : nat) : bool :=
  match pools s !! p with
  | Some {| New := Some (NewEncoderFn _) |} => true
  | _ => false
  end.

Definition is_decoder_pool (s : World) (p : nat) : bool :=
  match pools s !! p with
  | Some {| New := Some (NewDecoderFn _ _) |} => true
  | _ => false
  end.

(** The idle items of a pool have the type its construction function makes. *)
Definition pool_typed (sp : SyncPool) : bool :=
  match New sp with
  | Some (NewEncoderFn _) => forallb is_enc_item (idle sp)
  | Some (NewDecoderFn _ _) => forallb is_dec_item (idle sp)
  | None => true
  end.

Definition pools_typed (s : World) : Prop :=
  forall p sp, pools s !! p = Some sp -> pool_typed sp = true.

(** The pool a decoder wrapper refers to, and the pool captured by the
    construction function of a decoder pool, are decoder pools. *)
Definition wrappers_know_decoder_pools (s : World) : Prop :=
  forall w dw, decs s !! w = Some dw -> is_decoder_pool s (dw_pool dw) = true.

Definition factories_know_decoder_pools (s : World) : Prop :=
  forall p sp options q, pools s !! p = Some sp ->
    New sp = Some (NewDecoderFn options q) -> is_decoder_pool s q = true.

Definition typed_inv (s : World) : Prop :=
  pools_typed s /\ wrappers_know_decoder_pools s /\ factories_know_decoder_pools s.

(** The usage discipline under which items enter a pool only through its
    construction function and the package: the pool is never written to
    directly, and a facade is one that its constructor returned (its pool is
    of its own kind). *)
Definition usage_ok (o : op) (s : World) : bool :=
  match o with
  | Op_RawPut _ _ => false
  | Op_DecGet d _ _ | Op_DecPut d _ => is_decoder_pool s (dpw_pool d)
  | Op_EncGet e _ _ | Op_EncPut e _ => is_encoder_pool s (epw_pool e)
  | _ => true
  end.

(** Exclusive ownership.  A decoder wrapper that is idle in a pool has no
    holder: nobody resets, closes, releases or finalizes it, and nobody puts
    a decoder wrapper in a pool directly.  [not_idle s w]: [w] is idle in no
    pool. *)
Definition idle_nowhere (s : World) (w : nat) : Prop :=
  forall p sp, pools s !! p = Some sp -> DecPtr w ∉ idle sp.

Definition not_idle (s : World) (w : nat) : bool :=
  bool_decide (map_Forall (fun _ sp => DecPtr w ∉ idle sp) (pools s)).

Definition owner_ok (o : op) (s : World) : bool :=
  match o with
  | Op_DecPut _ w | Op_DecClose w | Op_DecReset w _ | Op_DecoderClose w
  | Op_Finalize (DecPtr w) => not_idle s w
  | Op_ReadCloserClose a => not_idle s (drc_dw a)
  | Op_RawPut _ (DecPtr _) => false
  | _ => true
  end.

(** No decoder wrapper is idle twice: not twice in one pool, not in two
    pools. *)
Definition idle_once (s : World) : Prop :=
  (forall p sp w, pools s !! p = Some sp -> occurrences (DecPtr w) (idle sp) <= 1) /\
  (forall p1 p2 sp1 sp2 w, p1 <> p2 ->
     pools s !! p1 = Some sp1 -> pools s !! p2 = Some sp2 ->
     DecPtr w ∈ idle sp1 -> DecPtr w ∉ idle sp2).

(** The invariant of exclusive ownership. *)
Definition own_inv (s : World) : Prop := pool_inv s /\ idle_once s.

Fixpoint admissible (ok : op -> World -> bool) (tr : list op) (s : World) : bool :=
  match tr with
  | [] => true
  | o :: tr' => ok o s && admissible ok tr' (exec o s)
  end.

End Syncpool.

Arguments Ok {Z A} a s.
Arguments Panic {Z A} v s.
Arguments NilDeref {Z}.
Arguments AssertFailed {Z} x.
Arguments PanicErr {Z} e.
Arguments EngineFault {Z}.
Arguments world_of {Z A} r.
Arguments ew_Encoder {Z} e.
Arguments dw_Decoder {Z} d.
Arguments dw_pool {Z} d.
Arguments New {Z} s.
Arguments idle {Z} s.
Arguments pools {Z} w.
Arguments decs {Z} w.
Arguments encs {Z} w.
Arguments dec_fins {Z} w.
Arguments enc_fins {Z} w.
Arguments trace {Z} w.
Arguments set_pools {Z} f s.
Arguments set_decs {Z} f s.
Arguments set_encs {Z} f s.
Arguments set_dec_fins {Z} f s.
Arguments set_enc_fins {Z} f s.
Arguments emit {Z} e s.
Arguments E_NewReader {Z} options.
Arguments E_NewWriter {Z} options.
Arguments E_DecoderReset {Z} w r.
Arguments E_DecoderClose {Z} w.
Arguments E_EncoderReset {Z} w t.
Arguments E_EncoderClose {Z} w.
Arguments E_PoolPut {Z} p x.
Arguments E_PoolGet {Z} p.
Arguments E_SetFinalizer {Z} x.
Arguments NewEncoderFn {Z} options.
Arguments NewDecoderFn {Z} options p.
Arguments decoder_Reset {Z} w r.
Arguments decoder_Close {Z} w.
Arguments encoder_Reset {Z} w t.
Arguments encoder_Close {Z} w.
Arguments Pool_Put {Z} p x.
Arguments Pool_Get {Z} p pick.
Arguments Pool_New {Z} p.
Arguments Pool_drop {Z} p i.
Arguments call_factory {Z} f.
Arguments NewEncoderPool_New {Z} options.
Arguments NewDecoderPool_New {Z} options p.
Arguments NewEncoderPool {Z} options.
Arguments NewDecoderPool {Z} options.
Arguments NewEncoderPoolWrapper {Z} options.
Arguments NewDecoderPoolWrapper {Z} options.
Arguments EncoderPoolWrapper_Get {Z} e pick w.
Arguments EncoderPoolWrapper_Put {Z} e w.
Arguments DecoderPoolWrapper_Get {Z} d pick r.
Arguments DecoderPoolWrapper_Put {Z} d w.
Arguments DecoderWrapper_Close {Z} w.
Arguments DecoderWrapper_IOReadCloser {Z} w.
Arguments decoderReadCloser_Close {Z} a.
Arguments Earlier_DecoderWrapper_Close {Z} w.
Arguments Earlier_NewDecoderPool_finalizer {Z} dw.
Arguments NewEncoderPool_finalizer {Z} ew.
Arguments NewDecoderPool_finalizer {Z} dw.
Arguments run_finalizer {Z} x.
Arguments Op_NewDecoderPool {Z} options.
Arguments Op_NewEncoderPool {Z} options.
Arguments Op_New {Z} p.
Arguments Op_DecGet {Z} d pick r.
Arguments Op_DecPut {Z} d w.
Arguments Op_DecClose {Z} w.
Arguments Op_ReadCloserClose {Z} a.
Arguments Op_EncGet {Z} e pick t.
Arguments Op_EncPut {Z} e w.
Arguments Op_DecReset {Z} w r.
Arguments Op_EncReset {Z} w t.
Arguments Op_DecoderClose {Z} w.
Arguments Op_EncoderClose {Z} w.
Arguments Op_Finalize {Z} x.
Arguments Op_Drop {Z} p i.
Arguments Op_RawGet {Z} p pick.
Arguments Op_RawPut {Z} p x.
Arguments R_NewDecoderPool {Z} options.
Arguments R_New {Z} p.
Arguments R_Close {Z} w.
Arguments R_Put {Z} d w.
Arguments run_op {Z} o.
Arguments exec {Z} o s.
Arguments exec_all {Z} tr s.
Arguments op_of_release {Z} o.
Arguments healthy {Z} d.
Arguments pool_inv {Z} s.
Arguments is_encoder_pool {Z} s p.
Arguments is_decoder_pool {Z} s p.
Arguments pool_typed {Z} sp.
Arguments pools_typed {Z} s.
Arguments wrappers_know_decoder_pools {Z} s.
Arguments factories_know_decoder_pools {Z} s.
Arguments typed_inv {Z} s.
Arguments usage_ok {Z} o s.
Arguments idle_nowhere {Z} s w.
Arguments not_idle {Z} s w.
Arguments own_inv {Z} s.
Arguments owner_ok {Z} o s.
Arguments idle_once {Z} s.
Arguments admissible {Z} ok tr s.

(** ** What the package relies on from the engine *)

(** A [Reset] that returns no error leaves an open handle bound to the
    source it was given, and that handle can be reset again. *)
Definition reset_rebinds (Z : Zstd) : Prop :=
  forall d r d', Decoder_Reset Z d r = Returns d' None ->
    Decoder_closed Z d' = false /\ Decoder_source Z d' = r /\
    forall r', exists d'', Decoder_Reset Z d' r' = Returns d'' None.

(** Lines 334-335: "Decoder.Reset only returns a non-nil error if Close has
    been called". *)
Definition reset_fails_only_closed (Z : Zstd) : Prop :=
  forall d r d' e, Decoder_Reset Z d r = Returns d' (Some e) ->
    Decoder_closed Z d = true.

(** A handle that comes out of the constructor has not been closed. *)
Definition new_not_closed (Z : Zstd) : Prop :=
  forall r options, Decoder_closed Z (fst (NewReader Z r options)) = false.

(** [Encoder.Reset] binds the encoder to the target it was given. *)
Definition encoder_reset_rebinds (Z : Zstd) : Prop :=
  forall e t e', Encoder_Reset Z e t = Returns e' tt -> Encoder_target Z e' = t.

(** Lines 268-270: "once closed, they cannot be reused".  A [Reset] on a
    closed handle returns an error and leaves the handle as it was. *)
Definition closed_reset_fails (Z : Zstd) : Prop :=
  forall d r, Decoder_closed Z d = true ->
    exists e, Decoder_Reset Z d r = Returns d (Some e).

(** ** Steps and worlds, by what they may do *)

(** The calls that are not a terminal close. *)
Definition quiet {Z} (e : event Z) : bool :=
  match e with
  | E_DecoderClose _ | E_EncoderClose _ => false
  | _ => true
  end.

(** The steps that are neither a finalizer nor a direct call of the engine's
    [Close] by a holder. *)
Definition gentle {Z} (o : op Z) : bool :=
  match o with
  | Op_DecoderClose _ | Op_EncoderClose _ | Op_Finalize _ => false
  | _ => true
  end.

Definition no_raw_put {Z} (o : op Z) : bool :=
  match o with
  | Op_RawPut _ _ => false
  | _ => true
  end.

(** The steps considered: all of them, or only the gentle ones
    ([closes = false]), or only those that do not write to a pool directly
    ([raw = false]). *)
Definition covered {Z} (closes raw : bool) (o : op Z) (s : World Z) : bool :=
  (closes || gentle o) && (raw || no_raw_put o).

(** A property of worlds kept by each elementary change that the package,
    the pool and the runtime make to a world. *)
Record stable {Z} (closes raw : bool) (I : World Z -> Prop) : Prop := {
  st_emit : forall e s, quiet e = true -> I s -> I (emit e s);
  st_dec : forall s w dw d', decs s !! w = Some dw -> I s ->
    I (set_decs <[w := {| dw_Decoder := d'; dw_pool := dw_pool dw |}]> s);
  st_enc : forall s w (ew : EncoderWrapper Z) e', encs s !! w = Some ew -> I s ->
    I (set_encs <[w := {| ew_Encoder := e' |}]> s);
  st_delete : forall s p sp i, pools s !! p = Some sp -> I s ->
    I (set_pools <[p := {| New := New sp; idle := delete i (idle sp) |}]> s);
  st_put_dec : forall s p sp w, pools s !! p = Some sp -> is_Some (decs s !! w) ->
    I s -> I (set_pools <[p := {| New := New sp; idle := DecPtr w :: idle sp |}]> s);
  st_put_enc : forall s p sp w, pools s !! p = Some sp -> is_Some (encs s !! w) ->
    I s -> I (set_pools <[p := {| New := New sp; idle := EncPtr w :: idle sp |}]> s);
  st_put_raw : raw = true -> forall s p sp x, pools s !! p = Some sp ->
    I s -> I (set_pools <[p := {| New := New sp; idle := x :: idle sp |}]> s);
  st_new_dec_pool : forall s p o, pools s !! p = None -> I s ->
    I (set_pools <[p := {| New := Some (NewDecoderFn o p); idle := [] |}]> s);
  st_new_enc_pool : forall s p o, pools s !! p = None -> I s ->
    I (set_pools <[p := {| New := Some (NewEncoderFn o); idle := [] |}]> s);
  st_build_dec : forall s p sp o q, pools s !! p = Some sp ->
    New sp = Some (NewDecoderFn o q) -> I s ->
    I (world_of (NewDecoderPool_New o q s));
  st_build_enc : forall s o, I s -> I (world_of (NewEncoderPool_New o s));
  st_close_dec : closes = true -> forall s w, I s -> I (world_of (decoder_Close w s));
  st_close_enc : closes = true -> forall s w, I s -> I (world_of (encoder_Close w s));
  st_fin_dec : closes = true -> forall s w, is_Some (dec_fins s !! w) -> I s ->
    I (world_of (decoder_Close w (set_dec_fins (delete w) s)));
  st_fin_enc : closes = true -> forall s w, is_Some (enc_fins s !! w) -> I s ->
    I (world_of (encoder_Close w (set_enc_fins (delete w) s)));
}.

(** Every wrapper still has the finalizer that its construction function
    registered, or the engine's [Close] has been called on its handle. *)
Definition armed {Z} (s : World Z) : Prop :=
  (forall w, is_Some (decs s !! w) ->
     dec_fins s !! w = Some Fin_Decoder_Close \/ E_DecoderClose w ∈ trace s) /\
  (forall w, is_Some (encs s !! w) ->
     enc_fins s !! w = Some Fin_Encoder_Close \/ E_EncoderClose w ∈ trace s).

(** The construction function of a decoder pool makes wrappers that refer to
    that very pool. *)
Definition self_ref {Z} (s : World Z) : Prop :=
  forall p sp o q, pools s !! p = Some sp -> New sp = Some (NewDecoderFn o q) -> q = p.


(** From [s] to [s']: wrappers and pools stay, a decoder wrapper keeps the
    pool it refers to, a pool keeps its construction function. *)
Definition grows_from {Z} (s s' : World Z) : Prop :=
  (forall w dw, decs s !! w = Some dw ->
     exists dw', decs s' !! w = Some dw' /\ dw_pool dw' = dw_pool dw) /\
  (forall w, is_Some (encs s !! w) -> is_Some (encs s' !! w)) /\
  (forall p sp, pools s !! p = Some sp ->
     exists sp', pools s' !! p = Some sp' /\ New sp' = New sp).

(** ** A reference engine

    The smallest engine with the behaviour the package's comments describe:
    a handle is nil or carries a closed flag and what it is bound to; a
    closed decoder refuses [Reset]; a call on a nil handle panics; the
    constructors fail on an invalid option.  Readers and writers are
    numbered, an option is valid when it is [true]. *)
Module RefZstd.

Inductive error : Type := ErrDecoderClosed | ErrBadOption.

Inductive decoder : Type :=
  | DNil
  | DHandle (closed : bool) (source : option nat).

Inductive encoder : Type :=
  | ENil
  | EHandle (closed : bool) (target : option nat).

Definition valid (options : list bool) : bool := forallb id options.

Definition new_reader (r : option nat) (options : list bool) : decoder * option error :=
  if valid options then (DHandle false r, None) else (DNil, Some ErrBadOption).

Definition new_writer (w : option nat) (options : list bool) : encoder * option error :=
  if valid options then (EHandle false w, None) else (ENil, Some ErrBadOption).

Definition decoder_reset (d : decoder) (r : option nat) : call decoder (option error) :=
  match d with
  | DNil => Faults
  | DHandle true src => Returns (DHandle true src) (Some ErrDecoderClosed)
  | DHandle false _ => Returns (DHandle false r) None
  end.

Definition decoder_close (d : decoder) : call decoder unit :=
  match d with
  | DNil => Faults
  | DHandle _ _ => Returns (DHandle true None) tt
  end.

Definition encoder_reset (e : encoder) (w : option nat) : call encoder unit :=
  match e with
  | ENil => Faults
  | EHandle _ _ => Returns (EHandle false w) tt
  end.

Definition encoder_close (e : encoder) : call encoder (option error) :=
  match e with
  | ENil => Faults
  | EHandle _ t => Returns (EHandle true t) None
  end.

Definition decoder_closed (d : decoder) : bool :=
  match d with DHandle c _ => c | DNil => false end.

Definition decoder_source (d : decoder) : option nat :=
  match d with DHandle _ src => src | DNil => None end.

Definition encoder_target (e : encoder) : option nat :=
  match e with EHandle _ t => t | ENil => None end.

Definition engine : Zstd := {|
  Reader := nat;
  Writer := nat;
  DOption := bool;
  EOption := bool;
  Error := error;
  Decoder := decoder;
  Encoder := encoder;
  NewReader := new_reader;
  NewWriter := new_writer;
  Decoder_Reset := decoder_reset;
  Decoder_Close := decoder_close;
  Encoder_Reset := encoder_reset;
  Encoder_Close := encoder_close;
  Decoder_closed := decoder_closed;
  Decoder_source := decoder_source;
  Encoder_target := encoder_target;
|}.

End RefZstd.

(** ** Example worlds, on the reference engine *)
Module Demo.

Local Abbreviation E := RefZstd.engine.

Definition facade : DecoderPoolWrapper := {| dpw_pool := 0 |}.

Definition enc_facade : EncoderPoolWrapper := {| epw_pool := 0 |}.

(** A decoder pool and one wrapper (address 0) acquired from it, bound to
    reader 7. *)
Definition held : World E :=
  exec_all
    [Op_NewDecoderPool (Z := E) [true]; Op_DecGet (Z := E) facade None (Some 7)]
    (empty_world E).

(** The same, the holder having closed the handle behind the package's back. *)
Definition held_closed : World E :=
  exec (Op_DecoderClose (Z := E) 0) held.

(** A decoder pool whose options the engine rejects, and one wrapper made by
    its construction function: it embeds the nil handle. *)
Definition held_nil : World E :=
  exec_all
    [Op_NewDecoderPool (Z := E) [false]; Op_New (Z := E) 0]
    (empty_world E).

(** An encoder pool and one wrapper (address 0) acquired from it, bound to
    writer 5. *)
Definition enc_held : World E :=
  exec_all
    [Op_NewEncoderPool (Z := E) [true]; Op_EncGet (Z := E) enc_facade None (Some 5)]
    (empty_world E).

(** A decoder pool in which wrapper 0 is idle although its handle is closed:
    the holder put it back and then closed the handle directly. *)
Definition poisoned : World E :=
  exec_all
    [Op_DecPut (Z := E) facade 0; Op_DecoderClose (Z := E) 0]
    held.

(** The stream adapter of wrapper 0. *)
Definition adapter : decoderReadCloser := {| drc_dw := 0; drc_Reader := 0 |}.

(** A decoder pool (address 0) and an encoder pool (address 1) used through
    their facades only. *)
Definition enc_facade1 : EncoderPoolWrapper := {| epw_pool := 1 |}.

Definition typed_run : list (op E) :=
  [Op_NewDecoderPool (Z := E) [true];
   Op_NewEncoderPool (Z := E) [true];
   Op_DecGet (Z := E) facade None (Some 7);
   Op_DecPut (Z := E) facade 0;
   Op_EncGet (Z := E) enc_facade1 None (Some 5);
   Op_EncPut (Z := E) enc_facade1 0;
   Op_DecClose (Z := E) 0;
   Op_ReadCloserClose (Z := E) adapter;
   Op_DecGet (Z := E) facade (Some 1) (Some 8);
   Op_Finalize (Z := E) (EncPtr 0);
   Op_Drop (Z := E) 0 0].

(** A run under exclusive ownership: the holder of wrapper 0 closes its
    handle directly and then releases it; wrapper 1 is acquired, released,
    acquired again and released through its stream adapter. *)
Definition owned_run : list (op E) :=
  [Op_NewDecoderPool (Z := E) [true];
   Op_DecGet (Z := E) facade None (Some 7);
   Op_DecoderClose (Z := E) 0;
   Op_DecPut (Z := E) facade 0;
   Op_DecGet (Z := E) facade (Some 0) (Some 8);
   Op_DecClose (Z := E) 1;
   Op_DecGet (Z := E) facade (Some 0) (Some 9);
   Op_DecReset (Z := E) 1 (Some 10);
   Op_ReadCloserClose (Z := E) {| drc_dw := 1; drc_Reader := 1 |};
   Op_Finalize (Z := E) (DecPtr 0)].

(** Wrapper 0 is released twice and then acquired. *)
Definition double_release_run : list (op E) :=
  [Op_NewDecoderPool (Z := E) [true];
   Op_DecGet (Z := E) facade None (Some 7);
   Op_DecClose (Z := E) 0;
   Op_DecClose (Z := E) 0;
   Op_DecGet (Z := E) facade (Some 0) (Some 8)].

(** Steps of release on [held]. *)
Definition release_run : list (release_op E) :=
  [R_Put (Z := E) facade 0; R_Close (Z := E) 0; R_New (Z := E) 0; R_Close (Z := E) 1].

(** Two decoder pools (addresses 0 and 1) and one wrapper (address 0)
    acquired from the first, bound to reader 7. *)
Definition facade1 : DecoderPoolWrapper := {| dpw_pool := 1 |}.

Definition two_pools : World E :=
  exec_all
    [Op_NewDecoderPool (Z := E) [true];
     Op_NewDecoderPool (Z := E) [true];
     Op_DecGet (Z := E) facade None (Some 7)]
    (empty_world E).

(** A run without finalizer and without direct close. *)
Definition gentle_run : list (op E) :=
  [Op_NewDecoderPool (Z := E) [true];
   Op_NewEncoderPool (Z := E) [true];
   Op_DecGet (Z := E) facade None (Some 7);
   Op_DecPut (Z := E) facade 0;
   Op_EncGet (Z := E) enc_facade1 None (Some 5);
   Op_EncPut (Z := E) enc_facade1 0;
   Op_ReadCloserClose (Z := E) adapter;
   Op_RawGet (Z := E) 0 (Some 0);
   Op_RawPut (Z := E) 0 (DecPtr 0);
   Op_Drop (Z := E) 0 0].

End Demo.

(** * Properties *)

(** Unfolds the computations down to the state-passing functions. *)
Ltac unfold_M :=
  unfold DecoderWrapper_Close, DecoderPoolWrapper_Put, DecoderPoolWrapper_Get,
    decoderReadCloser_Close, DecoderWrapper_IOReadCloser,
    EncoderPoolWrapper_Put, EncoderPoolWrapper_Get,
    Earlier_NewDecoderPool_finalizer, Earlier_DecoderWrapper_Close,
    NewDecoderPool_finalizer, NewEncoderPool_finalizer,
    NewDecoderPoolWrapper, NewEncoderPoolWrapper, NewDecoderPool, NewEncoderPool,
    Pool_New, call_factory, NewDecoderPool_New, NewEncoderPool_New,
    SetFinalizer_dec, SetFinalizer_enc, set_New, alloc_dec, alloc_enc, alloc_pool,
    assert_DecoderWrapper, assert_EncoderWrapper,
    Pool_Put, Pool_Get, Pool_drop,
    decoder_Reset, decoder_Close, encoder_Reset, encoder_Close,
    deref_dec, deref_enc, deref_pool, modify, raise,
    mbind, M_bind, mret, M_ret in *.

(** Closes [x ∉ [e1; ...; en]] when [x] differs from each [ei] by its
    constructor. *)
Ltac not_in_events :=
  let Hin := fresh "Hin" in
  intros Hin;
  repeat (apply elem_of_cons in Hin as [Hin|Hin]; [discriminate Hin|]);
  by apply elem_of_nil in Hin.

Section Properties.

Context (Z : Zstd).

Implicit Types (s : World Z) (w p : nat) (dw : DecoderWrapper Z).

(** The world right after [w.Decoder.Reset(r)] has returned [d']. *)
Lemma decoder_Reset_run s w dw r :
  decs s !! w = Some dw ->
  decoder_Reset w r s =
    match Decoder_Reset Z (dw_Decoder dw) r with
    | Returns d' err =>
        Ok err (set_decs <[w := {| dw_Decoder := d'; dw_pool := dw_pool dw |}]>
                  (emit (E_DecoderReset w r) s))
    | Faults => Panic EngineFault (emit (E_DecoderReset w r) s)
    end.
Proof.
  intros Hw. unfold_M. rewrite Hw. simpl.
  destruct (Decoder_Reset Z (dw_Decoder dw) r); reflexivity.
Qed.

Lemma decoder_Reset_nil s w r :
  decs s !! w = None -> decoder_Reset w r s = Panic NilDeref s.
Proof. intros Hw. unfold_M. rewrite Hw. reflexivity. Qed.

Lemma Pool_Put_run s p sp x :
  x <> Nil -> pools s !! p = Some sp ->
  Pool_Put p x s =
    Ok tt (set_pools <[p := {| New := New sp; idle := x :: idle sp |}]>
             (emit (E_PoolPut p x) s)).
Proof.
  intros Hx Hp. unfold_M. simpl.
  destruct x; try congruence; simpl; rewrite Hp; reflexivity.
Qed.

Lemma Pool_Put_nil_pool s p x :
  x <> Nil -> pools s !! p = None ->
  Pool_Put p x s = Panic NilDeref (emit (E_PoolPut p x) s).
Proof.
  intros Hx Hp. unfold_M. simpl.
  destruct x; try congruence; simpl; rewrite Hp; reflexivity.
Qed.

(** ** Release of a decoder wrapper *)

(** [DecoderWrapper.Close] and [DecoderPoolWrapper.Put] on a wrapper that
    exists, by what [Reset(nil)] does on its handle. *)
Lemma DecoderWrapper_Close_run s w dw :
  decs s !! w = Some dw ->
  DecoderWrapper_Close w s =
    match Decoder_Reset Z (dw_Decoder dw) None with
    | Returns d' None =>
        Pool_Put (dw_pool dw) (DecPtr w)
          (set_decs <[w := {| dw_Decoder := d'; dw_pool := dw_pool dw |}]>
             (emit (E_DecoderReset w None) s))
    | Returns d' (Some _) =>
        Ok tt (set_decs <[w := {| dw_Decoder := d'; dw_pool := dw_pool dw |}]>
                 (emit (E_DecoderReset w None) s))
    | Faults => Panic EngineFault (emit (E_DecoderReset w None) s)
    end.
Proof.
  intros Hw. unfold DecoderWrapper_Close, mbind, M_bind.
  rewrite (decoder_Reset_run _ _ _ _ Hw).
  destruct (Decoder_Reset Z (dw_Decoder dw) None) as [d' [e|]|]; try reflexivity.
  unfold deref_dec, set_decs; simpl. rewrite lookup_insert_eq. reflexivity.
Qed.

Lemma DecoderPoolWrapper_Put_run s (d : DecoderPoolWrapper) w dw :
  decs s !! w = Some dw ->
  DecoderPoolWrapper_Put d w s =
    match Decoder_Reset Z (dw_Decoder dw) None with
    | Returns d' None =>
        Pool_Put (dpw_pool d) (DecPtr w)
          (set_decs <[w := {| dw_Decoder := d'; dw_pool := dw_pool dw |}]>
             (emit (E_DecoderReset w None) s))
    | Returns d' (Some _) =>
        Ok tt (set_decs <[w := {| dw_Decoder := d'; dw_pool := dw_pool dw |}]>
                 (emit (E_DecoderReset w None) s))
    | Faults => Panic EngineFault (emit (E_DecoderReset w None) s)
    end.
Proof.
  intros Hw. unfold DecoderPoolWrapper_Put, mbind, M_bind.
  rewrite (decoder_Reset_run _ _ _ _ Hw).
  destruct (Decoder_Reset Z (dw_Decoder dw) None) as [d' [e|]|]; reflexivity.
Qed.

Lemma DecoderWrapper_Close_nil s w :
  decs s !! w = None -> DecoderWrapper_Close w s = Panic NilDeref s.
Proof.
  intros Hw. unfold DecoderWrapper_Close, mbind, M_bind.
  rewrite decoder_Reset_nil by exact Hw. reflexivity.
Qed.

Lemma DecoderPoolWrapper_Put_nil s (d : DecoderPoolWrapper) w :
  decs s !! w = None -> DecoderPoolWrapper_Put d w s = Panic NilDeref s.
Proof.
  intros Hw. unfold DecoderPoolWrapper_Put, mbind, M_bind.
  rewrite decoder_Reset_nil by exact Hw. reflexivity.
Qed.

(** C1. [DecoderWrapper.Close] (target pool: the wrapper's own) and
    [DecoderPoolWrapper.Put] (target pool: the facade's) first call
    [Reset(nil)] on the handle; the wrapper is put in the pool exactly when
    that call returns no error.  When it returns an error, the release
    returns normally and without a result, the pools are left as they were,
    and the only call made on the handle is the [Reset]: it is not closed by
    the release. *)
Theorem release_pools_iff_reset_succeeds s w dw (d : DecoderPoolWrapper)
    P (run : M Z unit) :
  decs s !! w = Some dw ->
  (P = dw_pool dw /\ run = DecoderWrapper_Close w) \/
  (P = dpw_pool d /\ run = DecoderPoolWrapper_Put d w) ->
  let s' := world_of (run s) in
  match Decoder_Reset Z (dw_Decoder dw) None with
  | Returns d' None =>
      trace s' = trace s ++ [E_DecoderReset w None; E_PoolPut P (DecPtr w)] /\
      decs s' = <[w := {| dw_Decoder := d'; dw_pool := dw_pool dw |}]> (decs s) /\
      match pools s !! P with
      | Some sp =>
          run s = Ok tt s' /\
          pools s' = <[P := {| New := New sp; idle := DecPtr w :: idle sp |}]> (pools s)
      | None => run s = Panic NilDeref s' /\ pools s' = pools s
      end
  | Returns d' (Some e) =>
      run s = Ok tt s' /\
      trace s' = trace s ++ [E_DecoderReset w None] /\
      decs s' = <[w := {| dw_Decoder := d'; dw_pool := dw_pool dw |}]> (decs s) /\
      pools s' = pools s
  | Faults =>
      run s = Panic EngineFault s' /\
      trace s' = trace s ++ [E_DecoderReset w None] /\
      decs s' = decs s /\ pools s' = pools s
  end.
Proof.
  intros Hw Hrun s'. subst s'.
  assert (Hrun' : run s =
    match Decoder_Reset Z (dw_Decoder dw) None with
    | Returns d' None =>
        Pool_Put P (DecPtr w)
          (set_decs <[w := {| dw_Decoder := d'; dw_pool := dw_pool dw |}]>
             (emit (E_DecoderReset w None) s))
    | Returns d' (Some _) =>
        Ok tt (set_decs <[w := {| dw_Decoder := d'; dw_pool := dw_pool dw |}]>
                 (emit (E_DecoderReset w None) s))
    | Faults => Panic EngineFault (emit (E_DecoderReset w None) s)
    end).
  { destruct Hrun as [[-> ->]|[-> ->]].
    - apply DecoderWrapper_Close_run, Hw.
    - apply DecoderPoolWrapper_Put_run, Hw. }
  rewrite Hrun'.
  destruct (Decoder_Reset Z (dw_Decoder dw) None) as [d' [e|]|]; simpl.
  - auto.
  - destruct (pools s !! P) as [sp|] eqn:Hp.
    + rewrite (Pool_Put_run _ _ sp) by (done || exact Hp).
      simpl. rewrite <- app_assoc. auto.
    + rewrite Pool_Put_nil_pool by (done || exact Hp).
      simpl. rewrite <- app_assoc. auto.
  - auto.
Qed.

(** The calls a release makes never include the terminal close. *)
Lemma DecoderWrapper_Close_trace s w :
  exists evs,
    trace (world_of (DecoderWrapper_Close w s)) = trace s ++ evs /\
    forall w', E_DecoderClose w' ∉ evs.
Proof.
  destruct (decs s !! w) as [dw|] eqn:Hw.
  - rewrite (DecoderWrapper_Close_run _ _ _ Hw).
    destruct (Decoder_Reset Z (dw_Decoder dw) None) as [d' [e|]|]; simpl.
    + exists [E_DecoderReset w None]. split; [done|]. intros w'. not_in_events.
    + exists [E_DecoderReset w None; E_PoolPut (dw_pool dw) (DecPtr w)].
      split; [|intros w'; not_in_events].
      destruct (pools s !! dw_pool dw) as [sp|] eqn:Hp.
      * rewrite (Pool_Put_run _ _ sp) by (done || exact Hp).
        simpl. by rewrite <- app_assoc.
      * rewrite Pool_Put_nil_pool by (done || exact Hp).
        simpl. by rewrite <- app_assoc.
    + exists [E_DecoderReset w None]. split; [done|]. intros w'. not_in_events.
  - rewrite DecoderWrapper_Close_nil by exact Hw.
    exists []. simpl. rewrite app_nil_r. split; [done|]. intros w'. not_in_events.
Qed.

(** ** The stream adapter *)

Lemma decoderReadCloser_Close_run s (a : decoderReadCloser) :
  decoderReadCloser_Close a s =
    match DecoderWrapper_Close (drc_dw a) s with
    | Ok _ s' => Ok None s'
    | Panic v s' => Panic v s'
    end.
Proof. reflexivity. Qed.

(** C5. An adapter made by [DecoderWrapper.IOReadCloser] refers to the
    wrapper it was made from.  Its [Close] is [DecoderWrapper.Close] on that
    wrapper followed by [return nil]: it never returns an error and never
    panics with the error of [Reset]; it returns nil whether [Reset] returned
    an error or not; and the calls it makes do not include the terminal close
    of the handle. *)
Theorem readcloser_Close_returns_nil s (a : decoderReadCloser) :
  (forall w s0 s1, DecoderWrapper_IOReadCloser w s0 = Ok a s1 ->
     drc_dw a = w /\ s1 = s0 /\ is_Some (decs s0 !! w)) /\
  decoderReadCloser_Close a s =
    match DecoderWrapper_Close (drc_dw a) s with
    | Ok _ s' => Ok None s'
    | Panic v s' => Panic v s'
    end /\
  (forall e s', decoderReadCloser_Close a s <> Ok (Some e) s') /\
  (forall e s', decoderReadCloser_Close a s <> Panic (PanicErr e) s') /\
  (forall dw d' err sp,
     decs s !! drc_dw a = Some dw ->
     pools s !! dw_pool dw = Some sp ->
     Decoder_Reset Z (dw_Decoder dw) None = Returns d' err ->
     exists s', decoderReadCloser_Close a s = Ok None s' /\
       (pools s' = pools s <-> err <> None)) /\
  (exists evs,
     trace (world_of (decoderReadCloser_Close a s)) = trace s ++ evs /\
     forall w', E_DecoderClose w' ∉ evs).
Proof.
  repeat split.
  - revert H. unfold DecoderWrapper_IOReadCloser, mbind, M_bind, deref_dec.
    destruct (decs s0 !! w); [|discriminate]. intros [= <- _]. reflexivity.
  - revert H. unfold DecoderWrapper_IOReadCloser, mbind, M_bind, deref_dec.
    destruct (decs s0 !! w); [|discriminate]. by intros [= _ ->].
  - revert H. unfold DecoderWrapper_IOReadCloser, mbind, M_bind, deref_dec.
    destruct (decs s0 !! w); [eauto|discriminate].
  - intros e s'. rewrite decoderReadCloser_Close_run.
    destruct (DecoderWrapper_Close (drc_dw a) s); discriminate.
  - intros e s'. rewrite decoderReadCloser_Close_run.
    destruct (decs s !! drc_dw a) as [dw|] eqn:Hw.
    + rewrite (DecoderWrapper_Close_run _ _ _ Hw).
      destruct (Decoder_Reset Z (dw_Decoder dw) None) as [d' [e'|]|];
        try discriminate.
      destruct (pools s !! dw_pool dw) as [sp|] eqn:Hp.
      * rewrite (Pool_Put_run _ _ sp) by (done || exact Hp). discriminate.
      * rewrite Pool_Put_nil_pool by (done || exact Hp). discriminate.
    + rewrite DecoderWrapper_Close_nil by exact Hw. discriminate.
  - intros dw d' err sp Hw Hp Hreset.
    rewrite decoderReadCloser_Close_run, (DecoderWrapper_Close_run _ _ _ Hw), Hreset.
    destruct err as [e|].
    + eexists. split; [reflexivity|]. simpl. split; [discriminate|done].
    + rewrite (Pool_Put_run _ _ sp) by (done || exact Hp).
      eexists. split; [reflexivity|]. simpl. split; [|done].
      intros Heq. exfalso.
      assert (Hl : pools s !! dw_pool dw =
                   Some {| New := New sp; idle := DecPtr (drc_dw a) :: idle sp |}).
      { rewrite <- Heq. apply lookup_insert_eq. }
      rewrite Hp in Hl. injection Hl as Hl.
      apply (f_equal idle) in Hl. simpl in Hl.
      apply (f_equal length) in Hl. simpl in Hl. lia.
  - destruct (DecoderWrapper_Close_trace s (drc_dw a)) as (evs & Htr & Hno).
    exists evs. split; [|exact Hno].
    rewrite decoderReadCloser_Close_run.
    destruct (DecoderWrapper_Close (drc_dw a) s); exact Htr.
Qed.

(** C10. The adapter has no state of its own that [Close] changes: on every
    world, also after earlier calls, [Close] runs [DecoderWrapper.Close]
    again and returns nil.  With an engine on which a handle that was reset
    can be reset again, two calls of [Close] on the same adapter put the same
    wrapper in the pool twice. *)
Theorem readcloser_Close_twice_pools_twice s (a : decoderReadCloser) dw d1 sp :
  reset_rebinds Z ->
  decs s !! drc_dw a = Some dw ->
  pools s !! dw_pool dw = Some sp ->
  Decoder_Reset Z (dw_Decoder dw) None = Returns d1 None ->
  (forall s0, decoderReadCloser_Close a s0 =
     match DecoderWrapper_Close (drc_dw a) s0 with
     | Ok _ s' => Ok None s'
     | Panic v s' => Panic v s'
     end) /\
  exists s1 s2 sp2,
    decoderReadCloser_Close a s = Ok None s1 /\
    decoderReadCloser_Close a s1 = Ok None s2 /\
    trace s2 = trace s ++
      [E_DecoderReset (drc_dw a) None; E_PoolPut (dw_pool dw) (DecPtr (drc_dw a));
       E_DecoderReset (drc_dw a) None; E_PoolPut (dw_pool dw) (DecPtr (drc_dw a))] /\
    pools s2 !! dw_pool dw = Some sp2 /\
    idle sp2 = DecPtr (drc_dw a) :: DecPtr (drc_dw a) :: idle sp /\
    occurrences (DecPtr (drc_dw a)) (idle sp2) =
      2 + occurrences (DecPtr (drc_dw a)) (idle sp).
Proof.
  intros Hlaw Hw Hp Hreset. split; [intros s0; apply decoderReadCloser_Close_run|].
  destruct (Hlaw _ _ _ Hreset) as (_ & _ & Hagain).
  destruct (Hagain None) as [d2 Hreset2].
  set (w := drc_dw a) in *. set (P := dw_pool dw) in *.
  set (c1 := {| dw_Decoder := d1; dw_pool := P |}).
  set (s1 := set_pools <[P := {| New := New sp; idle := DecPtr w :: idle sp |}]>
               (emit (E_PoolPut P (DecPtr w))
                  (set_decs <[w := c1]> (emit (E_DecoderReset w None) s)))).
  assert (H1 : decoderReadCloser_Close a s = Ok None s1).
  { rewrite decoderReadCloser_Close_run. fold w.
    rewrite (DecoderWrapper_Close_run _ _ _ Hw), Hreset. fold P.
    rewrite (Pool_Put_run _ _ sp) by (done || exact Hp). reflexivity. }
  assert (Hw1 : decs s1 !! w = Some c1) by apply lookup_insert_eq.
  assert (Hp1 : pools s1 !! P = Some {| New := New sp; idle := DecPtr w :: idle sp |})
    by apply lookup_insert_eq.
  eexists s1, _, _. split; [exact H1|].
  split.
  { rewrite decoderReadCloser_Close_run. fold w.
    rewrite (DecoderWrapper_Close_run _ _ _ Hw1). simpl. rewrite Hreset2.
    rewrite (Pool_Put_run _ _ _ (DecPtr w)) by (discriminate || exact Hp1).
    reflexivity. }
  simpl. split; [by rewrite <- !app_assoc|].
  split; [apply lookup_insert_eq|]. simpl. split; [reflexivity|].
  rewrite !decide_True by reflexivity. reflexivity.
Qed.

(** ** Construction *)

Lemma fresh_dec_unused s : decs s !! fresh (dom (decs s)) = None.
Proof. apply not_elem_of_dom, is_fresh. Qed.

Lemma fresh_enc_unused s : encs s !! fresh (dom (encs s)) = None.
Proof. apply not_elem_of_dom, is_fresh. Qed.

Lemma fresh_pool_unused s : pools s !! fresh (dom (pools s)) = None.
Proof. apply not_elem_of_dom, is_fresh. Qed.

Lemma NewEncoderPool_New_run s options :
  NewEncoderPool_New options s =
    let ew := fresh (dom (encs s)) in
    Ok (EncPtr ew)
      (set_enc_fins <[ew := Fin_Encoder_Close]>
         (emit (E_SetFinalizer (EncPtr ew))
            (set_encs <[ew := {| ew_Encoder := fst (NewWriter Z None options) |}]>
               (emit (E_NewWriter options) s)))).
Proof. reflexivity. Qed.

Lemma NewDecoderPool_New_run s options p :
  NewDecoderPool_New options p s =
    let dw := fresh (dom (decs s)) in
    Ok (DecPtr dw)
      (set_dec_fins <[dw := Fin_Decoder_Close]>
         (emit (E_SetFinalizer (DecPtr dw))
            (set_decs <[dw := {| dw_Decoder := fst (NewReader Z None options);
                                 dw_pool := p |}]>
               (emit (E_NewReader options) s)))).
Proof. reflexivity. Qed.

Lemma NewDecoderPool_run s options :
  NewDecoderPool options s =
    let p := fresh (dom (pools s)) in
    Ok p (set_pools <[p := {| New := Some (NewDecoderFn options p); idle := [] |}]> s).
Proof.
  unfold_M. simpl. rewrite lookup_insert_eq. simpl.
  unfold set_pools; simpl. by rewrite insert_insert_eq.
Qed.

Lemma NewEncoderPool_run s options :
  NewEncoderPool options s =
    let p := fresh (dom (pools s)) in
    Ok p (set_pools <[p := {| New := Some (NewEncoderFn options); idle := [] |}]> s).
Proof.
  unfold_M. simpl. rewrite lookup_insert_eq. simpl.
  unfold set_pools; simpl. by rewrite insert_insert_eq.
Qed.

(** C8. The pool made by [NewEncoderPool], resp. [NewDecoderPool], has the
    closure of lines 37-46, resp. 305-317, as its [New].  Whatever handle [h]
    and error [err] the engine's constructor returns, that closure returns a
    new wrapper embedding [h], and so does a [Get] on the pool that finds no
    idle item: the error is dropped, also when there is one and [h] is
    unusable. *)
Theorem construction_error_is_discarded s :
  (forall options, exists p s',
     NewEncoderPool options s = Ok p s' /\
     pools s' !! p = Some {| New := Some (NewEncoderFn options); idle := [] |}) /\
  (forall options, exists p s',
     NewDecoderPool options s = Ok p s' /\
     pools s' !! p = Some {| New := Some (NewDecoderFn options p); idle := [] |}) /\
  (forall options h err, NewWriter Z None options = (h, err) ->
     exists ew s',
       NewEncoderPool_New options s = Ok (EncPtr ew) s' /\
       encs s !! ew = None /\
       encs s' !! ew = Some {| ew_Encoder := h |} /\
       forall p sp, pools s !! p = Some sp -> New sp = Some (NewEncoderFn options) ->
         exists s'', Pool_Get p None s = Ok (EncPtr ew) s'' /\
                     encs s'' !! ew = Some {| ew_Encoder := h |}) /\
  (forall options p h err, NewReader Z None options = (h, err) ->
     exists (dw : nat) s',
       NewDecoderPool_New options p s = Ok (DecPtr dw) s' /\
       decs s !! dw = None /\
       decs s' !! dw = Some {| dw_Decoder := h; dw_pool := p |} /\
       forall sp, pools s !! p = Some sp -> New sp = Some (NewDecoderFn options p) ->
         exists s'', Pool_Get p None s = Ok (DecPtr dw) s'' /\
                     decs s'' !! dw = Some {| dw_Decoder := h; dw_pool := p |}).
Proof.
  split; [|split; [|split]].
  - intros options. eexists _, _. rewrite NewEncoderPool_run. simpl.
    split; [reflexivity|]. apply lookup_insert_eq.
  - intros options. eexists _, _. rewrite NewDecoderPool_run. simpl.
    split; [reflexivity|]. apply lookup_insert_eq.
  - intros options h err Hnew. eexists _, _. rewrite NewEncoderPool_New_run. simpl.
    split; [reflexivity|]. split; [apply fresh_enc_unused|]. rewrite Hnew. simpl.
    split; [apply lookup_insert_eq|].
    intros p sp Hp HNew. eexists.
    unfold Pool_Get, mbind, M_bind, deref_pool. rewrite Hp. simpl. rewrite HNew.
    simpl. rewrite NewEncoderPool_New_run. simpl. split; [reflexivity|].
    simpl. rewrite Hnew. apply lookup_insert_eq.
  - intros options p h err Hnew. eexists _, _. rewrite NewDecoderPool_New_run. simpl.
    split; [reflexivity|]. split; [apply fresh_dec_unused|]. rewrite Hnew. simpl.
    split; [apply lookup_insert_eq|].
    intros sp Hp HNew. eexists.
    unfold Pool_Get, mbind, M_bind, deref_pool. rewrite Hp. simpl. rewrite HNew.
    simpl. rewrite NewDecoderPool_New_run. simpl. split; [reflexivity|].
    simpl. rewrite Hnew. apply lookup_insert_eq.
Qed.

(** ** Finalizers *)

Lemma decoder_Close_run s w dw :
  decs s !! w = Some dw ->
  decoder_Close w s =
    match Decoder_Close Z (dw_Decoder dw) with
    | Returns d' _ =>
        Ok tt (set_decs <[w := {| dw_Decoder := d'; dw_pool := dw_pool dw |}]>
                 (emit (E_DecoderClose w) s))
    | Faults => Panic EngineFault (emit (E_DecoderClose w) s)
    end.
Proof.
  intros Hw. unfold_M. rewrite Hw. simpl.
  destruct (Decoder_Close Z (dw_Decoder dw)); reflexivity.
Qed.

Lemma encoder_Close_run s w (ew : EncoderWrapper Z) :
  encs s !! w = Some ew ->
  encoder_Close w s =
    match Encoder_Close Z (ew_Encoder ew) with
    | Returns e' err =>
        Ok err (set_encs <[w := {| ew_Encoder := e' |}]> (emit (E_EncoderClose w) s))
    | Faults => Panic EngineFault (emit (E_EncoderClose w) s)
    end.
Proof.
  intros Hw. unfold_M. rewrite Hw. simpl.
  destruct (Encoder_Close Z (ew_Encoder ew)); reflexivity.
Qed.

(** C7. The construction function of an encoder pool registers a finalizer
    on the wrapper it makes, in the same call.  When the runtime runs it, the
    finalizer calls the engine's [Close] on the embedded encoder, once, and
    nothing else; the handle is left as [Close] leaves it and the error of
    [Close] is dropped. *)
Theorem encoder_finalizer_closes_handle s options :
  (exists ew s1,
     NewEncoderPool_New options s = Ok (EncPtr ew) s1 /\
     encs s !! ew = None /\
     enc_fins s1 !! ew = Some Fin_Encoder_Close /\
     trace s1 = trace s ++ [E_NewWriter options; E_SetFinalizer (EncPtr ew)]) /\
  (forall ew s2 (c : EncoderWrapper Z),
     encs s2 !! ew = Some c ->
     enc_fins s2 !! ew = Some Fin_Encoder_Close ->
     let out := run_finalizer (EncPtr ew) s2 in
     trace (world_of out) = trace s2 ++ [E_EncoderClose ew] /\
     enc_fins (world_of out) !! ew = None /\
     pools (world_of out) = pools s2 /\
     match Encoder_Close Z (ew_Encoder c) with
     | Returns e' _ =>
         out = Ok tt (world_of out) /\
         encs (world_of out) = <[ew := {| ew_Encoder := e' |}]> (encs s2)
     | Faults =>
         out = Panic EngineFault (world_of out) /\ encs (world_of out) = encs s2
     end).
Proof.
  split.
  - eexists _, _. rewrite NewEncoderPool_New_run. simpl.
    split; [reflexivity|].
    split; [apply fresh_enc_unused|].
    split; [apply lookup_insert_eq|]. simpl. by rewrite <- app_assoc.
  - intros ew s2 c Hc Hfin out. subst out.
    unfold run_finalizer. rewrite Hfin. simpl.
    unfold NewEncoderPool_finalizer, mbind, M_bind.
    rewrite (encoder_Close_run _ _ c) by exact Hc.
    destruct (Encoder_Close Z (ew_Encoder c)) as [e' err|]; simpl;
      (split; [reflexivity|]); (split; [apply lookup_delete_eq|]); auto.
Qed.

(** C3 (amended). The construction function of a decoder pool registers a
    finalizer on the wrapper it makes, in the same call.  When the runtime
    runs it, the finalizer calls the engine's terminal [Close] on the
    embedded decoder, once, and nothing else: the source is not reset and the
    wrapper is not put in any pool. *)
Theorem decoder_finalizer_closes_handle s options p :
  (exists (dw : nat) s1,
     NewDecoderPool_New options p s = Ok (DecPtr dw) s1 /\
     decs s !! dw = None /\
     dec_fins s1 !! dw = Some Fin_Decoder_Close /\
     trace s1 = trace s ++ [E_NewReader options; E_SetFinalizer (DecPtr dw)]) /\
  (forall w s2 (c : DecoderWrapper Z),
     decs s2 !! w = Some c ->
     dec_fins s2 !! w = Some Fin_Decoder_Close ->
     let out := run_finalizer (DecPtr w) s2 in
     trace (world_of out) = trace s2 ++ [E_DecoderClose w] /\
     dec_fins (world_of out) !! w = None /\
     pools (world_of out) = pools s2 /\
     match Decoder_Close Z (dw_Decoder c) with
     | Returns d' _ =>
         out = Ok tt (world_of out) /\
         decs (world_of out) =
           <[w := {| dw_Decoder := d'; dw_pool := dw_pool c |}]> (decs s2)
     | Faults =>
         out = Panic EngineFault (world_of out) /\ decs (world_of out) = decs s2
     end).
Proof.
  split.
  - eexists _, _. rewrite NewDecoderPool_New_run. simpl.
    split; [reflexivity|]. split; [apply fresh_dec_unused|].
    split; [apply lookup_insert_eq|]. simpl. by rewrite <- app_assoc.
  - intros w s2 c Hc Hfin out. subst out.
    unfold run_finalizer. rewrite Hfin. simpl.
    unfold NewDecoderPool_finalizer.
    rewrite (decoder_Close_run _ _ c) by exact Hc.
    destruct (Decoder_Close Z (dw_Decoder c)) as [d' []|]; simpl;
      (split; [reflexivity|]); (split; [apply lookup_delete_eq|]); auto.
Qed.

(** In the earlier revision the finalizer was the release path of that
    revision, which puts the wrapper in its pool whatever [Reset] returns. *)
Lemma Earlier_finalizer_pools_unconditionally s w dw sp d' err :
  decs s !! w = Some dw ->
  pools s !! dw_pool dw = Some sp ->
  Decoder_Reset Z (dw_Decoder dw) None = Returns d' err ->
  Earlier_NewDecoderPool_finalizer w s =
    Ok tt (set_pools <[dw_pool dw := {| New := New sp; idle := DecPtr w :: idle sp |}]>
             (emit (E_PoolPut (dw_pool dw) (DecPtr w))
                (set_decs <[w := {| dw_Decoder := d'; dw_pool := dw_pool dw |}]>
                   (emit (E_DecoderReset w None) s)))).
Proof.
  intros Hw Hp Hreset.
  unfold Earlier_NewDecoderPool_finalizer, Earlier_DecoderWrapper_Close, mbind, M_bind.
  rewrite (decoder_Reset_run _ _ _ _ Hw), Hreset.
  unfold deref_dec, set_decs at 1; simpl. rewrite lookup_insert_eq. simpl.
  rewrite (Pool_Put_run _ _ sp) by (done || exact Hp). reflexivity.
Qed.

(** ** The encoder facade *)

Lemma encoder_Reset_run s w (ew : EncoderWrapper Z) t :
  encs s !! w = Some ew ->
  encoder_Reset w t s =
    match Encoder_Reset Z (ew_Encoder ew) t with
    | Returns e' _ =>
        Ok tt (set_encs <[w := {| ew_Encoder := e' |}]> (emit (E_EncoderReset w t) s))
    | Faults => Panic EngineFault (emit (E_EncoderReset w t) s)
    end.
Proof.
  intros Hw. unfold_M. rewrite Hw. simpl.
  destruct (Encoder_Reset Z (ew_Encoder ew) t); reflexivity.
Qed.

Lemma encoder_Reset_nil s w t :
  encs s !! w = None -> encoder_Reset w t s = Panic NilDeref s.
Proof. intros Hw. unfold_M. rewrite Hw. reflexivity. Qed.

(** What [encoder_Reset] has done when it returns. *)
Lemma encoder_Reset_Ok s w t s' :
  encoder_Reset w t s = Ok tt s' ->
  exists (ew : EncoderWrapper Z) e',
    encs s !! w = Some ew /\
    Encoder_Reset Z (ew_Encoder ew) t = Returns e' tt /\
    s' = set_encs <[w := {| ew_Encoder := e' |}]> (emit (E_EncoderReset w t) s).
Proof.
  destruct (encs s !! w) as [ew|] eqn:Hw.
  - rewrite (encoder_Reset_run _ _ ew) by exact Hw.
    destruct (Encoder_Reset Z (ew_Encoder ew) t) as [e' []|] eqn:Hr; [|discriminate].
    intros [= <-]. eauto.
  - rewrite encoder_Reset_nil by exact Hw. discriminate.
Qed.

(** C6. [EncoderPoolWrapper.Put] calls [Reset(nil)] on the encoder and then
    puts the wrapper in the facade's pool; [Reset] has no result to test, and
    the wrapper is pooled in whatever state [Reset] left the handle.  The
    pooled handle is bound to no target, and a wrapper that
    [EncoderPoolWrapper.Get] returns is bound to the target given to that
    [Get]. *)
Theorem encoder_Put_resets_and_always_pools s (e : EncoderPoolWrapper) w
    (ew : EncoderWrapper Z) sp e' :
  encs s !! w = Some ew ->
  pools s !! epw_pool e = Some sp ->
  Encoder_Reset Z (ew_Encoder ew) None = Returns e' tt ->
  (exists s',
     EncoderPoolWrapper_Put e w s = Ok tt s' /\
     trace s' = trace s ++ [E_EncoderReset w None; E_PoolPut (epw_pool e) (EncPtr w)] /\
     encs s' = <[w := {| ew_Encoder := e' |}]> (encs s) /\
     pools s' =
       <[epw_pool e := {| New := New sp; idle := EncPtr w :: idle sp |}]> (pools s) /\
     (encoder_reset_rebinds Z -> Encoder_target Z e' = None)) /\
  (forall s0 pick t w' s'',
     EncoderPoolWrapper_Get e pick t s0 = Ok w' s'' ->
     exists ew' : EncoderWrapper Z,
       encs s'' !! w' = Some ew' /\
       (encoder_reset_rebinds Z -> Encoder_target Z (ew_Encoder ew') = t)).
Proof.
  intros Hw Hp Hreset. split.
  - eexists. unfold EncoderPoolWrapper_Put, mbind, M_bind.
    rewrite (encoder_Reset_run _ _ ew) by exact Hw. rewrite Hreset.
    rewrite (Pool_Put_run _ _ sp) by (done || exact Hp).
    split; [reflexivity|]. simpl.
    split; [by rewrite <- app_assoc|].
    split; [reflexivity|]. split; [reflexivity|].
    intros Hlaw. exact (Hlaw _ _ _ Hreset).
  - intros s0 pick t w' s''.
    unfold EncoderPoolWrapper_Get, mbind, M_bind.
    destruct (Pool_Get (epw_pool e) pick s0) as [x s1|]; [|discriminate].
    destruct x as [|l|l|tag]; simpl; try discriminate.
    destruct (encoder_Reset l t s1) as [[] s2|] eqn:Hr; [|discriminate].
    intros [= <- <-].
    apply encoder_Reset_Ok in Hr as (c & e2 & Hc & Hr & ->).
    eexists. split; [apply lookup_insert_eq|].
    intros Hlaw. exact (Hlaw _ _ _ Hr).
Qed.

(** ** The decoder facade *)

(** Where the item that [Get] hands out comes from: it was idle in the pool
    and is idle no more, or the construction function has just made it, or
    it is nil because the pool has no construction function. *)
Lemma Pool_Get_Ok s p pick x s1 :
  Pool_Get p pick s = Ok x s1 ->
  exists sp, pools s !! p = Some sp /\
    ((exists i, pick = Some i /\ idle sp !! i = Some x /\
        s1 = set_pools <[p := {| New := New sp; idle := delete i (idle sp) |}]>
               (emit (E_PoolGet p) s)) \/
     (exists f, New sp = Some f /\ call_factory f (emit (E_PoolGet p) s) = Ok x s1) \/
     (New sp = None /\ x = Nil /\ s1 = emit (E_PoolGet p) s)).
Proof.
  unfold Pool_Get, mbind at 1, M_bind, deref_pool.
  destruct (pools s !! p) as [sp|] eqn:Hp; [|discriminate].
  intros Hget. exists sp. split; [reflexivity|]. revert Hget.
  unfold mbind at 1, M_bind, modify. simpl.
  destruct pick as [i|]; simpl.
  - destruct (idle sp !! i) as [y|] eqn:Hi; simpl.
    + intros [= <- <-]. left. eauto.
    + destruct (New sp) as [f|]; [right; left; eauto|].
      intros [= <- <-]. right; right; auto.
  - destruct (New sp) as [f|]; [right; left; eauto|].
    intros [= <- <-]. right; right; auto.
Qed.

Lemma Pool_Get_Panic s p pick v s1 :
  Pool_Get p pick s = Panic v s1 -> pools s !! p = None /\ v = NilDeref /\ s1 = s.
Proof.
  unfold Pool_Get, mbind at 1, M_bind, deref_pool.
  destruct (pools s !! p) as [sp|] eqn:Hp; [|by intros [= <- <-]].
  unfold mbind at 1, M_bind, modify. simpl.
  destruct pick as [i|]; simpl.
  - destruct (idle sp !! i) as [y|]; simpl; [discriminate|].
    destruct (New sp) as [[o|o q]|]; discriminate.
  - destruct (New sp) as [[o|o q]|]; discriminate.
Qed.

Lemma DecoderPoolWrapper_Get_run s (d : DecoderPoolWrapper) pick r :
  DecoderPoolWrapper_Get d pick r s =
    match Pool_Get (dpw_pool d) pick s with
    | Ok (DecPtr w) s1 =>
        match decs s1 !! w with
        | Some dw =>
            match Decoder_Reset Z (dw_Decoder dw) r with
            | Returns d' None =>
                Ok w (set_decs <[w := {| dw_Decoder := d'; dw_pool := dw_pool dw |}]>
                        (emit (E_DecoderReset w r) s1))
            | Returns d' (Some e) =>
                Panic (PanicErr e)
                  (set_decs <[w := {| dw_Decoder := d'; dw_pool := dw_pool dw |}]>
                     (emit (E_DecoderReset w r) s1))
            | Faults => Panic EngineFault (emit (E_DecoderReset w r) s1)
            end
        | None => Panic NilDeref s1
        end
    | Ok x s1 => Panic (AssertFailed x) s1
    | Panic v s1 => Panic v s1
    end.
Proof.
  unfold DecoderPoolWrapper_Get, mbind at 1, M_bind.
  destruct (Pool_Get (dpw_pool d) pick s) as [x s1|]; [|reflexivity].
  destruct x as [|l|w|tag]; try reflexivity.
  unfold mbind, M_bind, assert_DecoderWrapper, mret, M_ret.
  destruct (decs s1 !! w) as [dw|] eqn:Hw.
  - rewrite (decoder_Reset_run _ _ _ _ Hw).
    destruct (Decoder_Reset Z (dw_Decoder dw) r) as [d' [e|]|]; reflexivity.
  - rewrite decoder_Reset_nil by exact Hw. reflexivity.
Qed.

(** C4. [DecoderPoolWrapper.Get] takes an item from the pool, idle or just
    made by the construction function, and calls [Reset(r)] on its handle
    before returning it.  When [Reset] returns an error, [Get] panics with
    that error; its only normal result is the wrapper.  With an engine whose
    [Reset] fails on closed handles only, the handle was then closed when
    [Get] obtained it, and this cannot happen while every idle wrapper of
    the pools embeds a healthy handle. *)
Theorem Get_resets_or_panics s (d : DecoderPoolWrapper) pick r :
  (forall x s1, Pool_Get (dpw_pool d) pick s = Ok x s1 ->
     exists sp, pools s !! dpw_pool d = Some sp /\
       ((exists i, pick = Some i /\ idle sp !! i = Some x /\
           s1 = set_pools <[dpw_pool d :=
                              {| New := New sp; idle := delete i (idle sp) |}]>
                  (emit (E_PoolGet (dpw_pool d)) s)) \/
        (exists f, New sp = Some f /\
           call_factory f (emit (E_PoolGet (dpw_pool d)) s) = Ok x s1) \/
        (New sp = None /\ x = Nil /\ s1 = emit (E_PoolGet (dpw_pool d)) s))) /\
  DecoderPoolWrapper_Get d pick r s =
    match Pool_Get (dpw_pool d) pick s with
    | Ok (DecPtr w) s1 =>
        match decs s1 !! w with
        | Some dw =>
            match Decoder_Reset Z (dw_Decoder dw) r with
            | Returns d' None =>
                Ok w (set_decs <[w := {| dw_Decoder := d'; dw_pool := dw_pool dw |}]>
                        (emit (E_DecoderReset w r) s1))
            | Returns d' (Some e) =>
                Panic (PanicErr e)
                  (set_decs <[w := {| dw_Decoder := d'; dw_pool := dw_pool dw |}]>
                     (emit (E_DecoderReset w r) s1))
            | Faults => Panic EngineFault (emit (E_DecoderReset w r) s1)
            end
        | None => Panic NilDeref s1
        end
    | Ok x s1 => Panic (AssertFailed x) s1
    | Panic v s1 => Panic v s1
    end /\
  (reset_fails_only_closed Z ->
   forall e s', DecoderPoolWrapper_Get d pick r s = Panic (PanicErr e) s' ->
     exists w s1 dw,
       Pool_Get (dpw_pool d) pick s = Ok (DecPtr w) s1 /\
       decs s1 !! w = Some dw /\
       Decoder_closed Z (dw_Decoder dw) = true) /\
  (reset_fails_only_closed Z -> new_not_closed Z -> pool_inv s ->
   forall e s', DecoderPoolWrapper_Get d pick r s <> Panic (PanicErr e) s').
Proof.
  assert (Hclosed : reset_fails_only_closed Z ->
    forall e s', DecoderPoolWrapper_Get d pick r s = Panic (PanicErr e) s' ->
      exists w s1 dw,
        Pool_Get (dpw_pool d) pick s = Ok (DecPtr w) s1 /\
        decs s1 !! w = Some dw /\
        Decoder_closed Z (dw_Decoder dw) = true).
  { intros Hlaw e s'. rewrite DecoderPoolWrapper_Get_run.
    destruct (Pool_Get (dpw_pool d) pick s) as [x s1|v s1] eqn:Hget.
    - destruct x as [|l|w|tag]; try discriminate.
      destruct (decs s1 !! w) as [dw|] eqn:Hw; [|discriminate].
      destruct (Decoder_Reset Z (dw_Decoder dw) r) as [d' [e'|]|] eqn:Hr;
        try discriminate.
      intros _. exists w, s1, dw. repeat split; [done|]. exact (Hlaw _ _ _ _ Hr).
    - apply Pool_Get_Panic in Hget as (_ & -> & _). discriminate. }
  split; [intros x s1; apply Pool_Get_Ok|].
  split; [apply DecoderPoolWrapper_Get_run|].
  split; [exact Hclosed|].
  intros Hlaw Hnew Hinv e s' Hpanic.
  destruct (Hclosed Hlaw e s' Hpanic) as (w & s1 & dw & Hget & Hw & Hc).
  apply Pool_Get_Ok in Hget as (sp & Hp & [(i & _ & Hi & ->)|[(f & _ & Hf)|(_ & [=] & _)]]).
  - destruct (Hinv _ _ w Hp) as (dw' & Hw' & Hhealthy & _).
    { eapply list_elem_of_lookup_2, Hi. }
    simpl in Hw. rewrite Hw in Hw'. injection Hw' as ->. congruence.
  - destruct f as [o|o q]; simpl in Hf.
    + rewrite NewEncoderPool_New_run in Hf. discriminate.
    + rewrite NewDecoderPool_New_run in Hf. simpl in Hf.
      injection Hf as <- <-. simpl in Hw. rewrite lookup_insert_eq in Hw.
      injection Hw as <-. simpl in Hc. rewrite Hnew in Hc. discriminate.
Qed.

(** ** Idle decoder wrappers are healthy *)

Lemma pool_inv_ext s s' :
  pools s' = pools s -> decs s' = decs s -> pool_inv s -> pool_inv s'.
Proof.
  intros Hp Hd Hinv p sp w. rewrite Hp, Hd. apply Hinv.
Qed.

Lemma pool_inv_empty : pool_inv (empty_world Z).
Proof. intros p sp w Hp. simpl in Hp. by rewrite lookup_empty in Hp. Qed.

(** Writing a healthy handle into a wrapper. *)
Lemma pool_inv_set_dec s w (c : DecoderWrapper Z) :
  healthy (dw_Decoder c) -> pool_inv s -> pool_inv (set_decs <[w := c]> s).
Proof.
  intros Hc Hinv p sp w0 Hp Hin. simpl in *.
  destruct (decide (w = w0)) as [->|Hne].
  - exists c. by rewrite lookup_insert_eq.
  - rewrite lookup_insert_ne by exact Hne. eapply Hinv; eassumption.
Qed.

(** Writing any handle into a wrapper that is idle nowhere. *)
Lemma pool_inv_set_dec_not_idle s w (c : DecoderWrapper Z) :
  (forall p sp, pools s !! p = Some sp -> DecPtr w ∉ idle sp) ->
  pool_inv s -> pool_inv (set_decs <[w := c]> s).
Proof.
  intros Hnot Hinv p sp w0 Hp Hin. simpl in *.
  destruct (decide (w = w0)) as [->|Hne].
  - exfalso. exact (Hnot _ _ Hp Hin).
  - rewrite lookup_insert_ne by exact Hne. eapply Hinv; eassumption.
Qed.

(** A new wrapper. *)
Lemma pool_inv_alloc_dec s l (c : DecoderWrapper Z) :
  decs s !! l = None -> pool_inv s -> pool_inv (set_decs <[l := c]> s).
Proof.
  intros Hl Hinv. apply pool_inv_set_dec_not_idle; [|exact Hinv].
  intros p sp Hp Hin. destruct (Hinv _ _ _ Hp Hin) as (dw & Hdw & _). congruence.
Qed.

(** Replacing the idle items of a pool by some of them, or by more healthy
    ones. *)
Lemma pool_inv_set_idle s p n l :
  (forall w, DecPtr w ∈ l ->
     exists dw, decs s !! w = Some dw /\ healthy (dw_Decoder dw)) ->
  pool_inv s -> pool_inv (set_pools <[p := {| New := n; idle := l |}]> s).
Proof.
  intros Hl Hinv q sp w Hq Hin. simpl in *.
  destruct (decide (p = q)) as [->|Hne].
  - rewrite lookup_insert_eq in Hq. injection Hq as <-. apply Hl, Hin.
  - rewrite lookup_insert_ne in Hq by exact Hne. eapply Hinv; eassumption.
Qed.

Lemma pool_inv_delete s p sp i :
  pools s !! p = Some sp ->
  pool_inv s ->
  pool_inv (set_pools <[p := {| New := New sp; idle := delete i (idle sp) |}]> s).
Proof.
  intros Hp Hinv. apply pool_inv_set_idle; [|exact Hinv].
  intros w Hin. eapply Hinv; [exact Hp|]. eapply list_elem_of_delete_inv, Hin.
Qed.

(** [Pool_Put] of a wrapper whose handle is healthy. *)
Lemma pool_inv_Pool_Put s P w dw :
  decs s !! w = Some dw -> healthy (dw_Decoder dw) ->
  pool_inv s -> pool_inv (world_of (Pool_Put P (DecPtr w) s)).
Proof.
  intros Hw Hh Hinv.
  destruct (pools s !! P) as [sp|] eqn:Hp.
  - rewrite (Pool_Put_run _ _ sp) by (done || exact Hp). simpl.
    apply pool_inv_set_idle.
    + intros w0 [[= <-]|Hin]%elem_of_cons; [eauto|].
      eapply Hinv; [exact Hp|exact Hin].
    + eapply pool_inv_ext; [| |exact Hinv]; reflexivity.
  - rewrite Pool_Put_nil_pool by (done || exact Hp). simpl.
    eapply pool_inv_ext; [| |exact Hinv]; reflexivity.
Qed.

(** The world after [Reset(nil)] on a wrapper, when the reset is followed by
    a [Put] exactly if it returned no error. *)
Lemma pool_inv_release s w dw P :
  reset_rebinds Z ->
  decs s !! w = Some dw ->
  pool_inv s ->
  pool_inv (world_of
    match Decoder_Reset Z (dw_Decoder dw) None with
    | Returns d' None =>
        Pool_Put P (DecPtr w)
          (set_decs <[w := {| dw_Decoder := d'; dw_pool := dw_pool dw |}]>
             (emit (E_DecoderReset w None) s))
    | Returns d' (Some _) =>
        Ok tt (set_decs <[w := {| dw_Decoder := d'; dw_pool := dw_pool dw |}]>
                 (emit (E_DecoderReset w None) s))
    | Faults => Panic EngineFault (emit (E_DecoderReset w None) s)
    end).
Proof.
  intros Hlaw Hw Hinv.
  assert (Hemit : pool_inv (emit (E_DecoderReset w None) s))
    by (eapply pool_inv_ext; [| |exact Hinv]; reflexivity).
  destruct (Decoder_Reset Z (dw_Decoder dw) None) as [d' [e|]|] eqn:Hr; simpl.
  - apply pool_inv_set_dec_not_idle; [|exact Hemit].
    intros p sp Hp Hin. simpl in Hp.
    destruct (Hinv _ _ _ Hp Hin) as (dw' & Hw' & _ & _ & Hagain).
    rewrite Hw in Hw'. injection Hw' as <-.
    destruct (Hagain None) as [d'' Hr']. congruence.
  - assert (Hh : healthy d') by exact (Hlaw _ _ _ Hr).
    eapply pool_inv_Pool_Put.
    + apply lookup_insert_eq.
    + exact Hh.
    + apply pool_inv_set_dec; [exact Hh|exact Hemit].
  - exact Hemit.
Qed.

Lemma pool_inv_DecoderWrapper_Close s w :
  reset_rebinds Z -> pool_inv s -> pool_inv (world_of (DecoderWrapper_Close w s)).
Proof.
  intros Hlaw Hinv. destruct (decs s !! w) as [dw|] eqn:Hw.
  - rewrite (DecoderWrapper_Close_run _ _ _ Hw). by apply pool_inv_release.
  - rewrite DecoderWrapper_Close_nil by exact Hw. exact Hinv.
Qed.

Lemma pool_inv_DecoderPoolWrapper_Put s (d : DecoderPoolWrapper) w :
  reset_rebinds Z -> pool_inv s -> pool_inv (world_of (DecoderPoolWrapper_Put d w s)).
Proof.
  intros Hlaw Hinv. destruct (decs s !! w) as [dw|] eqn:Hw.
  - rewrite (DecoderPoolWrapper_Put_run _ _ _ _ Hw). by apply pool_inv_release.
  - rewrite DecoderPoolWrapper_Put_nil by exact Hw. exact Hinv.
Qed.

Lemma pool_inv_call_factory s f :
  pool_inv s -> pool_inv (world_of (call_factory f s)).
Proof.
  intros Hinv. destruct f as [o|o q]; cbn [call_factory].
  - rewrite NewEncoderPool_New_run. simpl.
    eapply pool_inv_ext; [| |exact Hinv]; reflexivity.
  - rewrite NewDecoderPool_New_run. simpl.
    eapply (pool_inv_ext (set_decs _ s)); [reflexivity|reflexivity|].
    apply pool_inv_alloc_dec; [apply fresh_dec_unused|exact Hinv].
Qed.

Lemma pool_inv_Pool_New s p :
  pool_inv s -> pool_inv (world_of (Pool_New p s)).
Proof.
  intros Hinv. unfold Pool_New, mbind, M_bind, deref_pool.
  destruct (pools s !! p) as [sp|]; [|exact Hinv].
  destruct (New sp) as [f|]; [|exact Hinv].
  by apply pool_inv_call_factory.
Qed.

Lemma pool_inv_NewDecoderPool s options :
  pool_inv s -> pool_inv (world_of (NewDecoderPool options s)).
Proof.
  intros Hinv. rewrite NewDecoderPool_run. simpl.
  apply pool_inv_set_idle; [|exact Hinv]. intros w Hin. by apply elem_of_nil in Hin.
Qed.

Lemma pool_inv_NewEncoderPool s options :
  pool_inv s -> pool_inv (world_of (NewEncoderPool options s)).
Proof.
  intros Hinv. rewrite NewEncoderPool_run. simpl.
  apply pool_inv_set_idle; [|exact Hinv]. intros w Hin. by apply elem_of_nil in Hin.
Qed.

(** The world of [m;; mret b] is the world of [m]. *)
Lemma world_of_then_ret {A B} (m : M Z A) (b : B) s :
  world_of ((m;; mret b) s) = world_of (m s).
Proof. unfold mbind, M_bind. destruct (m s); reflexivity. Qed.

Lemma world_of_bind_ret {A B} (m : M Z A) (f : A -> B) s :
  world_of ((x ← m; mret (f x)) s) = world_of (m s).
Proof. unfold mbind, M_bind. destruct (m s); reflexivity. Qed.

(** ** Idle items have the type of their pool *)

Lemma is_decoder_pool_spec s p :
  is_decoder_pool s p = true <->
  exists sp options q, pools s !! p = Some sp /\ New sp = Some (NewDecoderFn options q).
Proof.
  unfold is_decoder_pool. split.
  - destruct (pools s !! p) as [[[[o|o q]|] l]|]; try discriminate. eauto.
  - intros (sp & o & q & -> & Hn). destruct sp as [n l]. simpl in Hn. by subst n.
Qed.

Lemma is_encoder_pool_spec s p :
  is_encoder_pool s p = true <->
  exists sp options, pools s !! p = Some sp /\ New sp = Some (NewEncoderFn options).
Proof.
  unfold is_encoder_pool. split.
  - destruct (pools s !! p) as [[[[o|o q]|] l]|]; try discriminate. eauto.
  - intros (sp & o & -> & Hn). destruct sp as [n l]. simpl in Hn. by subst n.
Qed.

(** The invariant looks at the pools and at the pool each decoder wrapper
    refers to, and at nothing else. *)
Lemma typed_inv_shape s s' :
  pools s' = pools s ->
  dw_pool <$> decs s' = dw_pool <$> decs s ->
  typed_inv s -> typed_inv s'.
Proof.
  intros Hp Hd (Ht & Hw & Hf).
  assert (Hk : forall q, is_decoder_pool s' q = is_decoder_pool s q)
    by (intros q; unfold is_decoder_pool; by rewrite Hp).
  split; [|split].
  - intros p sp. rewrite Hp. apply Ht.
  - intros w dw Hdw. rewrite Hk.
    assert (Hl : (dw_pool <$> decs s) !! w = Some (dw_pool dw))
      by (rewrite <- Hd, lookup_fmap, Hdw; reflexivity).
    rewrite lookup_fmap in Hl.
    destruct (decs s !! w) as [dw0|] eqn:Hdw0; [|discriminate].
    injection Hl as <-. by apply Hw with w.
  - intros p sp o q. rewrite Hp, Hk. apply Hf.
Qed.

(** Writing a handle into an existing wrapper keeps the shape. *)
Lemma set_dec_handle_shape s w dw d' :
  decs s !! w = Some dw ->
  dw_pool <$> <[w := {| dw_Decoder := d'; dw_pool := dw_pool dw |}]> (decs s) =
  dw_pool <$> decs s.
Proof.
  intros Hw. rewrite fmap_insert. apply insert_id.
  by rewrite lookup_fmap, Hw.
Qed.

Lemma decoder_Reset_shape s w r :
  pools (world_of (decoder_Reset w r s)) = pools s /\
  dw_pool <$> decs (world_of (decoder_Reset w r s)) = dw_pool <$> decs s.
Proof.
  destruct (decs s !! w) as [dw|] eqn:Hw.
  - rewrite (decoder_Reset_run _ _ _ _ Hw).
    destruct (Decoder_Reset Z (dw_Decoder dw) r) as [d' err|]; simpl; [|done].
    split; [done|]. by apply set_dec_handle_shape.
  - rewrite decoder_Reset_nil by exact Hw. done.
Qed.

Lemma decoder_Close_nil s w :
  decs s !! w = None -> decoder_Close w s = Panic NilDeref s.
Proof. intros Hw. unfold_M. rewrite Hw. reflexivity. Qed.

Lemma encoder_Close_nil s w :
  encs s !! w = None -> encoder_Close w s = Panic NilDeref s.
Proof. intros Hw. unfold_M. rewrite Hw. reflexivity. Qed.

Lemma decoder_Close_shape s w :
  pools (world_of (decoder_Close w s)) = pools s /\
  dw_pool <$> decs (world_of (decoder_Close w s)) = dw_pool <$> decs s.
Proof.
  destruct (decs s !! w) as [dw|] eqn:Hw.
  - rewrite (decoder_Close_run _ _ _ Hw).
    destruct (Decoder_Close Z (dw_Decoder dw)) as [d' err|]; simpl; [|done].
    split; [done|]. by apply set_dec_handle_shape.
  - rewrite decoder_Close_nil by exact Hw. done.
Qed.

Lemma encoder_Reset_shape s w t :
  pools (world_of (encoder_Reset w t s)) = pools s /\
  decs (world_of (encoder_Reset w t s)) = decs s.
Proof.
  destruct (encs s !! w) as [ew|] eqn:Hw.
  - rewrite (encoder_Reset_run _ _ ew) by exact Hw.
    destruct (Encoder_Reset Z (ew_Encoder ew) t) as [e' err|]; done.
  - rewrite encoder_Reset_nil by exact Hw. done.
Qed.

Lemma encoder_Close_shape s w :
  pools (world_of (encoder_Close w s)) = pools s /\
  decs (world_of (encoder_Close w s)) = decs s.
Proof.
  destruct (encs s !! w) as [ew|] eqn:Hw.
  - rewrite (encoder_Close_run _ _ ew) by exact Hw.
    destruct (Encoder_Close Z (ew_Encoder ew)) as [e' err|]; done.
  - rewrite encoder_Close_nil by exact Hw. done.
Qed.

Lemma typed_inv_decoder_Reset s w r :
  typed_inv s -> typed_inv (world_of (decoder_Reset w r s)).
Proof.
  destruct (decoder_Reset_shape s w r) as [Hp Hd]. by apply typed_inv_shape.
Qed.

Lemma typed_inv_decoder_Close s w :
  typed_inv s -> typed_inv (world_of (decoder_Close w s)).
Proof.
  destruct (decoder_Close_shape s w) as [Hp Hd]. by apply typed_inv_shape.
Qed.

Lemma typed_inv_encoder_Reset s w t :
  typed_inv s -> typed_inv (world_of (encoder_Reset w t s)).
Proof.
  destruct (encoder_Reset_shape s w t) as [Hp Hd].
  apply typed_inv_shape; [done|by rewrite Hd].
Qed.

Lemma typed_inv_encoder_Close s w :
  typed_inv s -> typed_inv (world_of (encoder_Close w s)).
Proof.
  destruct (encoder_Close_shape s w) as [Hp Hd].
  apply typed_inv_shape; [done|by rewrite Hd].
Qed.

(** A property of worlds kept by [m] and by every continuation is kept by
    [m ≫= k]. *)
Lemma world_of_bind_inv (I : World Z -> Prop) {A B} (m : M Z A) (k : A -> M Z B) s :
  I (world_of (m s)) ->
  (forall a s1, I s1 -> I (world_of (k a s1))) ->
  I (world_of ((m ≫= k) s)).
Proof.
  intros Hm Hk. unfold mbind, M_bind.
  destruct (m s) as [a s1|v s1]; [by apply Hk|exact Hm].
Qed.

Lemma forallb_delete {A} (f : A -> bool) (l : list A) i :
  forallb f l = true -> forallb f (delete i l) = true.
Proof.
  revert i. induction l as [|x l IH]; intros [|i]; simpl; try done.
  - by intros [_ ?]%andb_prop.
  - intros [Hx Hl]%andb_prop. rewrite Hx. simpl. by apply IH.
Qed.

Lemma is_decoder_pool_set_idle s p sp l q :
  pools s !! p = Some sp ->
  is_decoder_pool (set_pools <[p := {| New := New sp; idle := l |}]> s) q =
  is_decoder_pool s q.
Proof.
  intros Hp. unfold is_decoder_pool. simpl.
  destruct (decide (p = q)) as [->|Hne].
  - rewrite lookup_insert_eq, Hp. by destruct sp as [[[o|o r]|] l0].
  - by rewrite lookup_insert_ne.
Qed.

(** Changing the idle items of a pool to a well-typed list. *)
Lemma typed_inv_set_idle s p sp l :
  pools s !! p = Some sp ->
  pool_typed {| New := New sp; idle := l |} = true ->
  typed_inv s ->
  typed_inv (set_pools <[p := {| New := New sp; idle := l |}]> s).
Proof.
  intros Hp Hl (Ht & Hw & Hf). split; [|split].
  - intros q sq Hq. simpl in Hq.
    destruct (decide (p = q)) as [->|Hne].
    + rewrite lookup_insert_eq in Hq. by injection Hq as <-.
    + rewrite lookup_insert_ne in Hq by exact Hne. by apply Ht with q.
  - intros w dw Hdw. rewrite (is_decoder_pool_set_idle _ _ sp) by exact Hp.
    by apply Hw with w.
  - intros q sq o r Hq Hn. rewrite (is_decoder_pool_set_idle _ _ sp) by exact Hp.
    simpl in Hq. destruct (decide (p = q)) as [->|Hne].
    + rewrite lookup_insert_eq in Hq. injection Hq as <-. simpl in Hn.
      by apply Hf with q sp o.
    + rewrite lookup_insert_ne in Hq by exact Hne. by apply Hf with q sq o.
Qed.

Lemma typed_inv_emit s e : typed_inv s -> typed_inv (emit e s).
Proof. by apply typed_inv_shape. Qed.

Lemma typed_inv_Pool_Put_dec s P w :
  is_decoder_pool s P = true ->
  typed_inv s -> typed_inv (world_of (Pool_Put P (DecPtr w) s)).
Proof.
  intros (sp & o & q & Hp & Hn)%is_decoder_pool_spec Hinv.
  rewrite (Pool_Put_run _ _ sp) by (done || exact Hp). simpl.
  apply (typed_inv_set_idle (emit _ s)); [exact Hp| |by apply typed_inv_emit].
  destruct Hinv as (Ht & _). specialize (Ht _ _ Hp).
  unfold pool_typed in *. simpl. rewrite Hn in *. simpl. exact Ht.
Qed.

Lemma typed_inv_Pool_Put_enc s P w :
  is_encoder_pool s P = true ->
  typed_inv s -> typed_inv (world_of (Pool_Put P (EncPtr w) s)).
Proof.
  intros (sp & o & Hp & Hn)%is_encoder_pool_spec Hinv.
  rewrite (Pool_Put_run _ _ sp) by (done || exact Hp). simpl.
  apply (typed_inv_set_idle (emit _ s)); [exact Hp| |by apply typed_inv_emit].
  destruct Hinv as (Ht & _). specialize (Ht _ _ Hp).
  unfold pool_typed in *. simpl. rewrite Hn in *. simpl. exact Ht.
Qed.

Lemma typed_inv_delete s p sp i :
  pools s !! p = Some sp ->
  typed_inv s ->
  typed_inv (set_pools <[p := {| New := New sp; idle := delete i (idle sp) |}]> s).
Proof.
  intros Hp Hinv. apply typed_inv_set_idle; [exact Hp| |exact Hinv].
  destruct Hinv as (Ht & _). specialize (Ht _ _ Hp).
  unfold pool_typed in *. simpl.
  destruct (New sp) as [[o|o q]|]; [| |done]; by apply forallb_delete.
Qed.

Lemma typed_inv_Pool_drop s p i :
  typed_inv s -> typed_inv (world_of (Pool_drop p i s)).
Proof.
  intros Hinv. unfold Pool_drop, mbind, M_bind, deref_pool, modify.
  destruct (pools s !! p) as [sp|] eqn:Hp; [|exact Hinv].
  simpl. by apply typed_inv_delete.
Qed.

(** A new decoder wrapper that refers to a decoder pool. *)
Lemma typed_inv_alloc_dec s l (c : DecoderWrapper Z) :
  is_decoder_pool s (dw_pool c) = true ->
  typed_inv s -> typed_inv (set_decs <[l := c]> s).
Proof.
  intros Hc (Ht & Hw & Hf). split; [exact Ht|split; [|exact Hf]].
  intros w dw Hdw. simpl in Hdw.
  change (is_decoder_pool s (dw_pool dw) = true).
  destruct (decide (l = w)) as [->|Hne].
  - rewrite lookup_insert_eq in Hdw. by injection Hdw as <-.
  - rewrite lookup_insert_ne in Hdw by exact Hne. by apply Hw with w.
Qed.

Lemma typed_inv_call_factory s f p sp :
  pools s !! p = Some sp -> New sp = Some f ->
  typed_inv s -> typed_inv (world_of (call_factory f s)).
Proof.
  intros Hp Hn Hinv. destruct f as [o|o q]; cbn [call_factory].
  - rewrite NewEncoderPool_New_run. simpl. revert Hinv. by apply typed_inv_shape.
  - rewrite NewDecoderPool_New_run. simpl.
    apply (typed_inv_shape (set_decs <[fresh (dom (decs s)) :=
             {| dw_Decoder := fst (NewReader Z None o); dw_pool := q |}]> s));
      [reflexivity|reflexivity|].
    apply typed_inv_alloc_dec; [|exact Hinv].
    destruct Hinv as (_ & _ & Hf). by apply Hf with p sp o.
Qed.

Lemma typed_inv_Pool_Get s p pick :
  typed_inv s -> typed_inv (world_of (Pool_Get p pick s)).
Proof.
  intros Hinv. destruct (Pool_Get p pick s) as [x s1|v s1] eqn:Hget.
  - apply Pool_Get_Ok in Hget
      as (sp & Hp & [(i & _ & _ & ->)|[(f & Hn & Hf)|(_ & _ & ->)]]); simpl.
    + apply (typed_inv_delete (emit _ s)); [exact Hp|by apply typed_inv_emit].
    + change s1 with (world_of (Ok (Z := Z) x s1)). rewrite <- Hf.
      apply (typed_inv_call_factory _ _ p sp); [exact Hp|exact Hn|].
      by apply typed_inv_emit.
    + by apply typed_inv_emit.
  - by apply Pool_Get_Panic in Hget as (_ & _ & ->).
Qed.

Lemma typed_inv_Pool_New s p :
  typed_inv s -> typed_inv (world_of (Pool_New p s)).
Proof.
  intros Hinv. unfold Pool_New, mbind, M_bind, deref_pool.
  destruct (pools s !! p) as [sp|] eqn:Hp; [|exact Hinv].
  destruct (New sp) as [f|] eqn:Hn; [|exact Hinv].
  by apply (typed_inv_call_factory _ _ p sp).
Qed.

Lemma typed_inv_empty : typed_inv (empty_world Z).
Proof.
  split; [|split].
  - intros p sp Hp. simpl in Hp. by rewrite lookup_empty in Hp.
  - intros w dw Hw. simpl in Hw. by rewrite lookup_empty in Hw.
  - intros p sp o q Hp. simpl in Hp. by rewrite lookup_empty in Hp.
Qed.

Lemma is_decoder_pool_fresh s p sp q :
  pools s !! p = None ->
  is_decoder_pool s q = true ->
  is_decoder_pool (set_pools <[p := sp]> s) q = true.
Proof.
  intros Hp Hq. unfold is_decoder_pool in *. simpl.
  destruct (decide (p = q)) as [->|Hne].
  - by rewrite Hp in Hq.
  - by rewrite lookup_insert_ne.
Qed.

(** A new, empty pool whose construction function, when it makes decoder
    wrappers, makes them refer to this pool. *)
Lemma typed_inv_new_pool s p f :
  pools s !! p = None ->
  (forall o q, f = NewDecoderFn o q -> q = p) ->
  typed_inv s ->
  typed_inv (set_pools <[p := {| New := Some f; idle := [] |}]> s).
Proof.
  intros Hp Hself (Ht & Hw & Hf). split; [|split].
  - intros q sq Hq. simpl in Hq.
    destruct (decide (p = q)) as [->|Hne].
    + rewrite lookup_insert_eq in Hq. injection Hq as <-.
      unfold pool_typed. simpl. by destruct f.
    + rewrite lookup_insert_ne in Hq by exact Hne. by apply Ht with q.
  - intros w dw Hdw. apply is_decoder_pool_fresh; [exact Hp|]. by apply Hw with w.
  - intros q sq o r Hq Hn. simpl in Hq.
    destruct (decide (p = q)) as [->|Hne].
    + rewrite lookup_insert_eq in Hq. injection Hq as <-. simpl in Hn.
      injection Hn as ->. rewrite (Hself o r eq_refl).
      unfold is_decoder_pool. simpl. by rewrite lookup_insert_eq.
    + rewrite lookup_insert_ne in Hq by exact Hne.
      apply is_decoder_pool_fresh; [exact Hp|]. by apply Hf with q sq o.
Qed.

Lemma typed_inv_NewDecoderPool s options :
  typed_inv s -> typed_inv (world_of (NewDecoderPool options s)).
Proof.
  intros Hinv. rewrite NewDecoderPool_run. simpl.
  apply typed_inv_new_pool; [apply fresh_pool_unused| |exact Hinv].
  by intros o q [= _ ->].
Qed.

Lemma typed_inv_NewEncoderPool s options :
  typed_inv s -> typed_inv (world_of (NewEncoderPool options s)).
Proof.
  intros Hinv. rewrite NewEncoderPool_run. simpl.
  apply typed_inv_new_pool; [apply fresh_pool_unused| |exact Hinv].
  intros o q. discriminate.
Qed.

Lemma typed_inv_DecoderPoolWrapper_Get s (d : DecoderPoolWrapper) pick r :
  typed_inv s -> typed_inv (world_of (DecoderPoolWrapper_Get d pick r s)).
Proof.
  intros Hinv. unfold DecoderPoolWrapper_Get.
  apply world_of_bind_inv; [by apply typed_inv_Pool_Get|].
  intros x s1 H1. apply world_of_bind_inv; [by destruct x|].
  intros w s2 H2. apply world_of_bind_inv; [by apply typed_inv_decoder_Reset|].
  intros [e|] s3 H3; exact H3.
Qed.

Lemma typed_inv_EncoderPoolWrapper_Get s (e : EncoderPoolWrapper) pick t :
  typed_inv s -> typed_inv (world_of (EncoderPoolWrapper_Get e pick t s)).
Proof.
  intros Hinv. unfold EncoderPoolWrapper_Get.
  apply world_of_bind_inv; [by apply typed_inv_Pool_Get|].
  intros x s1 H1. apply world_of_bind_inv; [by destruct x|].
  intros w s2 H2. apply world_of_bind_inv; [by apply typed_inv_encoder_Reset|].
  intros _ s3 H3; exact H3.
Qed.

(** Being a decoder (encoder) pool is a matter of the pools alone. *)
Lemma is_decoder_pool_ext s s' p :
  pools s' = pools s -> is_decoder_pool s' p = is_decoder_pool s p.
Proof. intros Hp. unfold is_decoder_pool. by rewrite Hp. Qed.

Lemma is_encoder_pool_ext s s' p :
  pools s' = pools s -> is_encoder_pool s' p = is_encoder_pool s p.
Proof. intros Hp. unfold is_encoder_pool. by rewrite Hp. Qed.

Lemma typed_inv_DecoderPoolWrapper_Put s (d : DecoderPoolWrapper) w :
  is_decoder_pool s (dpw_pool d) = true ->
  typed_inv s -> typed_inv (world_of (DecoderPoolWrapper_Put d w s)).
Proof.
  intros Hd Hinv. unfold DecoderPoolWrapper_Put, mbind, M_bind.
  pose proof (typed_inv_decoder_Reset s w None Hinv) as H1.
  destruct (decoder_Reset_shape s w None) as [Hp _].
  destruct (decoder_Reset w None s) as [[e|] s1|v s1]; simpl in *; try exact H1.
  apply typed_inv_Pool_Put_dec; [|exact H1].
  by rewrite (is_decoder_pool_ext s s1).
Qed.

Lemma typed_inv_DecoderWrapper_Close s w :
  typed_inv s -> typed_inv (world_of (DecoderWrapper_Close w s)).
Proof.
  intros Hinv. unfold DecoderWrapper_Close, mbind, M_bind.
  pose proof (typed_inv_decoder_Reset s w None Hinv) as H1.
  destruct (decoder_Reset w None s) as [[e|] s1|v s1]; simpl in *; try exact H1.
  unfold deref_dec. destruct (decs s1 !! w) as [dw|] eqn:Hw; [|exact H1].
  apply typed_inv_Pool_Put_dec; [|exact H1].
  destruct H1 as (_ & Hknow & _). by apply Hknow with w.
Qed.

Lemma typed_inv_EncoderPoolWrapper_Put s (e : EncoderPoolWrapper) w :
  is_encoder_pool s (epw_pool e) = true ->
  typed_inv s -> typed_inv (world_of (EncoderPoolWrapper_Put e w s)).
Proof.
  intros He Hinv. unfold EncoderPoolWrapper_Put, mbind, M_bind.
  pose proof (typed_inv_encoder_Reset s w None Hinv) as H1.
  destruct (encoder_Reset_shape s w None) as [Hp _].
  destruct (encoder_Reset w None s) as [[] s1|v s1]; simpl in *; try exact H1.
  apply typed_inv_Pool_Put_enc; [|exact H1].
  by rewrite (is_encoder_pool_ext s s1).
Qed.

Lemma typed_inv_run_finalizer s x :
  typed_inv s -> typed_inv (world_of (run_finalizer x s)).
Proof.
  intros Hinv. unfold run_finalizer. destruct x as [|w|w|tag]; try exact Hinv.
  - destruct (enc_fins s !! w) as [[]|]; [|exact Hinv]. cbn [enc_finalizer_body].
    unfold NewEncoderPool_finalizer. rewrite world_of_then_ret.
    apply typed_inv_encoder_Close. revert Hinv. by apply typed_inv_shape.
  - destruct (dec_fins s !! w) as [[]|]; [|exact Hinv]. cbn [dec_finalizer_body].
    unfold NewDecoderPool_finalizer.
    apply typed_inv_decoder_Close. revert Hinv. by apply typed_inv_shape.
Qed.

(** One admissible step keeps the invariant. *)
Lemma typed_inv_exec s (o : op Z) :
  usage_ok o s = true -> typed_inv s -> typed_inv (exec o s).
Proof.
  intros Hok Hinv. unfold exec.
  destruct o; cbn [run_op usage_ok] in *; rewrite ?world_of_then_ret.
  - unfold NewDecoderPoolWrapper. rewrite world_of_bind_ret.
    by apply typed_inv_NewDecoderPool.
  - unfold NewEncoderPoolWrapper. rewrite world_of_bind_ret.
    by apply typed_inv_NewEncoderPool.
  - by apply typed_inv_Pool_New.
  - by apply typed_inv_DecoderPoolWrapper_Get.
  - by apply typed_inv_DecoderPoolWrapper_Put.
  - by apply typed_inv_DecoderWrapper_Close.
  - unfold decoderReadCloser_Close. rewrite world_of_then_ret.
    by apply typed_inv_DecoderWrapper_Close.
  - by apply typed_inv_EncoderPoolWrapper_Get.
  - by apply typed_inv_EncoderPoolWrapper_Put.
  - by apply typed_inv_decoder_Reset.
  - by apply typed_inv_encoder_Reset.
  - by apply typed_inv_decoder_Close.
  - by apply typed_inv_encoder_Close.
  - by apply typed_inv_run_finalizer.
  - by apply typed_inv_Pool_drop.
  - by apply typed_inv_Pool_Get.
  - discriminate.
Qed.

Lemma typed_inv_exec_all (tr : list (op Z)) s :
  admissible usage_ok tr s = true -> typed_inv s -> typed_inv (exec_all tr s).
Proof.
  revert s. induction tr as [|o tr IH]; intros s Hadm Hinv; [exact Hinv|].
  simpl in Hadm. apply andb_prop in Hadm as [Hok Hadm].
  simpl. apply IH; [exact Hadm|]. by apply typed_inv_exec.
Qed.

Lemma forallb_lookup {A} (f : A -> bool) (l : list A) i x :
  forallb f l = true -> l !! i = Some x -> f x = true.
Proof.
  revert i. induction l as [|y l IH]; intros [|i]; simpl; try done.
  - by intros [? _]%andb_prop [= <-].
  - intros [_ ?]%andb_prop. by apply IH.
Qed.

(** In a well-typed world, a decoder pool hands out [*DecoderWrapper]s and
    an encoder pool [*EncoderWrapper]s. *)
Lemma Pool_Get_decoder s p pick x s1 :
  typed_inv s -> is_decoder_pool s p = true ->
  Pool_Get p pick s = Ok x s1 -> exists w, x = DecPtr w.
Proof.
  intros (Ht & _) (sp & o & q & Hp & Hn)%is_decoder_pool_spec Hget.
  apply Pool_Get_Ok in Hget
    as (sp' & Hp' & [(i & _ & Hi & _)|[(f & Hn' & Hf)|(Hn' & _)]]);
    rewrite Hp in Hp'; injection Hp' as <-.
  - specialize (Ht _ _ Hp). unfold pool_typed in Ht. rewrite Hn in Ht.
    pose proof (forallb_lookup _ _ _ _ Ht Hi) as Hx.
    destruct x; try discriminate. eauto.
  - rewrite Hn in Hn'. injection Hn' as <-. cbn [call_factory] in Hf.
    rewrite NewDecoderPool_New_run in Hf. injection Hf as <- _. eauto.
  - congruence.
Qed.

Lemma Pool_Get_encoder s p pick x s1 :
  typed_inv s -> is_encoder_pool s p = true ->
  Pool_Get p pick s = Ok x s1 -> exists w, x = EncPtr w.
Proof.
  intros (Ht & _) (sp & o & Hp & Hn)%is_encoder_pool_spec Hget.
  apply Pool_Get_Ok in Hget
    as (sp' & Hp' & [(i & _ & Hi & _)|[(f & Hn' & Hf)|(Hn' & _)]]);
    rewrite Hp in Hp'; injection Hp' as <-.
  - specialize (Ht _ _ Hp). unfold pool_typed in Ht. rewrite Hn in Ht.
    pose proof (forallb_lookup _ _ _ _ Ht Hi) as Hx.
    destruct x; try discriminate. eauto.
  - rewrite Hn in Hn'. injection Hn' as <-. cbn [call_factory] in Hf.
    rewrite NewEncoderPool_New_run in Hf. injection Hf as <- _. eauto.
  - congruence.
Qed.

Lemma encoder_Reset_Panic s w t v s' :
  encoder_Reset w t s = Panic v s' -> v = NilDeref \/ v = EngineFault.
Proof.
  destruct (encs s !! w) as [ew|] eqn:Hw.
  - rewrite (encoder_Reset_run _ _ ew) by exact Hw.
    destruct (Encoder_Reset Z (ew_Encoder ew) t); [discriminate|].
    intros [= <- _]. by right.
  - rewrite encoder_Reset_nil by exact Hw. intros [= <- _]. by left.
Qed.

(** C9. Take any sequence of steps from the empty world in which no item is
    put in a pool directly and each facade is used on a pool of its own
    kind.  Afterwards the idle items of a decoder pool are
    [*DecoderWrapper]s and those of an encoder pool are [*EncoderWrapper]s,
    and the type assertion in [DecoderPoolWrapper.Get] and in
    [EncoderPoolWrapper.Get] does not fail. *)
Theorem type_assertion_never_fails (tr : list (op Z)) :
  admissible usage_ok tr (empty_world Z) = true ->
  let s := exec_all tr (empty_world Z) in
  (forall p sp x, pools s !! p = Some sp -> x ∈ idle sp ->
     (is_decoder_pool s p = true -> exists w, x = DecPtr w) /\
     (is_encoder_pool s p = true -> exists w, x = EncPtr w)) /\
  (forall (d : DecoderPoolWrapper) pick r x s',
     is_decoder_pool s (dpw_pool d) = true ->
     DecoderPoolWrapper_Get d pick r s <> Panic (AssertFailed x) s') /\
  (forall (e : EncoderPoolWrapper) pick t x s',
     is_encoder_pool s (epw_pool e) = true ->
     EncoderPoolWrapper_Get e pick t s <> Panic (AssertFailed x) s').
Proof.
  intros Hadm s.
  assert (Hinv : typed_inv s)
    by (apply typed_inv_exec_all; [exact Hadm|apply typed_inv_empty]).
  clearbody s. split; [|split].
  - intros p sp x Hp [i Hi]%list_elem_of_lookup_1.
    destruct Hinv as (Ht & _). specialize (Ht _ _ Hp). unfold pool_typed in Ht.
    split.
    + intros (sp' & o & q & Hp' & Hn)%is_decoder_pool_spec.
      rewrite Hp in Hp'. injection Hp' as <-. rewrite Hn in Ht.
      pose proof (forallb_lookup _ _ _ _ Ht Hi). destruct x; try discriminate. eauto.
    + intros (sp' & o & Hp' & Hn)%is_encoder_pool_spec.
      rewrite Hp in Hp'. injection Hp' as <-. rewrite Hn in Ht.
      pose proof (forallb_lookup _ _ _ _ Ht Hi). destruct x; try discriminate. eauto.
  - intros d pick r x s' Hd. rewrite DecoderPoolWrapper_Get_run.
    destruct (Pool_Get (dpw_pool d) pick s) as [y s1|v s1] eqn:Hget.
    + destruct (Pool_Get_decoder _ _ _ _ _ Hinv Hd Hget) as [w ->].
      destruct (decs s1 !! w) as [dw|]; [|discriminate].
      destruct (Decoder_Reset Z (dw_Decoder dw) r) as [d' [e|]|]; discriminate.
    + apply Pool_Get_Panic in Hget as (_ & -> & _). discriminate.
  - intros e pick t x s' He. unfold EncoderPoolWrapper_Get, mbind, M_bind.
    destruct (Pool_Get (epw_pool e) pick s) as [y s1|v s1] eqn:Hget.
    + destruct (Pool_Get_encoder _ _ _ _ _ Hinv He Hget) as [w ->]. simpl.
      destruct (encoder_Reset w t s1) as [[] s2|v s2] eqn:Hr; [discriminate|].
      apply encoder_Reset_Panic in Hr as [->| ->]; discriminate.
    + apply Pool_Get_Panic in Hget as (_ & -> & _). discriminate.
Qed.

(** ** Exclusive ownership *)

Lemma occurrences_not_in x (l : list iface) : x ∉ l -> occurrences x l = 0.
Proof.
  induction l as [|y l IH]; [done|].
  intros [Hne Hl]%not_elem_of_cons. simpl.
  rewrite decide_False by exact Hne. by rewrite IH.
Qed.

Lemma occurrences_in x (l : list iface) : x ∈ l -> 1 <= occurrences x l.
Proof.
  induction l as [|y l IH]; [by intros ?%elem_of_nil|].
  intros [->|Hl]%elem_of_cons; simpl.
  - rewrite decide_True by reflexivity. lia.
  - specialize (IH Hl). lia.
Qed.

Lemma occurrences_delete_le x (l : list iface) i :
  occurrences x (delete i l) <= occurrences x l.
Proof.
  revert i. induction l as [|y l IH]; intros [|i]; simpl; try lia.
  specialize (IH i). lia.
Qed.

Lemma occurrences_delete_hit x (l : list iface) i :
  l !! i = Some x -> S (occurrences x (delete i l)) = occurrences x l.
Proof.
  revert i. induction l as [|y l IH]; intros [|i]; simpl; try done.
  - intros [= ->]. by rewrite decide_True.
  - intros Hi. rewrite <- (IH i Hi). lia.
Qed.

Lemma not_idle_spec s w : not_idle s w = true <-> idle_nowhere s w.
Proof. unfold not_idle. by rewrite bool_decide_eq_true. Qed.

Lemma idle_nowhere_ext s s' w :
  pools s' = pools s -> idle_nowhere s w -> idle_nowhere s' w.
Proof. intros Hp Hw p sp. rewrite Hp. apply Hw. Qed.

Lemma idle_once_ext s s' : pools s' = pools s -> idle_once s -> idle_once s'.
Proof.
  intros Hp [H1 H2]. split.
  - intros p sp w. rewrite Hp. apply H1.
  - intros p1 p2 sp1 sp2 w. rewrite Hp. apply H2.
Qed.

Lemma own_inv_ext s s' :
  pools s' = pools s -> decs s' = decs s -> own_inv s -> own_inv s'.
Proof.
  intros Hp Hd [Hinv Honce]. split.
  - by apply (pool_inv_ext s).
  - by apply (idle_once_ext s).
Qed.

Lemma own_inv_empty : own_inv (empty_world Z).
Proof.
  split; [apply pool_inv_empty|].
  split.
  - intros p sp w Hp. simpl in Hp. by rewrite lookup_empty in Hp.
  - intros p1 p2 sp1 sp2 w _ Hp. simpl in Hp. by rewrite lookup_empty in Hp.
Qed.

(** Replacing the idle items of a pool by a list in which no decoder wrapper
    occurs twice and whose decoder wrappers were idle in this pool or idle
    nowhere. *)
Lemma idle_once_set_idle s p sp l :
  pools s !! p = Some sp ->
  (forall w, occurrences (DecPtr w) l <= 1) ->
  (forall w, DecPtr w ∈ l -> DecPtr w ∈ idle sp \/ idle_nowhere s w) ->
  idle_once s ->
  idle_once (set_pools <[p := {| New := New sp; idle := l |}]> s).
Proof.
  intros Hp Hocc Hfrom [H1 H2]. split.
  - intros q sq w Hq. simpl in Hq.
    destruct (decide (p = q)) as [->|Hne].
    + rewrite lookup_insert_eq in Hq. injection Hq as <-. apply Hocc.
    + rewrite lookup_insert_ne in Hq by exact Hne. by apply H1 with q.
  - intros p1 p2 sp1 sp2 w Hne Hp1 Hp2 Hin1 Hin2. simpl in Hp1, Hp2.
    destruct (decide (p = p1)) as [->|Hne1].
    + rewrite lookup_insert_eq in Hp1. injection Hp1 as <-. simpl in Hin1.
      rewrite lookup_insert_ne in Hp2 by exact Hne.
      destruct (Hfrom w Hin1) as [Hold|Hnow].
      * exact (H2 _ _ _ _ w Hne Hp Hp2 Hold Hin2).
      * exact (Hnow _ _ Hp2 Hin2).
    + rewrite lookup_insert_ne in Hp1 by exact Hne1.
      destruct (decide (p = p2)) as [->|Hne2].
      * rewrite lookup_insert_eq in Hp2. injection Hp2 as <-. simpl in Hin2.
        destruct (Hfrom w Hin2) as [Hold|Hnow].
        -- exact (H2 _ _ _ _ w Hne Hp1 Hp Hin1 Hold).
        -- exact (Hnow _ _ Hp1 Hin1).
      * rewrite lookup_insert_ne in Hp2 by exact Hne2.
        exact (H2 _ _ _ _ w Hne Hp1 Hp2 Hin1 Hin2).
Qed.

Lemma own_inv_delete s p sp i :
  pools s !! p = Some sp ->
  own_inv s ->
  own_inv (set_pools <[p := {| New := New sp; idle := delete i (idle sp) |}]> s).
Proof.
  intros Hp [Hinv Honce]. split; [by apply pool_inv_delete|].
  apply idle_once_set_idle; [exact Hp| | |exact Honce].
  - intros w. etrans; [apply occurrences_delete_le|]. by apply (proj1 Honce) with p.
  - intros w Hin. left. eapply list_elem_of_delete_inv, Hin.
Qed.

(** The wrapper that was taken out of a pool is idle nowhere. *)
Lemma idle_nowhere_after_delete s p sp i w :
  pools s !! p = Some sp ->
  idle sp !! i = Some (DecPtr w) ->
  idle_once s ->
  idle_nowhere
    (set_pools <[p := {| New := New sp; idle := delete i (idle sp) |}]> s) w.
Proof.
  intros Hp Hi [H1 H2] q sq Hq Hin. simpl in Hq.
  destruct (decide (p = q)) as [->|Hne].
  - rewrite lookup_insert_eq in Hq. injection Hq as <-. simpl in Hin.
    apply occurrences_in in Hin.
    pose proof (occurrences_delete_hit _ _ _ Hi) as Hhit.
    specialize (H1 _ _ w Hp). lia.
  - rewrite lookup_insert_ne in Hq by exact Hne.
    refine (H2 _ _ _ _ w Hne Hp Hq _ Hin). eapply list_elem_of_lookup_2, Hi.
Qed.

(** Putting something that is not a decoder wrapper. *)
Lemma own_inv_cons_other s p sp x :
  pools s !! p = Some sp ->
  is_dec_item x = false ->
  own_inv s ->
  own_inv (set_pools <[p := {| New := New sp; idle := x :: idle sp |}]> s).
Proof.
  intros Hp Hx [Hinv Honce]. split.
  - apply pool_inv_set_idle; [|exact Hinv].
    intros w [<-|Hin]%elem_of_cons; [discriminate|]. by apply Hinv with p sp.
  - apply idle_once_set_idle; [exact Hp| | |exact Honce].
    + intros w. simpl. rewrite decide_False by (intros <-; discriminate).
      by apply (proj1 Honce) with p.
    + intros w [<-|Hin]%elem_of_cons; [discriminate|]. by left.
Qed.

(** Putting a decoder wrapper that is idle nowhere and whose handle is
    healthy. *)
Lemma own_inv_cons_dec s p sp w dw :
  pools s !! p = Some sp ->
  idle_nowhere s w ->
  decs s !! w = Some dw -> healthy (dw_Decoder dw) ->
  own_inv s ->
  own_inv (set_pools <[p := {| New := New sp; idle := DecPtr w :: idle sp |}]> s).
Proof.
  intros Hp Hnow Hw Hh [Hinv Honce]. split.
  - apply pool_inv_set_idle; [|exact Hinv].
    intros w0 [[= ->]|Hin]%elem_of_cons; [eauto|]. by apply Hinv with p sp.
  - apply idle_once_set_idle; [exact Hp| | |exact Honce].
    + intros w0. simpl. destruct (decide (DecPtr w0 = DecPtr w)) as [[= ->]|Hne].
      * rewrite occurrences_not_in by exact (Hnow _ _ Hp). lia.
      * by apply (proj1 Honce) with p.
    + intros w0 [[= ->]|Hin]%elem_of_cons; [by right|by left].
Qed.

Lemma own_inv_new_pool s p n :
  pools s !! p = None ->
  own_inv s -> own_inv (set_pools <[p := {| New := n; idle := [] |}]> s).
Proof.
  intros Hp [Hinv [H1 H2]]. split.
  - apply pool_inv_set_idle; [|exact Hinv]. by intros w Hin%elem_of_nil.
  - split.
    + intros q sq w Hq. simpl in Hq.
      destruct (decide (p = q)) as [->|Hne].
      * rewrite lookup_insert_eq in Hq. injection Hq as <-. simpl. lia.
      * rewrite lookup_insert_ne in Hq by exact Hne. by apply H1 with q.
    + intros p1 p2 sp1 sp2 w Hne Hp1 Hp2 Hin1 Hin2. simpl in Hp1, Hp2.
      destruct (decide (p = p1)) as [->|Hne1].
      * rewrite lookup_insert_eq in Hp1. injection Hp1 as <-.
        by apply elem_of_nil in Hin1.
      * rewrite lookup_insert_ne in Hp1 by exact Hne1.
        destruct (decide (p = p2)) as [->|Hne2].
        -- rewrite lookup_insert_eq in Hp2. injection Hp2 as <-.
           by apply elem_of_nil in Hin2.
        -- rewrite lookup_insert_ne in Hp2 by exact Hne2.
           exact (H2 _ _ _ _ w Hne Hp1 Hp2 Hin1 Hin2).
Qed.

Lemma own_inv_set_dec_not_idle s w (c : DecoderWrapper Z) :
  idle_nowhere s w -> own_inv s -> own_inv (set_decs <[w := c]> s).
Proof.
  intros Hnow [Hinv Honce]. split.
  - by apply pool_inv_set_dec_not_idle.
  - revert Honce. by apply idle_once_ext.
Qed.

(** A wrapper that does not exist is idle nowhere. *)
Lemma idle_nowhere_unallocated s w :
  pool_inv s -> decs s !! w = None -> idle_nowhere s w.
Proof.
  intros Hinv Hw p sp Hp Hin.
  destruct (Hinv _ _ _ Hp Hin) as (dw & Hdw & _). congruence.
Qed.

Lemma own_inv_emit s e : own_inv s -> own_inv (emit e s).
Proof. by apply own_inv_ext. Qed.

Lemma own_inv_decoder_Reset s w r :
  idle_nowhere s w -> own_inv s -> own_inv (world_of (decoder_Reset w r s)).
Proof.
  intros Hnow Hinv. destruct (decs s !! w) as [dw|] eqn:Hw.
  - rewrite (decoder_Reset_run _ _ _ _ Hw).
    destruct (Decoder_Reset Z (dw_Decoder dw) r) as [d' err|]; simpl.
    + apply own_inv_set_dec_not_idle; [exact Hnow|by apply own_inv_emit].
    + by apply own_inv_emit.
  - by rewrite decoder_Reset_nil.
Qed.

Lemma own_inv_decoder_Close s w :
  idle_nowhere s w -> own_inv s -> own_inv (world_of (decoder_Close w s)).
Proof.
  intros Hnow Hinv. destruct (decs s !! w) as [dw|] eqn:Hw.
  - rewrite (decoder_Close_run _ _ _ Hw).
    destruct (Decoder_Close Z (dw_Decoder dw)) as [d' err|]; simpl.
    + apply own_inv_set_dec_not_idle; [exact Hnow|by apply own_inv_emit].
    + by apply own_inv_emit.
  - by rewrite decoder_Close_nil.
Qed.

Lemma own_inv_encoder_Reset s w t :
  own_inv s -> own_inv (world_of (encoder_Reset w t s)).
Proof. destruct (encoder_Reset_shape s w t). by apply own_inv_ext. Qed.

Lemma own_inv_encoder_Close s w :
  own_inv s -> own_inv (world_of (encoder_Close w s)).
Proof. destruct (encoder_Close_shape s w). by apply own_inv_ext. Qed.

(** Release of a wrapper that is idle nowhere. *)
Lemma own_inv_release s w dw P :
  reset_rebinds Z ->
  decs s !! w = Some dw ->
  idle_nowhere s w ->
  own_inv s ->
  own_inv (world_of
    match Decoder_Reset Z (dw_Decoder dw) None with
    | Returns d' None =>
        Pool_Put P (DecPtr w)
          (set_decs <[w := {| dw_Decoder := d'; dw_pool := dw_pool dw |}]>
             (emit (E_DecoderReset w None) s))
    | Returns d' (Some _) =>
        Ok tt (set_decs <[w := {| dw_Decoder := d'; dw_pool := dw_pool dw |}]>
                 (emit (E_DecoderReset w None) s))
    | Faults => Panic EngineFault (emit (E_DecoderReset w None) s)
    end).
Proof.
  intros Hlaw Hw Hnow Hinv.
  pose proof (own_inv_emit _ (E_DecoderReset w None) Hinv) as Hemit.
  destruct (Decoder_Reset Z (dw_Decoder dw) None) as [d' [e|]|] eqn:Hr; simpl.
  - by apply own_inv_set_dec_not_idle.
  - set (s1 := set_decs _ _).
    assert (H1 : own_inv s1) by (by apply own_inv_set_dec_not_idle).
    destruct (pools s1 !! P) as [sp|] eqn:Hp.
    + rewrite (Pool_Put_run _ _ sp) by (done || exact Hp). simpl.
      apply (own_inv_cons_dec (emit _ s1) _ _ _
               {| dw_Decoder := d'; dw_pool := dw_pool dw |}).
      * exact Hp.
      * exact Hnow.
      * apply lookup_insert_eq.
      * exact (Hlaw _ _ _ Hr).
      * by apply own_inv_emit.
    + rewrite Pool_Put_nil_pool by (done || exact Hp). by apply own_inv_emit.
  - exact Hemit.
Qed.

Lemma own_inv_DecoderWrapper_Close s w :
  reset_rebinds Z -> idle_nowhere s w ->
  own_inv s -> own_inv (world_of (DecoderWrapper_Close w s)).
Proof.
  intros Hlaw Hnow Hinv. destruct (decs s !! w) as [dw|] eqn:Hw.
  - rewrite (DecoderWrapper_Close_run _ _ _ Hw). by apply own_inv_release.
  - by rewrite DecoderWrapper_Close_nil.
Qed.

Lemma own_inv_DecoderPoolWrapper_Put s (d : DecoderPoolWrapper) w :
  reset_rebinds Z -> idle_nowhere s w ->
  own_inv s -> own_inv (world_of (DecoderPoolWrapper_Put d w s)).
Proof.
  intros Hlaw Hnow Hinv. destruct (decs s !! w) as [dw|] eqn:Hw.
  - rewrite (DecoderPoolWrapper_Put_run _ _ _ _ Hw). by apply own_inv_release.
  - by rewrite DecoderPoolWrapper_Put_nil.
Qed.

Lemma own_inv_Pool_Put_other s P x :
  is_dec_item x = false -> own_inv s -> own_inv (world_of (Pool_Put P x s)).
Proof.
  intros Hx Hinv. destruct (decide (x = Nil)) as [->|Hnil].
  - by apply own_inv_emit.
  - destruct (pools s !! P) as [sp|] eqn:Hp.
    + rewrite (Pool_Put_run _ _ sp) by assumption. simpl.
      apply (own_inv_cons_other (emit _ s)); [exact Hp|exact Hx|by apply own_inv_emit].
    + rewrite Pool_Put_nil_pool by assumption. by apply own_inv_emit.
Qed.

(** What a construction function makes is idle nowhere. *)
Lemma own_inv_call_factory s f x s1 :
  own_inv s -> call_factory f s = Ok x s1 ->
  own_inv s1 /\ forall w, x = DecPtr w -> idle_nowhere s1 w.
Proof.
  intros Hinv. destruct f as [o|o q]; cbn [call_factory].
  - rewrite NewEncoderPool_New_run. intros [= <- <-].
    split; [revert Hinv; by apply own_inv_ext|discriminate].
  - rewrite NewDecoderPool_New_run. intros [= <- <-].
    assert (Hnow : idle_nowhere s (fresh (dom (decs s))))
      by (apply idle_nowhere_unallocated; [apply Hinv|apply fresh_dec_unused]).
    split.
    + apply (own_inv_ext (set_decs <[fresh (dom (decs s)) :=
               {| dw_Decoder := fst (NewReader Z None o); dw_pool := q |}]> s));
        [reflexivity|reflexivity|].
      by apply own_inv_set_dec_not_idle.
    + intros w [= <-]. revert Hnow. by apply idle_nowhere_ext.
Qed.

Lemma call_factory_Ok s f : exists x s1, call_factory f s = Ok x s1.
Proof.
  destruct f as [o|o q]; cbn [call_factory].
  - rewrite NewEncoderPool_New_run. eauto.
  - rewrite NewDecoderPool_New_run. eauto.
Qed.

(** What [Get] hands out is idle nowhere. *)
Lemma own_inv_Pool_Get_Ok s p pick x s1 :
  own_inv s -> Pool_Get p pick s = Ok x s1 ->
  own_inv s1 /\ forall w, x = DecPtr w -> idle_nowhere s1 w.
Proof.
  intros Hinv Hget.
  apply Pool_Get_Ok in Hget
    as (sp & Hp & [(i & _ & Hi & ->)|[(f & Hn & Hf)|(_ & -> & ->)]]).
  - split.
    + apply (own_inv_delete (emit _ s)); [exact Hp|by apply own_inv_emit].
    + intros w ->.
      apply (idle_nowhere_after_delete (emit _ s)); [exact Hp|exact Hi|].
      apply Hinv.
  - apply own_inv_call_factory in Hf; [exact Hf|by apply own_inv_emit].
  - split; [by apply own_inv_emit|discriminate].
Qed.

Lemma own_inv_Pool_Get s p pick :
  own_inv s -> own_inv (world_of (Pool_Get p pick s)).
Proof.
  intros Hinv. destruct (Pool_Get p pick s) as [x s1|v s1] eqn:Hget.
  - by apply own_inv_Pool_Get_Ok in Hget as [? _].
  - by apply Pool_Get_Panic in Hget as (_ & _ & ->).
Qed.

Lemma own_inv_DecoderPoolWrapper_Get s (d : DecoderPoolWrapper) pick r :
  own_inv s -> own_inv (world_of (DecoderPoolWrapper_Get d pick r s)).
Proof.
  intros Hinv. unfold DecoderPoolWrapper_Get, mbind at 1, M_bind.
  destruct (Pool_Get (dpw_pool d) pick s) as [x s1|v s1] eqn:Hget.
  - apply own_inv_Pool_Get_Ok in Hget as [H1 Hnow]; [|exact Hinv].
    destruct x as [|l|w|tag]; try exact H1.
    unfold mbind, M_bind, assert_DecoderWrapper, mret, M_ret.
    pose proof (own_inv_decoder_Reset s1 w r (Hnow w eq_refl) H1) as H2.
    destruct (decoder_Reset w r s1) as [[e|] s2|v s2]; exact H2.
  - by apply Pool_Get_Panic in Hget as (_ & _ & ->).
Qed.

Lemma own_inv_EncoderPoolWrapper_Get s (e : EncoderPoolWrapper) pick t :
  own_inv s -> own_inv (world_of (EncoderPoolWrapper_Get e pick t s)).
Proof.
  intros Hinv. unfold EncoderPoolWrapper_Get.
  apply world_of_bind_inv; [by apply own_inv_Pool_Get|].
  intros x s1 H1. apply world_of_bind_inv; [by destruct x|].
  intros w s2 H2. apply world_of_bind_inv; [by apply own_inv_encoder_Reset|].
  intros _ s3 H3; exact H3.
Qed.

Lemma own_inv_EncoderPoolWrapper_Put s (e : EncoderPoolWrapper) w :
  own_inv s -> own_inv (world_of (EncoderPoolWrapper_Put e w s)).
Proof.
  intros Hinv. unfold EncoderPoolWrapper_Put.
  apply world_of_bind_inv; [by apply own_inv_encoder_Reset|].
  intros _ s1 H1. by apply own_inv_Pool_Put_other.
Qed.

Lemma own_inv_Pool_New s p : own_inv s -> own_inv (world_of (Pool_New p s)).
Proof.
  intros Hinv. unfold Pool_New, mbind, M_bind, deref_pool.
  destruct (pools s !! p) as [sp|]; [|exact Hinv].
  destruct (New sp) as [f|]; [|exact Hinv].
  destruct (call_factory_Ok s f) as (x & s1 & Hf). rewrite Hf.
  by apply own_inv_call_factory in Hf as [? _].
Qed.

Lemma own_inv_Pool_drop s p i : own_inv s -> own_inv (world_of (Pool_drop p i s)).
Proof.
  intros Hinv. unfold Pool_drop, mbind, M_bind, deref_pool, modify.
  destruct (pools s !! p) as [sp|] eqn:Hp; [|exact Hinv].
  simpl. by apply own_inv_delete.
Qed.

Lemma own_inv_run_finalizer s x :
  (forall w, x = DecPtr w -> idle_nowhere s w) ->
  own_inv s -> own_inv (world_of (run_finalizer x s)).
Proof.
  intros Hnow Hinv. unfold run_finalizer. destruct x as [|w|w|tag]; try exact Hinv.
  - destruct (enc_fins s !! w) as [[]|]; [|exact Hinv]. cbn [enc_finalizer_body].
    unfold NewEncoderPool_finalizer. rewrite world_of_then_ret.
    apply own_inv_encoder_Close. revert Hinv. by apply own_inv_ext.
  - destruct (dec_fins s !! w) as [[]|]; [|exact Hinv]. cbn [dec_finalizer_body].
    unfold NewDecoderPool_finalizer.
    apply own_inv_decoder_Close.
    + apply (idle_nowhere_ext s); [reflexivity|]. by apply Hnow.
    + revert Hinv. by apply own_inv_ext.
Qed.

Lemma own_inv_NewDecoderPool s options :
  own_inv s -> own_inv (world_of (NewDecoderPool options s)).
Proof.
  intros Hinv. rewrite NewDecoderPool_run. simpl.
  apply own_inv_new_pool; [apply fresh_pool_unused|exact Hinv].
Qed.

Lemma own_inv_NewEncoderPool s options :
  own_inv s -> own_inv (world_of (NewEncoderPool options s)).
Proof.
  intros Hinv. rewrite NewEncoderPool_run. simpl.
  apply own_inv_new_pool; [apply fresh_pool_unused|exact Hinv].
Qed.

(** One step under exclusive ownership keeps the invariant. *)
Lemma own_inv_exec s (o : op Z) :
  reset_rebinds Z -> owner_ok o s = true -> own_inv s -> own_inv (exec o s).
Proof.
  intros Hlaw Hok Hinv. unfold exec.
  destruct o; cbn [run_op owner_ok] in *; rewrite ?world_of_then_ret.
  - unfold NewDecoderPoolWrapper. rewrite world_of_bind_ret.
    by apply own_inv_NewDecoderPool.
  - unfold NewEncoderPoolWrapper. rewrite world_of_bind_ret.
    by apply own_inv_NewEncoderPool.
  - by apply own_inv_Pool_New.
  - by apply own_inv_DecoderPoolWrapper_Get.
  - apply own_inv_DecoderPoolWrapper_Put; [done|by apply not_idle_spec|done].
  - apply own_inv_DecoderWrapper_Close; [done|by apply not_idle_spec|done].
  - unfold decoderReadCloser_Close. rewrite world_of_then_ret.
    apply own_inv_DecoderWrapper_Close; [done|by apply not_idle_spec|done].
  - by apply own_inv_EncoderPoolWrapper_Get.
  - by apply own_inv_EncoderPoolWrapper_Put.
  - apply own_inv_decoder_Reset; [by apply not_idle_spec|done].
  - by apply own_inv_encoder_Reset.
  - apply own_inv_decoder_Close; [by apply not_idle_spec|done].
  - by apply own_inv_encoder_Close.
  - apply own_inv_run_finalizer; [|done].
    intros w ->. by apply not_idle_spec.
  - by apply own_inv_Pool_drop.
  - by apply own_inv_Pool_Get.
  - apply own_inv_Pool_Put_other; [by destruct x|done].
Qed.

Lemma own_inv_exec_all (tr : list (op Z)) s :
  reset_rebinds Z ->
  admissible owner_ok tr s = true -> own_inv s -> own_inv (exec_all tr s).
Proof.
  intros Hlaw. revert s. induction tr as [|o tr IH]; intros s Hadm Hinv; [exact Hinv|].
  simpl in Hadm. apply andb_prop in Hadm as [Hok Hadm].
  simpl. apply IH; [exact Hadm|]. by apply own_inv_exec.
Qed.

(** C2. With an engine on which a [Reset] that returns no error leaves a
    healthy handle, every step through the construction function of a
    decoder pool, [DecoderWrapper.Close] and [DecoderPoolWrapper.Put] keeps
    the property that each decoder wrapper idle in a pool embeds a handle
    that is not closed, is bound to no source, and on which [Reset]
    succeeds.  It holds in the empty world, hence after every sequence of
    such steps; and it is kept from any world in which it holds, whatever the
    state of the wrappers that are not idle.  It also holds after every
    sequence of steps of any kind made under exclusive ownership, among them
    [Get], the use of a wrapper by its holder and the direct close of its
    handle. *)
Theorem pool_holds_only_healthy_handles :
  reset_rebinds Z ->
  (forall tr : list (release_op Z),
     pool_inv (exec_all (map op_of_release tr) (empty_world Z))) /\
  (forall (tr : list (release_op Z)) s,
     pool_inv s -> pool_inv (exec_all (map op_of_release tr) s)) /\
  (forall tr : list (op Z),
     admissible owner_ok tr (empty_world Z) = true ->
     pool_inv (exec_all tr (empty_world Z))).
Proof.
  intros Hlaw.
  assert (Hstep : forall (o : release_op Z) s,
            pool_inv s -> pool_inv (exec (op_of_release o) s)).
  { intros o s Hinv. destruct o as [options|p|w|d w]; unfold exec; simpl.
    - rewrite world_of_then_ret. unfold NewDecoderPoolWrapper.
      rewrite world_of_bind_ret. by apply pool_inv_NewDecoderPool.
    - rewrite world_of_then_ret. by apply pool_inv_Pool_New.
    - by apply pool_inv_DecoderWrapper_Close.
    - by apply pool_inv_DecoderPoolWrapper_Put. }
  assert (Hall : forall (tr : list (release_op Z)) s,
            pool_inv s -> pool_inv (exec_all (map op_of_release tr) s)).
  { induction tr as [|o tr IH]; intros s Hinv; [exact Hinv|].
    simpl. apply IH, Hstep, Hinv. }
  split; [|split; [exact Hall|]].
  - intros tr. apply Hall, pool_inv_empty.
  - intros tr Hadm.
    apply (own_inv_exec_all tr _ Hlaw Hadm own_inv_empty).
Qed.

End Properties.

(** * Examples on the reference engine *)

(** C3, as stated, fails.  In [Demo.held] the wrapper at address 0 carries
    the finalizer registered by the construction function.  Running it is not
    running [DecoderWrapper.Close]: the release path would reset the handle
    and put the wrapper in the pool, the finalizer closes the handle and
    leaves the pool empty. *)
Lemma decoder_finalizer_is_not_release :
  dec_fins Demo.held !! 0 = Some Fin_Decoder_Close /\
  run_finalizer (DecPtr 0) Demo.held <>
    DecoderWrapper_Close 0 (set_dec_fins (delete 0) Demo.held) /\
  trace (world_of (run_finalizer (DecPtr 0) Demo.held)) =
    trace Demo.held ++ [E_DecoderClose 0] /\
  trace (world_of (DecoderWrapper_Close 0 Demo.held)) =
    trace Demo.held ++ [E_DecoderReset 0 None; E_PoolPut 0 (DecPtr 0)] /\
  idle <$> pools (world_of (run_finalizer (DecPtr 0) Demo.held)) !! 0 = Some [] /\
  idle <$> pools (world_of (DecoderWrapper_Close 0 Demo.held)) !! 0 = Some [DecPtr 0] /\
  dw_Decoder <$> decs (world_of (run_finalizer (DecPtr 0) Demo.held)) !! 0 =
    Some (RefZstd.DHandle true None).
Proof.
  split; [vm_compute; reflexivity|].
  split.
  { intros Heq.
    apply (f_equal (fun r => idle <$> pools (world_of r) !! 0)) in Heq.
    vm_compute in Heq. discriminate Heq. }
  repeat split; vm_compute; reflexivity.
Qed.

(** The reference engine meets what the package relies on. *)
Lemma ref_reset_rebinds : reset_rebinds RefZstd.engine.
Proof.
  intros [|[] src] r d'; simpl; try discriminate.
  intros [= <-]. repeat split. intros r'. by eexists.
Qed.

Lemma ref_reset_fails_only_closed : reset_fails_only_closed RefZstd.engine.
Proof. intros [|[] src] r d' e; simpl; try discriminate. reflexivity. Qed.

Lemma ref_new_not_closed : new_not_closed RefZstd.engine.
Proof.
  intros r options. simpl. unfold RefZstd.new_reader.
  by destruct (RefZstd.valid options).
Qed.

Lemma ref_encoder_reset_rebinds : encoder_reset_rebinds RefZstd.engine.
Proof. intros [|c t0] t e'; simpl; [discriminate|]. by intros [= <-]. Qed.

(** No wrapper is idle in [Demo.held]. *)
Lemma Demo_held_pool_inv : pool_inv Demo.held.
Proof.
  assert (Hp : pools Demo.held =
    {[ 0 := {| New := Some (NewDecoderFn (Z := RefZstd.engine) [true] 0);
               idle := [] |} ]}) by (vm_compute; reflexivity).
  intros p sp w Hsp Hin. rewrite Hp in Hsp.
  apply lookup_singleton_Some in Hsp as [_ <-]. by apply elem_of_nil in Hin.
Qed.

(** Outside exclusive ownership the property of idle wrappers is lost: a
    wrapper released twice is idle twice, and once [Get] has handed it out
    and bound it to reader 8 its other entry is still idle. *)
Lemma double_release_then_Get_shares_wrapper :
  admissible owner_ok Demo.double_release_run (empty_world RefZstd.engine) = false /\
  idle <$> pools (exec_all Demo.double_release_run (empty_world RefZstd.engine)) !! 0 =
    Some [DecPtr 0] /\
  dw_Decoder <$> decs (exec_all Demo.double_release_run (empty_world RefZstd.engine)) !! 0 =
    Some (RefZstd.DHandle false (Some 8)) /\
  ~ pool_inv (exec_all Demo.double_release_run (empty_world RefZstd.engine)).
Proof.
  assert (Hp : pools (exec_all Demo.double_release_run (empty_world RefZstd.engine)) !! 0 =
    Some {| New := Some (NewDecoderFn (Z := RefZstd.engine) [true] 0);
            idle := [DecPtr 0] |}) by (vm_compute; reflexivity).
  assert (Hd : decs (exec_all Demo.double_release_run (empty_world RefZstd.engine)) !! 0 =
    Some {| dw_Decoder := RefZstd.DHandle false (Some 8) : Decoder RefZstd.engine;
            dw_pool := 0 |}) by (vm_compute; reflexivity).
  split; [vm_compute; reflexivity|].
  split; [by rewrite Hp|]. split; [by rewrite Hd|].
  intros Hinv.
  destruct (Hinv 0 _ 0 Hp) as (dw & Hdw & _ & Hsrc & _); [by apply list_elem_of_here|].
  rewrite Hd in Hdw. injection Hdw as <-. discriminate Hsrc.
Qed.

(** On the reference engine a call on a nil handle panics: the release of a
    wrapper built from rejected options panics inside [Reset], and so does
    the [Close] of its stream adapter; no error is returned and nothing is
    pooled. *)
Lemma release_of_nil_handle_panics :
  decs Demo.held_nil !! 0 =
    Some {| dw_Decoder := RefZstd.DNil : Decoder RefZstd.engine; dw_pool := 0 |} /\
  decoderReadCloser_Close Demo.adapter Demo.held_nil =
    Panic EngineFault (emit (E_DecoderReset 0 None) Demo.held_nil) /\
  DecoderPoolWrapper_Put Demo.facade 0 Demo.held_nil =
    Panic EngineFault (emit (E_DecoderReset 0 None) Demo.held_nil).
Proof. repeat split; vm_compute; reflexivity. Qed.

(** ** The theorems at concrete inputs *)

(** C1 at work: [DecoderWrapper.Close] on the open wrapper of [Demo.held] is
    a [Reset] followed by a [Put]; [DecoderPoolWrapper.Put] on the closed
    wrapper of [Demo.held_closed] returns and leaves the pools alone. *)
Lemma release_pools_iff_reset_succeeds_witness :
  decs Demo.held !! 0 =
    Some {| dw_Decoder := RefZstd.DHandle false (Some 7) : Decoder RefZstd.engine;
            dw_pool := 0 |} /\
  trace (world_of (DecoderWrapper_Close 0 Demo.held)) =
    trace Demo.held ++ [E_DecoderReset 0 None; E_PoolPut 0 (DecPtr 0)] /\
  DecoderPoolWrapper_Put Demo.facade 0 Demo.held_closed =
    Ok tt (world_of (DecoderPoolWrapper_Put Demo.facade 0 Demo.held_closed)) /\
  pools (world_of (DecoderPoolWrapper_Put Demo.facade 0 Demo.held_closed)) =
    pools Demo.held_closed.
Proof.
  assert (H1 : decs Demo.held !! 0 =
    Some {| dw_Decoder := RefZstd.DHandle false (Some 7) : Decoder RefZstd.engine;
            dw_pool := 0 |}) by (vm_compute; reflexivity).
  assert (H2 : decs Demo.held_closed !! 0 =
    Some {| dw_Decoder := RefZstd.DHandle true None : Decoder RefZstd.engine;
            dw_pool := 0 |}) by (vm_compute; reflexivity).
  split; [exact H1|].
  pose proof (release_pools_iff_reset_succeeds RefZstd.engine Demo.held 0 _
                Demo.facade 0 (DecoderWrapper_Close 0)
                H1 (or_introl (conj eq_refl eq_refl))) as W1.
  pose proof (release_pools_iff_reset_succeeds RefZstd.engine Demo.held_closed 0 _
                Demo.facade 0 (DecoderPoolWrapper_Put Demo.facade 0)
                H2 (or_intror (conj eq_refl eq_refl))) as W2.
  simpl in W1, W2.
  destruct W1 as (Htr & _). destruct W2 as (Hok & _ & _ & Hpools).
  split; [exact Htr|]. split; [exact Hok|exact Hpools].
Defined.

(** C2 at work: the steps of [Demo.release_run] from [Demo.held], and the
    run [Demo.owned_run] from the empty world. *)
Lemma pool_holds_only_healthy_handles_witness :
  reset_rebinds RefZstd.engine /\
  pool_inv Demo.held /\
  pool_inv (exec_all (map op_of_release Demo.release_run) Demo.held) /\
  idle <$> pools (exec_all (map op_of_release Demo.release_run) Demo.held) !! 0 =
    Some [DecPtr 1; DecPtr 0; DecPtr 0] /\
  admissible owner_ok Demo.owned_run (empty_world RefZstd.engine) = true /\
  pool_inv (exec_all Demo.owned_run (empty_world RefZstd.engine)) /\
  idle <$> pools (exec_all Demo.owned_run (empty_world RefZstd.engine)) !! 0 =
    Some [DecPtr 1].
Proof.
  assert (Hadm : admissible owner_ok Demo.owned_run (empty_world RefZstd.engine) = true)
    by (vm_compute; reflexivity).
  split; [exact ref_reset_rebinds|]. split; [exact Demo_held_pool_inv|].
  split.
  { exact (proj1 (proj2 (pool_holds_only_healthy_handles RefZstd.engine
                           ref_reset_rebinds))
             Demo.release_run Demo.held Demo_held_pool_inv). }
  split; [vm_compute; reflexivity|].
  split; [exact Hadm|].
  split; [|vm_compute; reflexivity].
  exact (proj2 (proj2 (pool_holds_only_healthy_handles RefZstd.engine
                         ref_reset_rebinds))
           Demo.owned_run Hadm).
Defined.

(** C4 at work: [Get] on [Demo.poisoned] picks the wrapper whose handle was
    closed directly and panics with the error of [Reset]; on [Demo.held] it
    cannot. *)
Lemma Get_resets_or_panics_witness :
  reset_fails_only_closed RefZstd.engine /\
  new_not_closed RefZstd.engine /\
  pool_inv Demo.held /\
  DecoderPoolWrapper_Get (Z := RefZstd.engine) Demo.facade (Some 0) (Some 9) Demo.poisoned =
    Panic (PanicErr (RefZstd.ErrDecoderClosed : Error RefZstd.engine))
      (world_of (DecoderPoolWrapper_Get (Z := RefZstd.engine) Demo.facade (Some 0) (Some 9) Demo.poisoned)) /\
  (exists w s1 dw,
     Pool_Get (dpw_pool Demo.facade) (Some 0) Demo.poisoned = Ok (DecPtr w) s1 /\
     decs s1 !! w = Some dw /\
     Decoder_closed RefZstd.engine (dw_Decoder dw) = true) /\
  (forall e s',
     DecoderPoolWrapper_Get (Z := RefZstd.engine) Demo.facade None (Some 9) Demo.held <>
     Panic (PanicErr e) s').
Proof.
  assert (Hpanic :
    DecoderPoolWrapper_Get (Z := RefZstd.engine) Demo.facade (Some 0) (Some 9) Demo.poisoned =
    Panic (PanicErr (RefZstd.ErrDecoderClosed : Error RefZstd.engine))
      (world_of (DecoderPoolWrapper_Get (Z := RefZstd.engine) Demo.facade (Some 0) (Some 9) Demo.poisoned)))
    by (vm_compute; reflexivity).
  split; [exact ref_reset_fails_only_closed|].
  split; [exact ref_new_not_closed|].
  split; [exact Demo_held_pool_inv|].
  split; [exact Hpanic|].
  split.
  - exact (proj1 (proj2 (proj2
      (Get_resets_or_panics RefZstd.engine Demo.poisoned Demo.facade (Some 0) (Some 9))))
      ref_reset_fails_only_closed _ _ Hpanic).
  - exact (proj2 (proj2 (proj2
      (Get_resets_or_panics RefZstd.engine Demo.held Demo.facade None (Some 9))))
      ref_reset_fails_only_closed ref_new_not_closed Demo_held_pool_inv).
Defined.

(** C5 at work: on [Demo.held_closed] the [Reset] inside the release fails,
    and the adapter's [Close] still returns nil and pools nothing. *)
Lemma readcloser_Close_returns_nil_witness :
  decs Demo.held_closed !! drc_dw Demo.adapter =
    Some {| dw_Decoder := RefZstd.DHandle true None : Decoder RefZstd.engine;
            dw_pool := 0 |} /\
  pools Demo.held_closed !! 0 =
    Some {| New := Some (NewDecoderFn (Z := RefZstd.engine) [true] 0); idle := [] |} /\
  exists s',
    decoderReadCloser_Close Demo.adapter Demo.held_closed = Ok None s' /\
    (pools s' = pools Demo.held_closed <->
     Some (RefZstd.ErrDecoderClosed : Error RefZstd.engine) <> None).
Proof.
  assert (H1 : decs Demo.held_closed !! drc_dw Demo.adapter =
    Some {| dw_Decoder := RefZstd.DHandle true None : Decoder RefZstd.engine;
            dw_pool := 0 |}) by (vm_compute; reflexivity).
  assert (H2 : pools Demo.held_closed !! 0 =
    Some {| New := Some (NewDecoderFn (Z := RefZstd.engine) [true] 0); idle := [] |})
    by (vm_compute; reflexivity).
  split; [exact H1|]. split; [exact H2|].
  exact (proj1 (proj2 (proj2 (proj2 (proj2
    (readcloser_Close_returns_nil RefZstd.engine Demo.held_closed Demo.adapter)))))
    _ _ _ _ H1 H2 eq_refl).
Defined.

(** C6 at work on [Demo.enc_held]. *)
Lemma encoder_Put_resets_and_always_pools_witness :
  encs Demo.enc_held !! 0 =
    Some {| ew_Encoder := RefZstd.EHandle false (Some 5) : Encoder RefZstd.engine |} /\
  pools Demo.enc_held !! epw_pool Demo.enc_facade =
    Some {| New := Some (NewEncoderFn (Z := RefZstd.engine) [true]); idle := [] |} /\
  exists s',
    EncoderPoolWrapper_Put Demo.enc_facade 0 Demo.enc_held = Ok tt s' /\
    pools s' =
      <[0 := {| New := Some (NewEncoderFn (Z := RefZstd.engine) [true]);
                idle := [EncPtr 0] |}]> (pools Demo.enc_held).
Proof.
  assert (H1 : encs Demo.enc_held !! 0 =
    Some {| ew_Encoder := RefZstd.EHandle false (Some 5) : Encoder RefZstd.engine |})
    by (vm_compute; reflexivity).
  assert (H2 : pools Demo.enc_held !! epw_pool Demo.enc_facade =
    Some {| New := Some (NewEncoderFn (Z := RefZstd.engine) [true]); idle := [] |})
    by (vm_compute; reflexivity).
  split; [exact H1|]. split; [exact H2|].
  destruct (proj1 (encoder_Put_resets_and_always_pools RefZstd.engine Demo.enc_held
                     Demo.enc_facade 0 _ _ _ H1 H2 eq_refl))
    as (s' & Hput & _ & _ & Hpools & _).
  exists s'. split; [exact Hput|exact Hpools].
Defined.

(** C8 at work: the engine rejects the options and returns the nil handle
    with an error; the construction function returns a wrapper around it. *)
Lemma construction_error_is_discarded_witness :
  NewReader RefZstd.engine None [false] =
    (RefZstd.DNil, Some RefZstd.ErrBadOption) /\
  exists (dw : nat) s',
    NewDecoderPool_New (Z := RefZstd.engine) [false] 0 Demo.held = Ok (DecPtr dw) s' /\
    decs s' !! dw =
      Some {| dw_Decoder := RefZstd.DNil : Decoder RefZstd.engine; dw_pool := 0 |}.
Proof.
  split; [reflexivity|].
  destruct (proj2 (proj2 (proj2
              (construction_error_is_discarded RefZstd.engine Demo.held)))
              [false] 0 RefZstd.DNil (Some RefZstd.ErrBadOption) eq_refl)
    as (dw & s' & Hnew & _ & Hcell & _).
  exists dw, s'. split; [exact Hnew|exact Hcell].
Defined.

(** C9 at work: after [Demo.typed_run], [Get] on the decoder facade does not
    fail on the type assertion, whatever the pool hands out. *)
Lemma type_assertion_never_fails_witness :
  admissible usage_ok Demo.typed_run (empty_world RefZstd.engine) = true /\
  is_decoder_pool (exec_all Demo.typed_run (empty_world RefZstd.engine))
    (dpw_pool Demo.facade) = true /\
  forall pick r x s',
    DecoderPoolWrapper_Get (Z := RefZstd.engine) Demo.facade pick r
      (exec_all Demo.typed_run (empty_world RefZstd.engine)) <>
    Panic (AssertFailed x) s'.
Proof.
  assert (H1 : admissible usage_ok Demo.typed_run (empty_world RefZstd.engine) = true)
    by (vm_compute; reflexivity).
  assert (H2 : is_decoder_pool (exec_all Demo.typed_run (empty_world RefZstd.engine))
                 (dpw_pool Demo.facade) = true) by (vm_compute; reflexivity).
  split; [exact H1|]. split; [exact H2|].
  intros pick r x s'.
  exact (proj1 (proj2 (type_assertion_never_fails RefZstd.engine Demo.typed_run H1))
           Demo.facade pick r x s' H2).
Defined.

(** C10 at work: closing the adapter of wrapper 0 twice on [Demo.held]. *)
Lemma readcloser_Close_twice_pools_twice_witness :
  reset_rebinds RefZstd.engine /\
  decs Demo.held !! drc_dw Demo.adapter =
    Some {| dw_Decoder := RefZstd.DHandle false (Some 7) : Decoder RefZstd.engine;
            dw_pool := 0 |} /\
  pools Demo.held !! 0 =
    Some {| New := Some (NewDecoderFn (Z := RefZstd.engine) [true] 0); idle := [] |} /\
  exists s1 s2 sp2,
    decoderReadCloser_Close Demo.adapter Demo.held = Ok None s1 /\
    decoderReadCloser_Close Demo.adapter s1 = Ok None s2 /\
    pools s2 !! 0 = Some sp2 /\
    idle sp2 = [DecPtr 0; DecPtr 0].
Proof.
  assert (H1 : decs Demo.held !! drc_dw Demo.adapter =
    Some {| dw_Decoder := RefZstd.DHandle false (Some 7) : Decoder RefZstd.engine;
            dw_pool := 0 |}) by (vm_compute; reflexivity).
  assert (H2 : pools Demo.held !! 0 =
    Some {| New := Some (NewDecoderFn (Z := RefZstd.engine) [true] 0); idle := [] |})
    by (vm_compute; reflexivity).
  split; [exact ref_reset_rebinds|]. split; [exact H1|]. split; [exact H2|].
  destruct (proj2 (readcloser_Close_twice_pools_twice RefZstd.engine Demo.held
                     Demo.adapter _ _ _ ref_reset_rebinds H1 H2 eq_refl))
    as (s1 & s2 & sp2 & Hc1 & Hc2 & _ & Hp & Hidle & _).
  exists s1, s2, sp2. repeat split; assumption.
Defined.

(** C3 (amended) at work: the finalizer of wrapper 0 on [Demo.held]. *)
Lemma decoder_finalizer_closes_handle_witness :
  decs Demo.held !! 0 =
    Some {| dw_Decoder := RefZstd.DHandle false (Some 7) : Decoder RefZstd.engine;
            dw_pool := 0 |} /\
  dec_fins Demo.held !! 0 = Some Fin_Decoder_Close /\
  trace (world_of (run_finalizer (DecPtr 0) Demo.held)) =
    trace Demo.held ++ [E_DecoderClose 0] /\
  pools (world_of (run_finalizer (DecPtr 0) Demo.held)) = pools Demo.held.
Proof.
  assert (H1 : decs Demo.held !! 0 =
    Some {| dw_Decoder := RefZstd.DHandle false (Some 7) : Decoder RefZstd.engine;
            dw_pool := 0 |}) by (vm_compute; reflexivity).
  assert (H2 : dec_fins Demo.held !! 0 = Some Fin_Decoder_Close)
    by (vm_compute; reflexivity).
  split; [exact H1|]. split; [exact H2|].
  destruct (proj2 (decoder_finalizer_closes_handle RefZstd.engine Demo.held [true] 0)
              0 Demo.held _ H1 H2) as (Htr & _ & Hpools & _).
  split; [exact Htr|exact Hpools].
Defined.

(** C7 at work: the finalizer of encoder wrapper 0 on [Demo.enc_held]. *)
Lemma encoder_finalizer_closes_handle_witness :
  encs Demo.enc_held !! 0 =
    Some {| ew_Encoder := RefZstd.EHandle false (Some 5) : Encoder RefZstd.engine |} /\
  enc_fins Demo.enc_held !! 0 = Some Fin_Encoder_Close /\
  trace (world_of (run_finalizer (EncPtr 0) Demo.enc_held)) =
    trace Demo.enc_held ++ [E_EncoderClose 0] /\
  encs (world_of (run_finalizer (EncPtr 0) Demo.enc_held)) =
    <[0 := {| ew_Encoder := RefZstd.EHandle true (Some 5) : Encoder RefZstd.engine |}]>
      (encs Demo.enc_held).
Proof.
  assert (H1 : encs Demo.enc_held !! 0 =
    Some {| ew_Encoder := RefZstd.EHandle false (Some 5) : Encoder RefZstd.engine |})
    by (vm_compute; reflexivity).
  assert (H2 : enc_fins Demo.enc_held !! 0 = Some Fin_Encoder_Close)
    by (vm_compute; reflexivity).
  split; [exact H1|]. split; [exact H2|].
  destruct (proj2 (encoder_finalizer_closes_handle RefZstd.engine Demo.enc_held [true])
              0 Demo.enc_held _ H1 H2) as (Htr & _ & _ & _ & Hencs).
  split; [exact Htr|exact Hencs].
Defined.

(** * More of the package *)

Section Coverage.

Context (Z : Zstd).

Implicit Types (s : World Z) (w p : nat) (dw : DecoderWrapper Z).

(** ** [sync.Pool.Get], by what it finds *)

Lemma Pool_Get_hit s p sp i x :
  pools s !! p = Some sp -> idle sp !! i = Some x ->
  Pool_Get p (Some i) s =
    Ok x (set_pools <[p := {| New := New sp; idle := delete i (idle sp) |}]>
            (emit (E_PoolGet p) s)).
Proof.
  intros Hp Hi. unfold Pool_Get, mbind at 1, M_bind, deref_pool. rewrite Hp.
  unfold mbind at 1, M_bind, modify. simpl. rewrite Hi. reflexivity.
Qed.

Lemma Pool_Get_miss s p sp f pick :
  pools s !! p = Some sp ->
  (forall i, pick = Some i -> idle sp !! i = None) ->
  New sp = Some f ->
  Pool_Get p pick s = call_factory f (emit (E_PoolGet p) s).
Proof.
  intros Hp Hmiss Hn. unfold Pool_Get, mbind at 1, M_bind, deref_pool. rewrite Hp.
  unfold mbind at 1, M_bind, modify. simpl.
  destruct pick as [i|]; simpl; [rewrite (Hmiss i eq_refl); simpl|]; by rewrite Hn.
Qed.

(** Putting an item in a pool and taking it out again leaves the pools as
    they were. *)
Lemma insert_cons_delete_pool (m : gmap nat (SyncPool Z)) p sp x :
  m !! p = Some sp ->
  <[p := {| New := New sp; idle := delete 0 (x :: idle sp) |}]>
    (<[p := {| New := New sp; idle := x :: idle sp |}]> m) = m.
Proof.
  intros Hp. rewrite insert_insert_eq. simpl. apply insert_id.
  rewrite Hp. by destruct sp.
Qed.

(** ** Release followed by acquisition *)

(** X1. A decoder wrapper released with [DecoderPoolWrapper.Put] and handed
    out again by the next [Get] on the same facade comes back as the same
    wrapper, open and bound to the reader given to [Get]; the pools are as
    before the release and no other wrapper has changed. *)
Theorem decoder_Put_then_Get_roundtrip s (d : DecoderPoolWrapper) w dw sp d1 r :
  reset_rebinds Z ->
  decs s !! w = Some dw ->
  pools s !! dpw_pool d = Some sp ->
  Decoder_Reset Z (dw_Decoder dw) None = Returns d1 None ->
  exists s1 s2 d2,
    DecoderPoolWrapper_Put d w s = Ok tt s1 /\
    DecoderPoolWrapper_Get d (Some 0) r s1 = Ok w s2 /\
    pools s2 = pools s /\
    decs s2 = <[w := {| dw_Decoder := d2; dw_pool := dw_pool dw |}]> (decs s) /\
    Decoder_closed Z d2 = false /\
    Decoder_source Z d2 = r.
Proof.
  intros Hlaw Hw Hp Hr.
  destruct (Hlaw _ _ _ Hr) as (_ & _ & Hagain).
  destruct (Hagain r) as [d2 Hr2].
  destruct (Hlaw _ _ _ Hr2) as (Hopen & Hsrc & _).
  eexists _, _, d2. split.
  { rewrite (DecoderPoolWrapper_Put_run Z _ _ _ _ Hw), Hr.
    rewrite (Pool_Put_run Z _ _ sp) by (done || exact Hp). reflexivity. }
  split.
  { rewrite DecoderPoolWrapper_Get_run.
    erewrite Pool_Get_hit; [|apply lookup_insert_eq|reflexivity].
    simpl. rewrite lookup_insert_eq. simpl. rewrite Hr2. reflexivity. }
  simpl. split; [by apply insert_cons_delete_pool|].
  split; [by rewrite insert_insert_eq|]. done.
Qed.

(** X2. The same for an encoder wrapper released with
    [EncoderPoolWrapper.Put]: the next [Get] that hands it out returns the
    same wrapper, reset against the writer given to [Get], and the pools are
    as before the release. *)
Theorem encoder_Put_then_Get_roundtrip s (e : EncoderPoolWrapper) w
    (ew : EncoderWrapper Z) sp e1 e2 t :
  encs s !! w = Some ew ->
  pools s !! epw_pool e = Some sp ->
  Encoder_Reset Z (ew_Encoder ew) None = Returns e1 tt ->
  Encoder_Reset Z e1 t = Returns e2 tt ->
  exists s1 s2,
    EncoderPoolWrapper_Put e w s = Ok tt s1 /\
    EncoderPoolWrapper_Get e (Some 0) t s1 = Ok w s2 /\
    pools s2 = pools s /\
    encs s2 = <[w := {| ew_Encoder := e2 |}]> (encs s) /\
    decs s2 = decs s /\
    (encoder_reset_rebinds Z -> Encoder_target Z e2 = t).
Proof.
  intros Hw Hp Hr1 Hr2. eexists _, _. split.
  { unfold EncoderPoolWrapper_Put, mbind, M_bind.
    rewrite (encoder_Reset_run Z _ _ ew) by exact Hw. rewrite Hr1.
    rewrite (Pool_Put_run Z _ _ sp) by (done || exact Hp). reflexivity. }
  split.
  { unfold EncoderPoolWrapper_Get, mbind at 1, M_bind.
    erewrite Pool_Get_hit; [|apply lookup_insert_eq|reflexivity].
    unfold mbind, M_bind, assert_EncoderWrapper, mret, M_ret. simpl.
    erewrite encoder_Reset_run; [|apply lookup_insert_eq]. simpl.
    rewrite Hr2. reflexivity. }
  simpl. split; [by apply insert_cons_delete_pool|].
  split; [by rewrite insert_insert_eq|]. split; [done|].
  intros Hlaw. exact (Hlaw _ _ _ Hr2).
Qed.

(** ** What release does with particular wrappers *)

(** X3. Once its decoder is closed a wrapper never enters a pool again: on
    an engine that refuses to reset closed handles, [DecoderWrapper.Close],
    [DecoderPoolWrapper.Put] and the [Close] of a stream adapter all return
    normally, make the one [Reset] call, and leave pools and wrappers as
    they were. *)
Theorem closed_decoder_is_never_pooled s (d : DecoderPoolWrapper)
    (a : decoderReadCloser) w dw :
  closed_reset_fails Z ->
  decs s !! w = Some dw ->
  Decoder_closed Z (dw_Decoder dw) = true ->
  drc_dw a = w ->
  exists s',
    DecoderWrapper_Close w s = Ok tt s' /\
    DecoderPoolWrapper_Put d w s = Ok tt s' /\
    decoderReadCloser_Close a s = Ok None s' /\
    pools s' = pools s /\
    decs s' = decs s /\
    trace s' = trace s ++ [E_DecoderReset w None].
Proof.
  intros Hlaw Hw Hc Ha. destruct (Hlaw _ None Hc) as [e Hr].
  eexists. split.
  { rewrite (DecoderWrapper_Close_run Z _ _ _ Hw), Hr. reflexivity. }
  split.
  { rewrite (DecoderPoolWrapper_Put_run Z _ _ _ _ Hw), Hr. reflexivity. }
  split.
  { rewrite decoderReadCloser_Close_run, Ha.
    rewrite (DecoderWrapper_Close_run Z _ _ _ Hw), Hr. reflexivity. }
  simpl. split; [done|]. split; [|done].
  apply insert_id. rewrite Hw. by destruct dw.
Qed.

(** X4. [DecoderPoolWrapper.Put] does not look at the pool the wrapper
    refers to.  A wrapper of another pool is put in the facade's pool, its
    own pool is left alone and it goes on referring to it, so that a later
    [DecoderWrapper.Close] takes it back to its own pool, not to the
    facade's. *)
Theorem Put_of_foreign_wrapper_moves_it s (d : DecoderPoolWrapper) w dw
    sp_d sp_w d1 :
  decs s !! w = Some dw ->
  dw_pool dw <> dpw_pool d ->
  pools s !! dpw_pool d = Some sp_d ->
  pools s !! dw_pool dw = Some sp_w ->
  Decoder_Reset Z (dw_Decoder dw) None = Returns d1 None ->
  (exists s1,
     DecoderPoolWrapper_Put d w s = Ok tt s1 /\
     pools s1 !! dpw_pool d =
       Some {| New := New sp_d; idle := DecPtr w :: idle sp_d |} /\
     pools s1 !! dw_pool dw = Some sp_w /\
     decs s1 !! w = Some {| dw_Decoder := d1; dw_pool := dw_pool dw |}) /\
  (exists s2,
     DecoderWrapper_Close w s = Ok tt s2 /\
     pools s2 !! dw_pool dw =
       Some {| New := New sp_w; idle := DecPtr w :: idle sp_w |} /\
     pools s2 !! dpw_pool d = Some sp_d /\
     decs s2 !! w = Some {| dw_Decoder := d1; dw_pool := dw_pool dw |}).
Proof.
  intros Hw Hne Hpd Hpw Hr. split.
  - eexists. rewrite (DecoderPoolWrapper_Put_run Z _ _ _ _ Hw), Hr.
    rewrite (Pool_Put_run Z _ _ sp_d) by (done || exact Hpd).
    split; [reflexivity|]. simpl.
    split; [apply lookup_insert_eq|].
    split; [by rewrite lookup_insert_ne|apply lookup_insert_eq].
  - eexists. rewrite (DecoderWrapper_Close_run Z _ _ _ Hw), Hr.
    rewrite (Pool_Put_run Z _ _ sp_w) by (done || exact Hpw).
    split; [reflexivity|]. simpl.
    split; [apply lookup_insert_eq|].
    split; [by rewrite lookup_insert_ne|apply lookup_insert_eq].
Qed.

(** X5. The earlier revision of [DecoderWrapper.Close] (lines 172-177) drops
    the result of [Reset]: a wrapper whose decoder is closed is put in its
    pool all the same.  The pool then holds a closed decoder: when it hands
    the wrapper out, the [Reset] of the next user returns an error. *)
Theorem Earlier_Close_pools_closed_decoder s w dw sp r :
  closed_reset_fails Z ->
  decs s !! w = Some dw ->
  Decoder_closed Z (dw_Decoder dw) = true ->
  pools s !! dw_pool dw = Some sp ->
  exists s1 s2 s3 e,
    Earlier_DecoderWrapper_Close w s = Ok tt s1 /\
    pools s1 !! dw_pool dw =
      Some {| New := New sp; idle := DecPtr w :: idle sp |} /\
    ~ pool_inv s1 /\
    Pool_Get (dw_pool dw) (Some 0) s1 = Ok (DecPtr w) s2 /\
    decoder_Reset w r s2 = Ok (Some e) s3.
Proof.
  intros Hlaw Hw Hc Hp.
  destruct (Hlaw _ None Hc) as [e0 Hr0]. destruct (Hlaw _ r Hc) as [e Hr].
  eexists _, _, _, e. split.
  { unfold Earlier_DecoderWrapper_Close, mbind, M_bind.
    rewrite (decoder_Reset_run Z _ _ _ _ Hw), Hr0.
    unfold deref_dec, set_decs at 1; simpl. rewrite lookup_insert_eq. simpl.
    rewrite (Pool_Put_run Z _ _ sp) by (done || exact Hp). reflexivity. }
  simpl. split; [apply lookup_insert_eq|]. split; [|split].
  - intros Hinv.
    destruct (Hinv (dw_pool dw) _ w (lookup_insert_eq _ _ _))
      as (dw' & Hdw' & Hopen & _); [apply list_elem_of_here|].
    simpl in Hdw'. rewrite lookup_insert_eq in Hdw'. injection Hdw' as <-.
    simpl in Hopen. congruence.
  - erewrite Pool_Get_hit; [reflexivity|apply lookup_insert_eq|reflexivity].
  - erewrite decoder_Reset_run; [|apply lookup_insert_eq]. simpl.
    rewrite Hr. reflexivity.
Qed.

Lemma EncoderPoolWrapper_Get_run s (e : EncoderPoolWrapper) pick t :
  EncoderPoolWrapper_Get e pick t s =
    match Pool_Get (epw_pool e) pick s with
    | Ok (EncPtr w) s1 =>
        match encs s1 !! w with
        | Some ew =>
            match Encoder_Reset Z (ew_Encoder ew) t with
            | Returns e' _ =>
                Ok w (set_encs <[w := {| ew_Encoder := e' |}]>
                        (emit (E_EncoderReset w t) s1))
            | Faults => Panic EngineFault (emit (E_EncoderReset w t) s1)
            end
        | None => Panic NilDeref s1
        end
    | Ok x s1 => Panic (AssertFailed x) s1
    | Panic v s1 => Panic v s1
    end.
Proof.
  unfold EncoderPoolWrapper_Get, mbind at 1, M_bind.
  destruct (Pool_Get (epw_pool e) pick s) as [x s1|]; [|reflexivity].
  destruct x as [|w|l|tag]; try reflexivity.
  unfold mbind, M_bind, assert_EncoderWrapper, mret, M_ret.
  destruct (encs s1 !! w) as [ew|] eqn:Hw.
  - rewrite (encoder_Reset_run Z _ _ ew) by exact Hw.
    destruct (Encoder_Reset Z (ew_Encoder ew) t) as [e' []|]; reflexivity.
  - rewrite encoder_Reset_nil by exact Hw. reflexivity.
Qed.

(** ** Construction is lazy *)

(** X6. [NewDecoderPoolWrapper] cannot fail and calls nothing: it makes a
    new, empty pool, and no decoder.  The first [Get] on the facade,
    whatever the pool does, calls the engine's constructor once, with no
    reader and the options given to [NewDecoderPoolWrapper], registers the
    finalizer of the new wrapper and resets it against the reader of [Get];
    the wrapper refers to the facade's pool. *)
Theorem NewDecoderPoolWrapper_builds_on_first_Get s options pick r :
  exists (d : DecoderPoolWrapper) s1 (w : nat),
    NewDecoderPoolWrapper options s = Ok d s1 /\
    pools s !! dpw_pool d = None /\
    pools s1 =
      <[dpw_pool d := {| New := Some (NewDecoderFn options (dpw_pool d));
                         idle := [] |}]> (pools s) /\
    decs s1 = decs s /\ encs s1 = encs s /\ trace s1 = trace s /\
    decs s !! w = None /\
    trace (world_of (DecoderPoolWrapper_Get d pick r s1)) =
      trace s ++ [E_PoolGet (dpw_pool d); E_NewReader options;
                  E_SetFinalizer (DecPtr w); E_DecoderReset w r] /\
    forall d', Decoder_Reset Z (fst (NewReader Z None options)) r = Returns d' None ->
      exists s2,
        DecoderPoolWrapper_Get d pick r s1 = Ok w s2 /\
        decs s2 = <[w := {| dw_Decoder := d'; dw_pool := dpw_pool d |}]> (decs s) /\
        dec_fins s2 = <[w := Fin_Decoder_Close]> (dec_fins s) /\
        pools s2 = pools s1.
Proof.
  set (p := fresh (dom (pools s))). set (w := fresh (dom (decs s))).
  set (sp := {| New := Some (NewDecoderFn options p); idle := [] |} : SyncPool Z).
  set (s1 := set_pools <[p := sp]> s).
  assert (Hnew : NewDecoderPoolWrapper options s = Ok {| dpw_pool := p |} s1).
  { unfold NewDecoderPoolWrapper, mbind, M_bind. by rewrite NewDecoderPool_run. }
  assert (Hget : Pool_Get p pick s1 =
                 NewDecoderPool_New options p (emit (E_PoolGet p) s1)).
  { apply (Pool_Get_miss s1 p sp (NewDecoderFn options p));
      [apply lookup_insert_eq|done|done]. }
  exists {| dpw_pool := p |}, s1, w. simpl.
  split; [exact Hnew|]. split; [apply fresh_pool_unused|].
  split; [done|]. split; [done|]. split; [done|]. split; [done|].
  split; [apply fresh_dec_unused|].
  rewrite DecoderPoolWrapper_Get_run. simpl. rewrite Hget.
  rewrite NewDecoderPool_New_run. simpl. fold w. rewrite lookup_insert_eq. simpl.
  split.
  - destruct (Decoder_Reset Z (fst (NewReader Z None options)) r) as [d' [e|]|];
      simpl; by rewrite <- !app_assoc.
  - intros d' ->. eexists. split; [reflexivity|]. simpl.
    split; [by rewrite insert_insert_eq|done].
Qed.

(** X7. [NewEncoderPoolWrapper] likewise makes a new, empty pool and no
    encoder; the first [Get] on the facade calls the engine's constructor
    once, with no writer and the options given to [NewEncoderPoolWrapper],
    registers the finalizer and resets the new encoder against the writer of
    [Get]. *)
Theorem NewEncoderPoolWrapper_builds_on_first_Get s options pick t :
  exists (e : EncoderPoolWrapper) s1 (w : nat),
    NewEncoderPoolWrapper options s = Ok e s1 /\
    pools s !! epw_pool e = None /\
    pools s1 =
      <[epw_pool e := {| New := Some (NewEncoderFn options); idle := [] |}]> (pools s) /\
    decs s1 = decs s /\ encs s1 = encs s /\ trace s1 = trace s /\
    encs s !! w = None /\
    trace (world_of (EncoderPoolWrapper_Get e pick t s1)) =
      trace s ++ [E_PoolGet (epw_pool e); E_NewWriter options;
                  E_SetFinalizer (EncPtr w); E_EncoderReset w t] /\
    forall e', Encoder_Reset Z (fst (NewWriter Z None options)) t = Returns e' tt ->
      exists s2,
        EncoderPoolWrapper_Get e pick t s1 = Ok w s2 /\
        encs s2 = <[w := {| ew_Encoder := e' |}]> (encs s) /\
        enc_fins s2 = <[w := Fin_Encoder_Close]> (enc_fins s) /\
        pools s2 = pools s1.
Proof.
  set (p := fresh (dom (pools s))). set (w := fresh (dom (encs s))).
  set (sp := {| New := Some (NewEncoderFn options); idle := [] |} : SyncPool Z).
  set (s1 := set_pools <[p := sp]> s).
  assert (Hnew : NewEncoderPoolWrapper options s = Ok {| epw_pool := p |} s1).
  { unfold NewEncoderPoolWrapper, mbind, M_bind. by rewrite NewEncoderPool_run. }
  assert (Hget : Pool_Get p pick s1 =
                 NewEncoderPool_New options (emit (E_PoolGet p) s1)).
  { apply (Pool_Get_miss s1 p sp (NewEncoderFn options));
      [apply lookup_insert_eq|done|done]. }
  exists {| epw_pool := p |}, s1, w. simpl.
  split; [exact Hnew|]. split; [apply fresh_pool_unused|].
  split; [done|]. split; [done|]. split; [done|]. split; [done|].
  split; [apply fresh_enc_unused|].
  rewrite EncoderPoolWrapper_Get_run. simpl. rewrite Hget.
  rewrite NewEncoderPool_New_run. simpl. fold w. rewrite lookup_insert_eq. simpl.
  split.
  - destruct (Encoder_Reset Z (fst (NewWriter Z None options)) t) as [e' []|];
      simpl; by rewrite <- !app_assoc.
  - intros e' ->. eexists. split; [reflexivity|]. simpl.
    split; [by rewrite insert_insert_eq|done].
Qed.

(** ** Properties kept by every elementary change *)

Section Stable.

Context (closes raw : bool) (I : World Z -> Prop) (Hst : stable closes raw I).

Lemma st_decoder_Reset s w r : I s -> I (world_of (decoder_Reset w r s)).
Proof.
  intros HI. destruct (decs s !! w) as [dw|] eqn:Hw.
  - rewrite (decoder_Reset_run Z _ _ _ _ Hw).
    assert (I (emit (E_DecoderReset w r) s)) by (by apply (st_emit _ _ _ Hst)).
    destruct (Decoder_Reset Z (dw_Decoder dw) r) as [d' err|]; simpl; [|done].
    by apply (st_dec _ _ _ Hst (emit (E_DecoderReset w r) s) w dw).
  - by rewrite decoder_Reset_nil.
Qed.

Lemma st_encoder_Reset s w t : I s -> I (world_of (encoder_Reset w t s)).
Proof.
  intros HI. destruct (encs s !! w) as [ew|] eqn:Hw.
  - rewrite (encoder_Reset_run Z _ _ ew) by exact Hw.
    assert (I (emit (E_EncoderReset w t) s)) by (by apply (st_emit _ _ _ Hst)).
    destruct (Encoder_Reset Z (ew_Encoder ew) t) as [e' err|]; simpl; [|done].
    by apply (st_enc _ _ _ Hst (emit (E_EncoderReset w t) s) w ew).
  - by rewrite encoder_Reset_nil.
Qed.

Lemma st_Pool_Put_dec s P w :
  is_Some (decs s !! w) -> I s -> I (world_of (Pool_Put P (DecPtr w) s)).
Proof.
  intros Hw HI.
  assert (I (emit (E_PoolPut P (DecPtr w)) s)) by (by apply (st_emit _ _ _ Hst)).
  destruct (pools s !! P) as [sp|] eqn:Hp.
  - rewrite (Pool_Put_run Z _ _ sp) by (done || exact Hp). simpl.
    by apply (st_put_dec _ _ _ Hst (emit (E_PoolPut P (DecPtr w)) s)).
  - by rewrite Pool_Put_nil_pool.
Qed.

Lemma st_Pool_Put_enc s P w :
  is_Some (encs s !! w) -> I s -> I (world_of (Pool_Put P (EncPtr w) s)).
Proof.
  intros Hw HI.
  assert (I (emit (E_PoolPut P (EncPtr w)) s)) by (by apply (st_emit _ _ _ Hst)).
  destruct (pools s !! P) as [sp|] eqn:Hp.
  - rewrite (Pool_Put_run Z _ _ sp) by (done || exact Hp). simpl.
    by apply (st_put_enc _ _ _ Hst (emit (E_PoolPut P (EncPtr w)) s)).
  - by rewrite Pool_Put_nil_pool.
Qed.

Lemma st_Pool_Put_raw s P x :
  raw = true -> I s -> I (world_of (Pool_Put P x s)).
Proof.
  intros Hraw HI.
  assert (I (emit (E_PoolPut P x) s)) by (by apply (st_emit _ _ _ Hst)).
  destruct (decide (x = Nil)) as [->|Hnil]; [done|].
  destruct (pools s !! P) as [sp|] eqn:Hp.
  - rewrite (Pool_Put_run Z _ _ sp) by assumption. simpl.
    by apply (st_put_raw _ _ _ Hst Hraw (emit (E_PoolPut P x) s)).
  - by rewrite Pool_Put_nil_pool.
Qed.

Lemma st_call_factory s f p sp :
  pools s !! p = Some sp -> New sp = Some f ->
  I s -> I (world_of (call_factory f s)).
Proof.
  intros Hp Hn HI. destruct f as [o|o q]; cbn [call_factory].
  - by apply (st_build_enc _ _ _ Hst).
  - by apply (st_build_dec _ _ _ Hst s p sp).
Qed.

Lemma st_Pool_Get s p pick : I s -> I (world_of (Pool_Get p pick s)).
Proof.
  intros HI.
  assert (I (emit (E_PoolGet p) s)) by (by apply (st_emit _ _ _ Hst)).
  destruct (Pool_Get p pick s) as [x s1|v s1] eqn:Hget.
  - apply Pool_Get_Ok in Hget
      as (sp & Hp & [(i & _ & _ & ->)|[(f & Hn & Hf)|(_ & _ & ->)]]); simpl.
    + by apply (st_delete _ _ _ Hst (emit (E_PoolGet p) s)).
    + change s1 with (world_of (Ok (Z := Z) x s1)). rewrite <- Hf.
      by apply (st_call_factory _ _ p sp).
    + done.
  - by apply Pool_Get_Panic in Hget as (_ & _ & ->).
Qed.

Lemma st_Pool_New s p : I s -> I (world_of (Pool_New p s)).
Proof.
  intros HI. unfold Pool_New, mbind, M_bind, deref_pool.
  destruct (pools s !! p) as [sp|] eqn:Hp; [|exact HI].
  destruct (New sp) as [f|] eqn:Hn; [|exact HI].
  by apply (st_call_factory _ _ p sp).
Qed.

Lemma st_Pool_drop s p i : I s -> I (world_of (Pool_drop p i s)).
Proof.
  intros HI. unfold Pool_drop, mbind, M_bind, deref_pool, modify.
  destruct (pools s !! p) as [sp|] eqn:Hp; [|exact HI].
  simpl. by apply (st_delete _ _ _ Hst).
Qed.

(** After a [Reset] that returned, the wrapper exists. *)
Lemma decoder_Reset_Ok_allocated s w r err s1 :
  decoder_Reset w r s = Ok err s1 -> is_Some (decs s1 !! w).
Proof.
  destruct (decs s !! w) as [dw|] eqn:Hw.
  - rewrite (decoder_Reset_run Z _ _ _ _ Hw).
    destruct (Decoder_Reset Z (dw_Decoder dw) r) as [d' e|]; [|discriminate].
    intros [= _ <-]. simpl. rewrite lookup_insert_eq. eauto.
  - rewrite decoder_Reset_nil by exact Hw. discriminate.
Qed.

Lemma st_DecoderPoolWrapper_Put s (d : DecoderPoolWrapper) w :
  I s -> I (world_of (DecoderPoolWrapper_Put d w s)).
Proof.
  intros HI. unfold DecoderPoolWrapper_Put, mbind, M_bind.
  pose proof (st_decoder_Reset s w None HI) as H1.
  destruct (decoder_Reset w None s) as [[e|] s1|v s1] eqn:Hr; simpl in *; try exact H1.
  apply st_Pool_Put_dec; [|exact H1]. by apply decoder_Reset_Ok_allocated in Hr.
Qed.

Lemma st_DecoderWrapper_Close s w :
  I s -> I (world_of (DecoderWrapper_Close w s)).
Proof.
  intros HI. unfold DecoderWrapper_Close, mbind, M_bind.
  pose proof (st_decoder_Reset s w None HI) as H1.
  destruct (decoder_Reset w None s) as [[e|] s1|v s1] eqn:Hr; simpl in *; try exact H1.
  unfold deref_dec. destruct (decs s1 !! w) as [dw|] eqn:Hw; [|exact H1].
  apply st_Pool_Put_dec; [by rewrite Hw|exact H1].
Qed.

Lemma st_DecoderPoolWrapper_Get s (d : DecoderPoolWrapper) pick r :
  I s -> I (world_of (DecoderPoolWrapper_Get d pick r s)).
Proof.
  intros HI. unfold DecoderPoolWrapper_Get.
  apply world_of_bind_inv; [by apply st_Pool_Get|].
  intros x s1 H1. apply world_of_bind_inv; [by destruct x|].
  intros w s2 H2. apply world_of_bind_inv; [by apply st_decoder_Reset|].
  intros [e|] s3 H3; exact H3.
Qed.

Lemma st_EncoderPoolWrapper_Get s (e : EncoderPoolWrapper) pick t :
  I s -> I (world_of (EncoderPoolWrapper_Get e pick t s)).
Proof.
  intros HI. unfold EncoderPoolWrapper_Get.
  apply world_of_bind_inv; [by apply st_Pool_Get|].
  intros x s1 H1. apply world_of_bind_inv; [by destruct x|].
  intros w s2 H2. apply world_of_bind_inv; [by apply st_encoder_Reset|].
  intros _ s3 H3; exact H3.
Qed.

Lemma st_EncoderPoolWrapper_Put s (e : EncoderPoolWrapper) w :
  I s -> I (world_of (EncoderPoolWrapper_Put e w s)).
Proof.
  intros HI. unfold EncoderPoolWrapper_Put, mbind, M_bind.
  pose proof (st_encoder_Reset s w None HI) as H1.
  destruct (encoder_Reset w None s) as [[] s1|v s1] eqn:Hr; simpl in *; [|exact H1].
  apply st_Pool_Put_enc; [|exact H1].
  apply encoder_Reset_Ok in Hr as (ew & e' & _ & _ & ->).
  simpl. rewrite lookup_insert_eq. eauto.
Qed.

Lemma st_NewDecoderPool s options :
  I s -> I (world_of (NewDecoderPool options s)).
Proof.
  intros HI. rewrite NewDecoderPool_run. simpl.
  apply (st_new_dec_pool _ _ _ Hst); [apply fresh_pool_unused|exact HI].
Qed.

Lemma st_NewEncoderPool s options :
  I s -> I (world_of (NewEncoderPool options s)).
Proof.
  intros HI. rewrite NewEncoderPool_run. simpl.
  apply (st_new_enc_pool _ _ _ Hst); [apply fresh_pool_unused|exact HI].
Qed.

Lemma st_run_finalizer s x :
  closes = true -> I s -> I (world_of (run_finalizer x s)).
Proof.
  intros Hc HI. unfold run_finalizer. destruct x as [|w|w|tag]; try exact HI.
  - destruct (enc_fins s !! w) as [[]|] eqn:Hf; [|exact HI].
    cbn [enc_finalizer_body]. unfold NewEncoderPool_finalizer.
    rewrite world_of_then_ret. apply (st_fin_enc _ _ _ Hst Hc); [by rewrite Hf|exact HI].
  - destruct (dec_fins s !! w) as [[]|] eqn:Hf; [|exact HI].
    cbn [dec_finalizer_body]. unfold NewDecoderPool_finalizer.
    apply (st_fin_dec _ _ _ Hst Hc); [by rewrite Hf|exact HI].
Qed.

(** One covered step keeps the property, and so does a sequence of them. *)
Lemma st_exec s (o : op Z) :
  covered closes raw o s = true -> I s -> I (exec o s).
Proof.
  unfold covered. intros [Hc Hr]%andb_prop HI. unfold exec.
  destruct o; cbn [run_op gentle no_raw_put] in *; rewrite ?world_of_then_ret.
  - unfold NewDecoderPoolWrapper. rewrite world_of_bind_ret.
    by apply st_NewDecoderPool.
  - unfold NewEncoderPoolWrapper. rewrite world_of_bind_ret.
    by apply st_NewEncoderPool.
  - by apply st_Pool_New.
  - by apply st_DecoderPoolWrapper_Get.
  - by apply st_DecoderPoolWrapper_Put.
  - by apply st_DecoderWrapper_Close.
  - unfold decoderReadCloser_Close. rewrite world_of_then_ret.
    by apply st_DecoderWrapper_Close.
  - by apply st_EncoderPoolWrapper_Get.
  - by apply st_EncoderPoolWrapper_Put.
  - by apply st_decoder_Reset.
  - by apply st_encoder_Reset.
  - rewrite orb_false_r in Hc. by apply (st_close_dec _ _ _ Hst Hc).
  - rewrite orb_false_r in Hc. by apply (st_close_enc _ _ _ Hst Hc).
  - rewrite orb_false_r in Hc. by apply st_run_finalizer.
  - by apply st_Pool_drop.
  - by apply st_Pool_Get.
  - rewrite orb_false_r in Hr. by apply st_Pool_Put_raw.
Qed.

Lemma st_exec_all (tr : list (op Z)) s :
  admissible (covered closes raw) tr s = true -> I s -> I (exec_all tr s).
Proof.
  revert s. induction tr as [|o tr IH]; intros s Hadm HI; [exact HI|].
  simpl in Hadm. apply andb_prop in Hadm as [Hok Hadm].
  simpl. apply IH; [exact Hadm|]. by apply st_exec.
Qed.

End Stable.

Lemma admissible_all (tr : list (op Z)) s : admissible (covered true true) tr s = true.
Proof. revert s. induction tr as [|o tr IH]; intros s; simpl; [done|apply IH]. Qed.

Lemma admissible_gentle (tr : list (op Z)) s :
  forallb gentle tr = true -> admissible (covered false true) tr s = true.
Proof.
  revert s. induction tr as [|o tr IH]; intros s; simpl; [done|].
  intros [Ho Htr]%andb_prop. unfold covered at 1. simpl.
  rewrite Ho, andb_true_r. simpl. by apply IH.
Qed.


(** ** The package closes no handle *)

Lemma quiet_trace_stable (t0 : list (event Z)) :
  stable false true
    (fun s => exists evs, trace s = t0 ++ evs /\ forallb quiet evs = true).
Proof.
  split; try done; try discriminate.
  - intros e s He (evs & Htr & Hq). exists (evs ++ [e]). simpl.
    rewrite Htr, <- app_assoc. split; [done|].
    rewrite forallb_app, Hq. simpl. by rewrite He.
  - intros s p sp o q _ _ (evs & Htr & Hq). rewrite NewDecoderPool_New_run. simpl.
    exists (evs ++ [E_NewReader o; E_SetFinalizer (DecPtr (fresh (dom (decs s))))]).
    rewrite Htr, <- !app_assoc. split; [done|].
    rewrite forallb_app, Hq. done.
  - intros s o (evs & Htr & Hq). rewrite NewEncoderPool_New_run. simpl.
    exists (evs ++ [E_NewWriter o; E_SetFinalizer (EncPtr (fresh (dom (encs s))))]).
    rewrite Htr, <- !app_assoc. split; [done|].
    rewrite forallb_app, Hq. done.
Qed.

(** X8. No function of the package calls the engine's terminal [Close]:
    whatever sequence of acquisitions, releases, adapter closes,
    constructions, uses of a wrapper and pool accesses is run, from whatever
    world, the calls it adds contain no [Close] of a decoder or of an
    encoder.  Only the finalizers, and a holder calling [Close] on the handle
    itself, close a handle. *)
Theorem package_never_closes_a_handle (tr : list (op Z)) s :
  forallb gentle tr = true ->
  exists evs,
    trace (exec_all tr s) = trace s ++ evs /\
    forall w, (E_DecoderClose w ∉ evs) /\ (E_EncoderClose w ∉ evs).
Proof.
  intros Hg.
  destruct (st_exec_all _ _ _ (quiet_trace_stable (trace s)) tr s
              (admissible_gentle tr s Hg)) as (evs & Htr & Hq).
  { exists []. by rewrite app_nil_r. }
  exists evs. split; [exact Htr|].
  intros w. rewrite forallb_forall in Hq.
  split; intros Hin%list_elem_of_In; by apply Hq in Hin.
Qed.

(** ** Every wrapper keeps its finalizer *)

Lemma dom_insert_same {A} (m : gmap nat A) w x y :
  m !! w = Some x -> dom (<[w := y]> m) = dom m.
Proof.
  intros Hw. apply set_eq. intros k. rewrite !elem_of_dom.
  destruct (decide (w = k)) as [->|Hne].
  - rewrite lookup_insert_eq, Hw. split; eauto.
  - by rewrite lookup_insert_ne.
Qed.

Lemma decoder_Close_armed s w :
  is_Some (decs s !! w) ->
  E_DecoderClose w ∈ trace (world_of (decoder_Close w s)).
Proof.
  intros [dw Hw]. rewrite (decoder_Close_run Z _ _ _ Hw).
  destruct (Decoder_Close Z (dw_Decoder dw)) as [d' []|]; simpl;
    apply elem_of_app; right; apply list_elem_of_here.
Qed.

Lemma encoder_Close_armed s w :
  is_Some (encs s !! w) ->
  E_EncoderClose w ∈ trace (world_of (encoder_Close w s)).
Proof.
  intros [ew Hw]. rewrite (encoder_Close_run Z _ _ ew) by exact Hw.
  destruct (Encoder_Close Z (ew_Encoder ew)) as [e' err|]; simpl;
    apply elem_of_app; right; apply list_elem_of_here.
Qed.

(** What [decoder_Close] and [encoder_Close] leave alone. *)
Lemma decoder_Close_frame s w :
  let s' := world_of (decoder_Close w s) in
  dom (decs s') = dom (decs s) /\ encs s' = encs s /\
  dec_fins s' = dec_fins s /\ enc_fins s' = enc_fins s /\ pools s' = pools s /\
  exists evs, trace s' = trace s ++ evs.
Proof.
  destruct (decs s !! w) as [dw|] eqn:Hw; simpl.
  - rewrite (decoder_Close_run Z _ _ _ Hw).
    destruct (Decoder_Close Z (dw_Decoder dw)) as [d' []|]; simpl.
    + repeat split; eauto. by apply (dom_insert_same _ _ _ _ Hw).
    + repeat split; eauto.
  - rewrite decoder_Close_nil by exact Hw. simpl.
    repeat split; try done. exists []. by rewrite app_nil_r.
Qed.

Lemma encoder_Close_frame s w :
  let s' := world_of (encoder_Close w s) in
  dom (encs s') = dom (encs s) /\ decs s' = decs s /\
  dec_fins s' = dec_fins s /\ enc_fins s' = enc_fins s /\ pools s' = pools s /\
  exists evs, trace s' = trace s ++ evs.
Proof.
  destruct (encs s !! w) as [ew|] eqn:Hw; simpl.
  - rewrite (encoder_Close_run Z _ _ ew) by exact Hw.
    destruct (Encoder_Close Z (ew_Encoder ew)) as [e' err|]; simpl.
    + repeat split; eauto. by apply (dom_insert_same _ _ _ _ Hw).
    + repeat split; eauto.
  - rewrite encoder_Close_nil by exact Hw. simpl.
    repeat split; try done. exists []. by rewrite app_nil_r.
Qed.

(** [armed] looks at which wrappers exist, at the finalizers and at the
    calls made; it survives any change that keeps the wrappers and the
    finalizers and adds calls. *)
Lemma armed_ext s s' :
  dom (decs s') = dom (decs s) -> dom (encs s') = dom (encs s) ->
  dec_fins s' = dec_fins s -> enc_fins s' = enc_fins s ->
  (exists evs, trace s' = trace s ++ evs) ->
  armed s -> armed s'.
Proof.
  intros Hd He Hdf Hef [evs Htr] [Hdec Henc]. split.
  - intros w Hw. rewrite Hdf, Htr.
    apply elem_of_dom in Hw. rewrite Hd in Hw. apply elem_of_dom in Hw.
    destruct (Hdec w Hw) as [?|?]; [by left|right].
    apply elem_of_app. by left.
  - intros w Hw. rewrite Hef, Htr.
    apply elem_of_dom in Hw. rewrite He in Hw. apply elem_of_dom in Hw.
    destruct (Henc w Hw) as [?|?]; [by left|right].
    apply elem_of_app. by left.
Qed.

Lemma armed_stable : stable true true (armed (Z := Z)).
Proof.
  split.
  - intros e s _. apply armed_ext; try done. by exists [e].
  - intros s w dw d' Hw. apply armed_ext; try done.
    + simpl. by apply (dom_insert_same _ _ _ _ Hw).
    + exists []. by rewrite app_nil_r.
  - intros s w ew e' Hw. apply armed_ext; try done.
    + simpl. by apply (dom_insert_same _ _ _ _ Hw).
    + exists []. by rewrite app_nil_r.
  - intros s p sp i _. apply armed_ext; try done. exists []. by rewrite app_nil_r.
  - intros s p sp w _ _. apply armed_ext; try done. exists []. by rewrite app_nil_r.
  - intros s p sp w _ _. apply armed_ext; try done. exists []. by rewrite app_nil_r.
  - intros _ s p sp x _. apply armed_ext; try done. exists []. by rewrite app_nil_r.
  - intros s p o _. apply armed_ext; try done. exists []. by rewrite app_nil_r.
  - intros s p o _. apply armed_ext; try done. exists []. by rewrite app_nil_r.
  - intros s p sp o q _ _ [Hdec Henc]. rewrite NewDecoderPool_New_run. simpl.
    split; simpl.
    + intros w Hw. destruct (decide (w = fresh (dom (decs s)))) as [->|Hne].
      * left. apply lookup_insert_eq.
      * rewrite lookup_insert_ne in Hw by done. rewrite lookup_insert_ne by done.
        destruct (Hdec w Hw) as [?|?]; [by left|right].
        rewrite <- !app_assoc. apply elem_of_app. by left.
    + intros w Hw. destruct (Henc w Hw) as [?|?]; [by left|right].
      rewrite <- !app_assoc. apply elem_of_app. by left.
  - intros s o [Hdec Henc]. rewrite NewEncoderPool_New_run. simpl.
    split; simpl.
    + intros w Hw. destruct (Hdec w Hw) as [?|?]; [by left|right].
      rewrite <- !app_assoc. apply elem_of_app. by left.
    + intros w Hw. destruct (decide (w = fresh (dom (encs s)))) as [->|Hne].
      * left. apply lookup_insert_eq.
      * rewrite lookup_insert_ne in Hw by done. rewrite lookup_insert_ne by done.
        destruct (Henc w Hw) as [?|?]; [by left|right].
        rewrite <- !app_assoc. apply elem_of_app. by left.
  - intros _ s w. destruct (decoder_Close_frame s w) as (? & ? & ? & ? & _ & ?).
    by apply armed_ext; [|congruence| | |].
  - intros _ s w. destruct (encoder_Close_frame s w) as (? & ? & ? & ? & _ & ?).
    by apply armed_ext; [congruence| | | |].
  - intros _ s w _ [Hdec Henc].
    set (s0 := set_dec_fins (delete w) s).
    destruct (decoder_Close_frame s0 w) as (Hd & He & Hdf & Hef & _ & [evs Htr]).
    split.
    + intros w' Hw'. apply elem_of_dom in Hw'. rewrite Hd in Hw'.
      apply elem_of_dom in Hw'. change (decs s0) with (decs s) in Hw'.
      destruct (decide (w' = w)) as [->|Hne].
      * right. by apply decoder_Close_armed.
      * rewrite Hdf, Htr. simpl. rewrite lookup_delete_ne by done.
        destruct (Hdec w' Hw') as [?|?]; [by left|right].
        apply elem_of_app. by left.
    + intros w' Hw'. rewrite He in Hw'. rewrite Hef, Htr.
      destruct (Henc w' Hw') as [?|?]; [by left|right].
      apply elem_of_app. by left.
  - intros _ s w _ [Hdec Henc].
    set (s0 := set_enc_fins (delete w) s).
    destruct (encoder_Close_frame s0 w) as (He & Hd & Hdf & Hef & _ & [evs Htr]).
    split.
    + intros w' Hw'. rewrite Hd in Hw'. rewrite Hdf, Htr.
      destruct (Hdec w' Hw') as [?|?]; [by left|right].
      apply elem_of_app. by left.
    + intros w' Hw'. apply elem_of_dom in Hw'. rewrite He in Hw'.
      apply elem_of_dom in Hw'. change (encs s0) with (encs s) in Hw'.
      destruct (decide (w' = w)) as [->|Hne].
      * right. by apply encoder_Close_armed.
      * rewrite Hef, Htr. simpl. rewrite lookup_delete_ne by done.
        destruct (Henc w' Hw') as [?|?]; [by left|right].
        apply elem_of_app. by left.
Qed.

(** X9. The leak backstop is never lost.  After any sequence of steps
    whatever from the empty world, every decoder wrapper and every encoder
    wrapper that exists either still carries the finalizer registered by its
    construction function, or the engine's [Close] has been called on its
    handle. *)
Theorem every_wrapper_stays_armed (tr : list (op Z)) :
  let s := exec_all tr (empty_world Z) in
  (forall w, is_Some (decs s !! w) ->
     dec_fins s !! w = Some Fin_Decoder_Close \/ E_DecoderClose w ∈ trace s) /\
  (forall w, is_Some (encs s !! w) ->
     enc_fins s !! w = Some Fin_Encoder_Close \/ E_EncoderClose w ∈ trace s).
Proof.
  apply (st_exec_all _ _ _ armed_stable tr _ (admissible_all tr _)).
  split; intros w [x Hw]; simpl in Hw; by rewrite lookup_empty in Hw.
Qed.

(** ** Wrappers, pools and the references between them *)

Lemma self_ref_ext s s' : pools s' = pools s -> self_ref s -> self_ref s'.
Proof. intros Hp H p sp o q. rewrite Hp. apply H. Qed.

Lemma self_ref_set_idle s p sp l :
  pools s !! p = Some sp -> self_ref s ->
  self_ref (set_pools <[p := {| New := New sp; idle := l |}]> s).
Proof.
  intros Hp H q sq o r Hq Hn. simpl in Hq.
  destruct (decide (p = q)) as [->|Hne].
  - rewrite lookup_insert_eq in Hq. injection Hq as <-. by apply (H q sp o).
  - rewrite lookup_insert_ne in Hq by done. by apply (H q sq o).
Qed.

Lemma self_ref_stable : stable true true (self_ref (Z := Z)).
Proof.
  split.
  - intros e s _. by apply self_ref_ext.
  - intros s w dw d' _. by apply self_ref_ext.
  - intros s w ew e' _. by apply self_ref_ext.
  - intros s p sp i. apply self_ref_set_idle.
  - intros s p sp w Hp _. by apply self_ref_set_idle.
  - intros s p sp w Hp _. by apply self_ref_set_idle.
  - intros _ s p sp x. apply self_ref_set_idle.
  - intros s p o Hp H q sq o' r Hq Hn. simpl in Hq.
    destruct (decide (p = q)) as [->|Hne].
    + rewrite lookup_insert_eq in Hq. injection Hq as <-. simpl in Hn. congruence.
    + rewrite lookup_insert_ne in Hq by done. by apply (H q sq o').
  - intros s p o Hp H q sq o' r Hq Hn. simpl in Hq.
    destruct (decide (p = q)) as [->|Hne].
    + rewrite lookup_insert_eq in Hq. injection Hq as <-. discriminate.
    + rewrite lookup_insert_ne in Hq by done. by apply (H q sq o').
  - intros s p sp o q _ _. rewrite NewDecoderPool_New_run. by apply self_ref_ext.
  - intros s o. rewrite NewEncoderPool_New_run. by apply self_ref_ext.
  - intros _ s w. destruct (decoder_Close_frame s w) as (_ & _ & _ & _ & ? & _).
    by apply self_ref_ext.
  - intros _ s w. destruct (encoder_Close_frame s w) as (_ & _ & _ & _ & ? & _).
    by apply self_ref_ext.
  - intros _ s w _.
    destruct (decoder_Close_frame (set_dec_fins (delete w) s) w)
      as (_ & _ & _ & _ & ? & _).
    by apply self_ref_ext.
  - intros _ s w _.
    destruct (encoder_Close_frame (set_enc_fins (delete w) s) w)
      as (_ & _ & _ & _ & ? & _).
    by apply self_ref_ext.
Qed.

Lemma grows_from_refl s : grows_from s s.
Proof. split; [|split]; eauto. Qed.

Lemma grows_from_trans s1 s2 s3 :
  grows_from s1 s2 -> grows_from s2 s3 -> grows_from s1 s3.
Proof.
  intros (Hd1 & He1 & Hp1) (Hd2 & He2 & Hp2). split; [|split].
  - intros w dw Hw. destruct (Hd1 _ _ Hw) as (dw' & Hw' & Heq).
    destruct (Hd2 _ _ Hw') as (dw'' & Hw'' & Heq'). exists dw''. split; congruence.
  - intros w Hw. by apply He2, He1.
  - intros p sp Hp. destruct (Hp1 _ _ Hp) as (sp' & Hp' & Heq).
    destruct (Hp2 _ _ Hp') as (sp'' & Hp'' & Heq'). exists sp''. split; congruence.
Qed.

(** The elementary changes, one by one. *)
Lemma grows_same s s' :
  decs s' = decs s -> encs s' = encs s -> pools s' = pools s -> grows_from s s'.
Proof. intros Hd He Hp. unfold grows_from. rewrite Hd, He, Hp. apply grows_from_refl. Qed.

Lemma grows_set_dec s w dw d' :
  decs s !! w = Some dw ->
  grows_from s (set_decs <[w := {| dw_Decoder := d'; dw_pool := dw_pool dw |}]> s).
Proof.
  intros Hw. split; [|split]; simpl; eauto.
  intros w0 dw0 Hw0. destruct (decide (w = w0)) as [->|Hne].
  - rewrite lookup_insert_eq. eexists. split; [done|]. simpl. congruence.
  - rewrite lookup_insert_ne by done. eauto.
Qed.

Lemma grows_alloc_dec s l (c : DecoderWrapper Z) :
  decs s !! l = None -> grows_from s (set_decs <[l := c]> s).
Proof.
  intros Hl. split; [|split]; simpl; eauto.
  intros w0 dw0 Hw0. rewrite lookup_insert_ne by congruence. eauto.
Qed.

Lemma grows_set_enc s w (c : EncoderWrapper Z) :
  grows_from s (set_encs <[w := c]> s).
Proof.
  split; [|split]; simpl; eauto.
  intros w0 Hw0. destruct (decide (w = w0)) as [->|Hne].
  - rewrite lookup_insert_eq. eauto.
  - by rewrite lookup_insert_ne.
Qed.

Lemma grows_set_idle s p sp l :
  pools s !! p = Some sp ->
  grows_from s (set_pools <[p := {| New := New sp; idle := l |}]> s).
Proof.
  intros Hp. split; [|split]; simpl; eauto.
  intros q sq Hq. destruct (decide (p = q)) as [->|Hne].
  - rewrite lookup_insert_eq. eexists. split; [done|]. simpl. congruence.
  - rewrite lookup_insert_ne by done. eauto.
Qed.

Lemma grows_new_pool s p sp :
  pools s !! p = None -> grows_from s (set_pools <[p := sp]> s).
Proof.
  intros Hp. split; [|split]; simpl; eauto.
  intros q sq Hq. rewrite lookup_insert_ne by congruence. eauto.
Qed.

Lemma grows_decoder_Close s w : grows_from s (world_of (decoder_Close w s)).
Proof.
  destruct (decs s !! w) as [dw|] eqn:Hw.
  - rewrite (decoder_Close_run Z _ _ _ Hw).
    destruct (Decoder_Close Z (dw_Decoder dw)) as [d' []|]; simpl.
    + apply (grows_from_trans _ (emit (E_DecoderClose w) s)); [by apply grows_same|].
      by apply (grows_set_dec (emit (E_DecoderClose w) s)).
    + by apply grows_same.
  - rewrite decoder_Close_nil by exact Hw. apply grows_from_refl.
Qed.

Lemma grows_encoder_Close s w : grows_from s (world_of (encoder_Close w s)).
Proof.
  destruct (encs s !! w) as [ew|] eqn:Hw.
  - rewrite (encoder_Close_run Z _ _ ew) by exact Hw.
    destruct (Encoder_Close Z (ew_Encoder ew)) as [e' err|]; simpl.
    + apply (grows_from_trans _ (emit (E_EncoderClose w) s)); [by apply grows_same|].
      apply (grows_set_enc (emit (E_EncoderClose w) s)).
    + by apply grows_same.
  - rewrite encoder_Close_nil by exact Hw. apply grows_from_refl.
Qed.

Lemma grows_from_stable s0 : stable true true (grows_from s0).
Proof.
  split.
  - intros e s _ H. apply (grows_from_trans _ _ _ H). by apply grows_same.
  - intros s w dw d' Hw H. apply (grows_from_trans _ _ _ H). by apply grows_set_dec.
  - intros s w ew e' _ H. apply (grows_from_trans _ _ _ H). apply grows_set_enc.
  - intros s p sp i Hp H. apply (grows_from_trans _ _ _ H). by apply grows_set_idle.
  - intros s p sp w Hp _ H. apply (grows_from_trans _ _ _ H). by apply grows_set_idle.
  - intros s p sp w Hp _ H. apply (grows_from_trans _ _ _ H). by apply grows_set_idle.
  - intros _ s p sp x Hp H. apply (grows_from_trans _ _ _ H). by apply grows_set_idle.
  - intros s p o Hp H. apply (grows_from_trans _ _ _ H). by apply grows_new_pool.
  - intros s p o Hp H. apply (grows_from_trans _ _ _ H). by apply grows_new_pool.
  - intros s p sp o q _ _ H. apply (grows_from_trans _ _ _ H).
    rewrite NewDecoderPool_New_run. simpl.
    apply (grows_from_trans _ (set_decs <[fresh (dom (decs s)) :=
             {| dw_Decoder := fst (NewReader Z None o); dw_pool := q |}]> s)).
    + apply grows_alloc_dec, fresh_dec_unused.
    + by apply grows_same.
  - intros s o H. apply (grows_from_trans _ _ _ H).
    rewrite NewEncoderPool_New_run. simpl.
    apply (grows_from_trans _ (set_encs <[fresh (dom (encs s)) :=
             {| ew_Encoder := fst (NewWriter Z None o) |}]> s)).
    + apply grows_set_enc.
    + by apply grows_same.
  - intros _ s w H. apply (grows_from_trans _ _ _ H), grows_decoder_Close.
  - intros _ s w H. apply (grows_from_trans _ _ _ H), grows_encoder_Close.
  - intros _ s w _ H. apply (grows_from_trans _ _ _ H).
    apply (grows_from_trans _ (set_dec_fins (delete w) s)); [by apply grows_same|].
    apply grows_decoder_Close.
  - intros _ s w _ H. apply (grows_from_trans _ _ _ H).
    apply (grows_from_trans _ (set_enc_fins (delete w) s)); [by apply grows_same|].
    apply grows_encoder_Close.
Qed.

(** What [DecoderPoolWrapper.Get] has done when it returns. *)
Lemma DecoderPoolWrapper_Get_Ok s (d : DecoderPoolWrapper) pick r w s1 :
  DecoderPoolWrapper_Get d pick r s = Ok w s1 ->
  exists s0 dw0 d',
    Pool_Get (dpw_pool d) pick s = Ok (DecPtr w) s0 /\
    decs s0 !! w = Some dw0 /\
    Decoder_Reset Z (dw_Decoder dw0) r = Returns d' None /\
    s1 = set_decs <[w := {| dw_Decoder := d'; dw_pool := dw_pool dw0 |}]>
           (emit (E_DecoderReset w r) s0).
Proof.
  rewrite DecoderPoolWrapper_Get_run.
  destruct (Pool_Get (dpw_pool d) pick s) as [x s0|v s0]; [|discriminate].
  destruct x as [|l|w0|tag]; try discriminate.
  destruct (decs s0 !! w0) as [dw0|] eqn:Hw; [|discriminate].
  destruct (Decoder_Reset Z (dw_Decoder dw0) r) as [d' [e|]|] eqn:Hr;
    try discriminate.
  intros [= <- <-]. eauto 10.
Qed.

(** X10. For a wrapper that a facade's [Get] has built, [DecoderWrapper.Close]
    and the facade's [Put] are one and the same operation, right after the
    [Get] and after any further steps whatever: the wrapper refers to the
    facade's pool and never to another. *)
Theorem Close_is_Put_for_a_wrapper_built_by_the_facade
    (tr tr' : list (op Z)) (d : DecoderPoolWrapper) pick r w s1 :
  is_decoder_pool (exec_all tr (empty_world Z)) (dpw_pool d) = true ->
  decs (exec_all tr (empty_world Z)) !! w = None ->
  DecoderPoolWrapper_Get d pick r (exec_all tr (empty_world Z)) = Ok w s1 ->
  (exists dw, decs (exec_all tr' s1) !! w = Some dw /\ dw_pool dw = dpw_pool d) /\
  DecoderWrapper_Close w (exec_all tr' s1) =
  DecoderPoolWrapper_Put d w (exec_all tr' s1).
Proof.
  set (s := exec_all tr (empty_world Z)). intros Hd Hnew Hget.
  assert (Hself : self_ref s).
  { apply (st_exec_all _ _ _ self_ref_stable tr _ (admissible_all tr _)).
    intros p sp o q Hp. simpl in Hp. by rewrite lookup_empty in Hp. }
  apply DecoderPoolWrapper_Get_Ok in Hget as (s0 & dw0 & d' & Hpg & Hw0 & Hr & ->).
  assert (Hpool : dw_pool dw0 = dpw_pool d).
  { apply is_decoder_pool_spec in Hd as (sp & o & q & Hp & Hn).
    apply Pool_Get_Ok in Hpg
      as (sp' & Hp' & [(i & _ & _ & ->)|[(f & Hn' & Hf)|(_ & [=] & _)]]).
    - simpl in Hw0. congruence.
    - rewrite Hp in Hp'. injection Hp' as <-. rewrite Hn in Hn'. injection Hn' as <-.
      cbn [call_factory] in Hf. rewrite NewDecoderPool_New_run in Hf.
      injection Hf as <- <-. simpl in Hw0. rewrite lookup_insert_eq in Hw0.
      injection Hw0 as <-. simpl. by apply (Hself _ _ _ _ Hp Hn). }
  set (s1 := set_decs _ _).
  assert (Hgrow : grows_from s1 (exec_all tr' s1)).
  { apply (st_exec_all _ _ _ (grows_from_stable s1) tr' _ (admissible_all tr' _)).
    apply grows_from_refl. }
  destruct (proj1 Hgrow w {| dw_Decoder := d'; dw_pool := dw_pool dw0 |})
    as (dw & Hw & Hpool'); [apply lookup_insert_eq|].
  simpl in Hpool'. split; [exists dw; split; [done|congruence]|].
  rewrite (DecoderWrapper_Close_run Z _ _ _ Hw).
  rewrite (DecoderPoolWrapper_Put_run Z _ d _ _ Hw).
  by rewrite Hpool', Hpool.
Qed.

(** ** Under the usage discipline, no nil pointer *)







(** ** Exclusive hand-out *)

(** X12. Under exclusive ownership, the wrapper that
    [DecoderPoolWrapper.Get] returns is idle in no pool, and no pool hands it
    out again as things stand, so the next [Get] returns another wrapper.
    It is open and bound to the reader
    given to [Get], on an engine on which a successful [Reset] rebinds. *)
Theorem Get_hands_out_an_exclusive_open_wrapper (tr : list (op Z))
    (d : DecoderPoolWrapper) pick r w s' :
  reset_rebinds Z ->
  admissible owner_ok tr (empty_world Z) = true ->
  DecoderPoolWrapper_Get d pick r (exec_all tr (empty_world Z)) = Ok w s' ->
  (forall p sp, pools s' !! p = Some sp -> DecPtr w ∉ idle sp) /\
  (forall q pick' x s'', Pool_Get q pick' s' = Ok x s'' -> x <> DecPtr w) /\
  (forall (d2 : DecoderPoolWrapper) pick2 r2 w2 s2,
     DecoderPoolWrapper_Get d2 pick2 r2 s' = Ok w2 s2 -> w2 <> w) /\
  exists dw,
    decs s' !! w = Some dw /\
    Decoder_closed Z (dw_Decoder dw) = false /\
    Decoder_source Z (dw_Decoder dw) = r.
Proof.
  intros Hlaw Hadm Hget.
  pose proof (own_inv_exec_all Z tr _ Hlaw Hadm (own_inv_empty Z)) as Hinv.
  apply DecoderPoolWrapper_Get_Ok in Hget as (s0 & dw0 & d' & Hpg & Hw0 & Hr & ->).
  destruct (own_inv_Pool_Get_Ok Z _ _ _ _ _ Hinv Hpg) as [Hinv0 Hnow].
  specialize (Hnow w eq_refl).
  assert (Hidle : forall p sp,
    pools (set_decs <[w := {| dw_Decoder := d'; dw_pool := dw_pool dw0 |}]>
             (emit (E_DecoderReset w r) s0)) !! p = Some sp -> DecPtr w ∉ idle sp)
    by (intros p sp Hp; exact (Hnow p sp Hp)).
  split; [exact Hidle|].
  assert (Hnever : forall q pick' x s'',
    Pool_Get q pick'
      (set_decs <[w := {| dw_Decoder := d'; dw_pool := dw_pool dw0 |}]>
         (emit (E_DecoderReset w r) s0)) = Ok x s'' -> x <> DecPtr w).
  2: { split; [exact Hnever|]. split.
       - intros d2 pick2 r2 w2 s2 Hget2 ->.
         apply DecoderPoolWrapper_Get_Ok in Hget2 as (s3 & _ & _ & Hpg2 & _).
         by apply Hnever in Hpg2.
       - eexists. split; [apply lookup_insert_eq|]. simpl.
         destruct (Hlaw _ _ _ Hr) as (? & ? & _). done. }
  - intros q pick' x s'' Hget' ->.
    apply Pool_Get_Ok in Hget'
      as (sp & Hp & [(i & _ & Hi & _)|[(f & _ & Hf)|(_ & [=] & _)]]).
    + apply (Hidle _ _ Hp). eapply list_elem_of_lookup_2, Hi.
    + destruct f as [o|o q']; cbn [call_factory] in Hf.
      * rewrite NewEncoderPool_New_run in Hf. discriminate.
      * rewrite NewDecoderPool_New_run in Hf. injection Hf as Hf _.
        pose proof (fresh_dec_unused Z (emit (E_PoolGet q)
          (set_decs <[w := {| dw_Decoder := d'; dw_pool := dw_pool dw0 |}]>
             (emit (E_DecoderReset w r) s0)))) as Hfresh.
        simpl in Hfresh, Hf. rewrite Hf, lookup_insert_eq in Hfresh. discriminate.
Qed.

(** ** Other wrappers are left alone *)

Lemma Pool_Put_decs s P x : decs (world_of (Pool_Put P x s)) = decs s.
Proof.
  destruct (decide (x = Nil)) as [->|Hx]; [done|].
  destruct (pools s !! P) as [sp|] eqn:Hp.
  - by rewrite (Pool_Put_run Z _ _ sp).
  - by rewrite Pool_Put_nil_pool.
Qed.

Lemma decoder_Reset_other s w r w' :
  w' <> w -> decs (world_of (decoder_Reset w r s)) !! w' = decs s !! w'.
Proof.
  intros Hne. destruct (decs s !! w) as [dw|] eqn:Hw.
  - rewrite (decoder_Reset_run Z _ _ _ _ Hw).
    destruct (Decoder_Reset Z (dw_Decoder dw) r) as [d' err|]; simpl; [|done].
    by rewrite lookup_insert_ne.
  - by rewrite decoder_Reset_nil.
Qed.

(** X13. Releasing a decoder wrapper, by [DecoderWrapper.Close] or by
    [DecoderPoolWrapper.Put], and acquiring one by [DecoderPoolWrapper.Get]
    change the handle of that wrapper only: every other decoder wrapper, and
    every encoder wrapper, is as before. *)
Theorem release_and_Get_leave_other_wrappers_alone s (d : DecoderPoolWrapper) w w' :
  w' <> w ->
  decs (world_of (DecoderWrapper_Close w s)) !! w' = decs s !! w' /\
  decs (world_of (DecoderPoolWrapper_Put d w s)) !! w' = decs s !! w' /\
  encs (world_of (DecoderWrapper_Close w s)) = encs s /\
  encs (world_of (DecoderPoolWrapper_Put d w s)) = encs s /\
  forall pick r s', DecoderPoolWrapper_Get d pick r s = Ok w s' ->
    decs s' !! w' = decs s !! w' /\ encs s' = encs s.
Proof.
  intros Hne.
  assert (Hrel : forall P,
    let s' := world_of
      (match decoder_Reset w None s with
       | Ok None s1 => Pool_Put P (DecPtr w) s1
       | Ok (Some _) s1 => Ok tt s1
       | Panic v s1 => Panic v s1
       end) in
    decs s' !! w' = decs s !! w' /\ encs s' = encs s).
  { intros P. pose proof (decoder_Reset_other s w None w' Hne) as Hd.
    assert (He : encs (world_of (decoder_Reset w None s)) = encs s).
    { destruct (decs s !! w) as [dw|] eqn:Hw.
      - rewrite (decoder_Reset_run Z _ _ _ _ Hw).
        by destruct (Decoder_Reset Z (dw_Decoder dw) None).
      - by rewrite decoder_Reset_nil. }
    destruct (decoder_Reset w None s) as [[e|] s1|v s1]; simpl in *; try done.
    rewrite Pool_Put_decs. split; [done|].
    destruct (pools s1 !! P) as [sp|] eqn:Hp.
    - by rewrite (Pool_Put_run Z _ _ sp).
    - by rewrite Pool_Put_nil_pool. }
  assert (Hclose : DecoderWrapper_Close w s =
    match decoder_Reset w None s with
    | Ok None s1 =>
        match decs s1 !! w with
        | Some dw => Pool_Put (dw_pool dw) (DecPtr w) s1
        | None => Panic NilDeref s1
        end
    | Ok (Some _) s1 => Ok tt s1
    | Panic v s1 => Panic v s1
    end).
  { unfold DecoderWrapper_Close, mbind, M_bind, deref_dec.
    destruct (decoder_Reset w None s) as [[e|] s1|v s1]; try done.
    by destruct (decs s1 !! w). }
  assert (Hput : DecoderPoolWrapper_Put d w s =
    match decoder_Reset w None s with
    | Ok None s1 => Pool_Put (dpw_pool d) (DecPtr w) s1
    | Ok (Some _) s1 => Ok tt s1
    | Panic v s1 => Panic v s1
    end).
  { unfold DecoderPoolWrapper_Put, mbind, M_bind.
    by destruct (decoder_Reset w None s) as [[e|] s1|v s1]. }
  assert (Hc : decs (world_of (DecoderWrapper_Close w s)) !! w' = decs s !! w' /\
               encs (world_of (DecoderWrapper_Close w s)) = encs s).
  { rewrite Hclose. clear Hclose Hput.
    pose proof (decoder_Reset_Ok_allocated s w None) as Halloc.
    revert Hrel Halloc.
    destruct (decoder_Reset w None s) as [[e|] s1|v s1]; intros Hrel Halloc.
    - exact (Hrel 0).
    - destruct (decs s1 !! w) as [dw|] eqn:Hw.
      + exact (Hrel (dw_pool dw)).
      + destruct (Halloc None s1 eq_refl) as [? ?]. congruence.
    - exact (Hrel 0). }
  assert (Hp : decs (world_of (DecoderPoolWrapper_Put d w s)) !! w' = decs s !! w' /\
               encs (world_of (DecoderPoolWrapper_Put d w s)) = encs s).
  { rewrite Hput. apply Hrel. }
  split; [apply Hc|]. split; [apply Hp|]. split; [apply Hc|]. split; [apply Hp|].
  intros pick r s' Hget.
  apply DecoderPoolWrapper_Get_Ok in Hget as (s0 & dw0 & d' & Hpg & Hw0 & Hr & ->).
  simpl. rewrite lookup_insert_ne by done.
  apply Pool_Get_Ok in Hpg
    as (sp & Hp' & [(i & _ & _ & ->)|[(f & _ & Hf)|(_ & [=] & _)]]); [done|].
  destruct f as [o|o q]; cbn [call_factory] in Hf.
  - rewrite NewEncoderPool_New_run in Hf. discriminate.
  - rewrite NewDecoderPool_New_run in Hf. injection Hf as Hf <-. simpl.
    simpl in Hf. rewrite Hf. by rewrite lookup_insert_ne.
Qed.

End Coverage.

(** ** More of the package, at concrete inputs *)

Lemma ref_closed_reset_fails : closed_reset_fails RefZstd.engine.
Proof. intros [|[] src] r; simpl; try discriminate. intros _. by eexists. Qed.

(** X1 at work: wrapper 0 of [Demo.held] is released and acquired again for
    reader 9. *)
Lemma decoder_Put_then_Get_roundtrip_witness :
  reset_rebinds RefZstd.engine /\
  decs Demo.held !! 0 =
    Some {| dw_Decoder := RefZstd.DHandle false (Some 7) : Decoder RefZstd.engine;
            dw_pool := 0 |} /\
  pools Demo.held !! dpw_pool Demo.facade =
    Some {| New := Some (NewDecoderFn (Z := RefZstd.engine) [true] 0); idle := [] |} /\
  exists s1 s2,
    DecoderPoolWrapper_Put Demo.facade 0 Demo.held = Ok tt s1 /\
    DecoderPoolWrapper_Get (Z := RefZstd.engine) Demo.facade (Some 0) (Some 9) s1 =
      Ok 0 s2 /\
    pools s2 = pools Demo.held.
Proof.
  assert (H1 : decs Demo.held !! 0 =
    Some {| dw_Decoder := RefZstd.DHandle false (Some 7) : Decoder RefZstd.engine;
            dw_pool := 0 |}) by (vm_compute; reflexivity).
  assert (H2 : pools Demo.held !! dpw_pool Demo.facade =
    Some {| New := Some (NewDecoderFn (Z := RefZstd.engine) [true] 0); idle := [] |})
    by (vm_compute; reflexivity).
  split; [exact ref_reset_rebinds|]. split; [exact H1|]. split; [exact H2|].
  destruct (decoder_Put_then_Get_roundtrip RefZstd.engine Demo.held Demo.facade 0
              _ _ _ (Some 9) ref_reset_rebinds H1 H2 eq_refl)
    as (s1 & s2 & d2 & Hput & Hget & Hpools & _).
  exists s1, s2. repeat split; assumption.
Defined.

(** X2 at work: encoder wrapper 0 of [Demo.enc_held] is released and
    acquired again for writer 6. *)
Lemma encoder_Put_then_Get_roundtrip_witness :
  encs Demo.enc_held !! 0 =
    Some {| ew_Encoder := RefZstd.EHandle false (Some 5) : Encoder RefZstd.engine |} /\
  pools Demo.enc_held !! epw_pool Demo.enc_facade =
    Some {| New := Some (NewEncoderFn (Z := RefZstd.engine) [true]); idle := [] |} /\
  exists s1 s2,
    EncoderPoolWrapper_Put Demo.enc_facade 0 Demo.enc_held = Ok tt s1 /\
    EncoderPoolWrapper_Get (Z := RefZstd.engine) Demo.enc_facade (Some 0) (Some 6) s1 =
      Ok 0 s2 /\
    pools s2 = pools Demo.enc_held /\
    encs s2 =
      <[0 := {| ew_Encoder := RefZstd.EHandle false (Some 6) : Encoder RefZstd.engine |}]>
        (encs Demo.enc_held).
Proof.
  assert (H1 : encs Demo.enc_held !! 0 =
    Some {| ew_Encoder := RefZstd.EHandle false (Some 5) : Encoder RefZstd.engine |})
    by (vm_compute; reflexivity).
  assert (H2 : pools Demo.enc_held !! epw_pool Demo.enc_facade =
    Some {| New := Some (NewEncoderFn (Z := RefZstd.engine) [true]); idle := [] |})
    by (vm_compute; reflexivity).
  split; [exact H1|]. split; [exact H2|].
  destruct (encoder_Put_then_Get_roundtrip RefZstd.engine Demo.enc_held
              Demo.enc_facade 0 _ _ (RefZstd.EHandle false None)
              (RefZstd.EHandle false (Some 6)) (Some 6) H1 H2 eq_refl eq_refl)
    as (s1 & s2 & Hput & Hget & Hpools & Hencs & _).
  exists s1, s2. repeat split; assumption.
Defined.

(** X3 at work on [Demo.held_closed], whose wrapper 0 has a closed decoder. *)
Lemma closed_decoder_is_never_pooled_witness :
  closed_reset_fails RefZstd.engine /\
  decs Demo.held_closed !! 0 =
    Some {| dw_Decoder := RefZstd.DHandle true None : Decoder RefZstd.engine;
            dw_pool := 0 |} /\
  exists s',
    DecoderWrapper_Close 0 Demo.held_closed = Ok tt s' /\
    DecoderPoolWrapper_Put Demo.facade 0 Demo.held_closed = Ok tt s' /\
    decoderReadCloser_Close Demo.adapter Demo.held_closed = Ok None s' /\
    pools s' = pools Demo.held_closed.
Proof.
  assert (H1 : decs Demo.held_closed !! 0 =
    Some {| dw_Decoder := RefZstd.DHandle true None : Decoder RefZstd.engine;
            dw_pool := 0 |}) by (vm_compute; reflexivity).
  split; [exact ref_closed_reset_fails|]. split; [exact H1|].
  destruct (closed_decoder_is_never_pooled RefZstd.engine Demo.held_closed
              Demo.facade Demo.adapter 0 _ ref_closed_reset_fails H1 eq_refl eq_refl)
    as (s' & Hc & Hp & Ha & Hpools & _).
  exists s'. repeat split; assumption.
Defined.

(** X4 at work on [Demo.two_pools]: wrapper 0 belongs to pool 0 and is put
    through the facade of pool 1. *)
Lemma Put_of_foreign_wrapper_moves_it_witness :
  decs Demo.two_pools !! 0 =
    Some {| dw_Decoder := RefZstd.DHandle false (Some 7) : Decoder RefZstd.engine;
            dw_pool := 0 |} /\
  pools Demo.two_pools !! dpw_pool Demo.facade1 =
    Some {| New := Some (NewDecoderFn (Z := RefZstd.engine) [true] 1); idle := [] |} /\
  pools Demo.two_pools !! 0 =
    Some {| New := Some (NewDecoderFn (Z := RefZstd.engine) [true] 0); idle := [] |} /\
  exists s1,
    DecoderPoolWrapper_Put Demo.facade1 0 Demo.two_pools = Ok tt s1 /\
    pools s1 !! 1 =
      Some {| New := Some (NewDecoderFn (Z := RefZstd.engine) [true] 1);
              idle := [DecPtr 0] |} /\
    pools s1 !! 0 =
      Some {| New := Some (NewDecoderFn (Z := RefZstd.engine) [true] 0); idle := [] |}.
Proof.
  assert (H1 : decs Demo.two_pools !! 0 =
    Some {| dw_Decoder := RefZstd.DHandle false (Some 7) : Decoder RefZstd.engine;
            dw_pool := 0 |}) by (vm_compute; reflexivity).
  assert (H2 : pools Demo.two_pools !! dpw_pool Demo.facade1 =
    Some {| New := Some (NewDecoderFn (Z := RefZstd.engine) [true] 1); idle := [] |})
    by (vm_compute; reflexivity).
  assert (H3 : pools Demo.two_pools !! 0 =
    Some {| New := Some (NewDecoderFn (Z := RefZstd.engine) [true] 0); idle := [] |})
    by (vm_compute; reflexivity).
  split; [exact H1|]. split; [exact H2|]. split; [exact H3|].
  destruct (proj1 (Put_of_foreign_wrapper_moves_it RefZstd.engine Demo.two_pools
                     Demo.facade1 0 _ _ _ _ H1 ltac:(discriminate) H2 H3 eq_refl))
    as (s1 & Hput & Hp1 & Hp0 & _).
  exists s1. repeat split; assumption.
Defined.

(** X5 at work on [Demo.held_closed]. *)
Lemma Earlier_Close_pools_closed_decoder_witness :
  closed_reset_fails RefZstd.engine /\
  decs Demo.held_closed !! 0 =
    Some {| dw_Decoder := RefZstd.DHandle true None : Decoder RefZstd.engine;
            dw_pool := 0 |} /\
  pools Demo.held_closed !! 0 =
    Some {| New := Some (NewDecoderFn (Z := RefZstd.engine) [true] 0); idle := [] |} /\
  exists s1 s2 s3 e,
    Earlier_DecoderWrapper_Close 0 Demo.held_closed = Ok tt s1 /\
    ~ pool_inv s1 /\
    Pool_Get 0 (Some 0) s1 = Ok (DecPtr 0) s2 /\
    decoder_Reset (Z := RefZstd.engine) 0 (Some 9) s2 = Ok (Some e) s3.
Proof.
  assert (H1 : decs Demo.held_closed !! 0 =
    Some {| dw_Decoder := RefZstd.DHandle true None : Decoder RefZstd.engine;
            dw_pool := 0 |}) by (vm_compute; reflexivity).
  assert (H2 : pools Demo.held_closed !! 0 =
    Some {| New := Some (NewDecoderFn (Z := RefZstd.engine) [true] 0); idle := [] |})
    by (vm_compute; reflexivity).
  split; [exact ref_closed_reset_fails|]. split; [exact H1|]. split; [exact H2|].
  destruct (Earlier_Close_pools_closed_decoder RefZstd.engine Demo.held_closed
              0 _ _ (Some 9) ref_closed_reset_fails H1 eq_refl H2)
    as (s1 & s2 & s3 & e & Hc & _ & Hinv & Hget & Hreset).
  exists s1, s2, s3, e. repeat split; assumption.
Defined.

(** X6 at work: a new decoder facade on the empty world, and its first
    [Get], for reader 7. *)
Lemma NewDecoderPoolWrapper_builds_on_first_Get_witness :
  NewReader RefZstd.engine None [true] = (RefZstd.DHandle false None, None) /\
  exists (d : DecoderPoolWrapper) s1 (w : nat) s2,
    NewDecoderPoolWrapper (Z := RefZstd.engine) [true] (empty_world RefZstd.engine) =
      Ok d s1 /\
    trace s1 = [] /\
    DecoderPoolWrapper_Get (Z := RefZstd.engine) d (Some 3) (Some 7) s1 = Ok w s2 /\
    decs s2 =
      <[w := {| dw_Decoder := RefZstd.DHandle false (Some 7) : Decoder RefZstd.engine;
                dw_pool := dpw_pool d |}]> ∅.
Proof.
  split; [reflexivity|].
  destruct (NewDecoderPoolWrapper_builds_on_first_Get RefZstd.engine
              (empty_world RefZstd.engine) [true] (Some 3) (Some 7))
    as (d & s1 & w & Hnew & _ & _ & _ & _ & Htr & _ & _ & Hget).
  destruct (Hget (RefZstd.DHandle false (Some 7)) eq_refl) as (s2 & Hg & Hdecs & _).
  exists d, s1, w, s2. repeat split; assumption.
Defined.

(** X7 at work: a new encoder facade on the empty world, and its first
    [Get], for writer 5. *)
Lemma NewEncoderPoolWrapper_builds_on_first_Get_witness :
  NewWriter RefZstd.engine None [true] = (RefZstd.EHandle false None, None) /\
  exists (e : EncoderPoolWrapper) s1 (w : nat) s2,
    NewEncoderPoolWrapper (Z := RefZstd.engine) [true] (empty_world RefZstd.engine) =
      Ok e s1 /\
    trace s1 = [] /\
    EncoderPoolWrapper_Get (Z := RefZstd.engine) e (Some 3) (Some 5) s1 = Ok w s2 /\
    encs s2 =
      <[w := {| ew_Encoder := RefZstd.EHandle false (Some 5) : Encoder RefZstd.engine |}]>
        ∅.
Proof.
  split; [reflexivity|].
  destruct (NewEncoderPoolWrapper_builds_on_first_Get RefZstd.engine
              (empty_world RefZstd.engine) [true] (Some 3) (Some 5))
    as (e & s1 & w & Hnew & _ & _ & _ & _ & Htr & _ & _ & Hget).
  destruct (Hget (RefZstd.EHandle false (Some 5)) eq_refl) as (s2 & Hg & Hencs & _).
  exists e, s1, w, s2. repeat split; assumption.
Defined.

(** X8 at work on [Demo.gentle_run]. *)
Lemma package_never_closes_a_handle_witness :
  forallb gentle Demo.gentle_run = true /\
  exists evs,
    trace (exec_all Demo.gentle_run (empty_world RefZstd.engine)) = [] ++ evs /\
    forall w, (E_DecoderClose w ∉ evs) /\ (E_EncoderClose w ∉ evs).
Proof.
  split; [reflexivity|].
  exact (package_never_closes_a_handle RefZstd.engine Demo.gentle_run
           (empty_world RefZstd.engine) eq_refl).
Defined.

(** X9 at work after [Demo.owned_run]: wrapper 0 has been finalized, wrapper
    1 still carries its finalizer. *)
Lemma every_wrapper_stays_armed_witness :
  is_Some (decs (exec_all Demo.owned_run (empty_world RefZstd.engine)) !! 0) /\
  dec_fins (exec_all Demo.owned_run (empty_world RefZstd.engine)) !! 0 = None /\
  dec_fins (exec_all Demo.owned_run (empty_world RefZstd.engine)) !! 1 =
    Some Fin_Decoder_Close /\
  (dec_fins (exec_all Demo.owned_run (empty_world RefZstd.engine)) !! 0 =
     Some Fin_Decoder_Close \/
   E_DecoderClose 0 ∈ trace (exec_all Demo.owned_run (empty_world RefZstd.engine))).
Proof.
  assert (H0 : is_Some (decs (exec_all Demo.owned_run (empty_world RefZstd.engine)) !! 0))
    by (vm_compute; eauto).
  split; [exact H0|]. split; [vm_compute; reflexivity|].
  split; [vm_compute; reflexivity|].
  exact (proj1 (every_wrapper_stays_armed RefZstd.engine Demo.owned_run) 0 H0).
Defined.

(** X10 at work: wrapper 0 is built by the first [Get] on the facade of pool
    0; after further steps [Close] on it is still the facade's [Put]. *)
Lemma Close_is_Put_for_a_wrapper_built_by_the_facade_witness :
  is_decoder_pool
    (exec_all [Op_NewDecoderPool (Z := RefZstd.engine) [true]]
       (empty_world RefZstd.engine)) (dpw_pool Demo.facade) = true /\
  DecoderPoolWrapper_Get (Z := RefZstd.engine) Demo.facade None (Some 7)
    (exec_all [Op_NewDecoderPool (Z := RefZstd.engine) [true]]
       (empty_world RefZstd.engine)) = Ok 0 Demo.held /\
  DecoderWrapper_Close 0
    (exec_all [Op_DecReset (Z := RefZstd.engine) 0 (Some 3)] Demo.held) =
  DecoderPoolWrapper_Put Demo.facade 0
    (exec_all [Op_DecReset (Z := RefZstd.engine) 0 (Some 3)] Demo.held).
Proof.
  assert (H1 : is_decoder_pool
    (exec_all [Op_NewDecoderPool (Z := RefZstd.engine) [true]]
       (empty_world RefZstd.engine)) (dpw_pool Demo.facade) = true)
    by (vm_compute; reflexivity).
  assert (H2 : DecoderPoolWrapper_Get (Z := RefZstd.engine) Demo.facade None (Some 7)
    (exec_all [Op_NewDecoderPool (Z := RefZstd.engine) [true]]
       (empty_world RefZstd.engine)) = Ok 0 Demo.held)
    by (vm_compute; reflexivity).
  split; [exact H1|]. split; [exact H2|].
  exact (proj2 (Close_is_Put_for_a_wrapper_built_by_the_facade RefZstd.engine
                  [Op_NewDecoderPool (Z := RefZstd.engine) [true]]
                  [Op_DecReset (Z := RefZstd.engine) 0 (Some 3)]
                  Demo.facade None (Some 7) 0 Demo.held H1 eq_refl H2)).
Defined.


(** X12 at work after [Demo.owned_run], where wrapper 1 is idle: [Get] hands
    it out, and it is idle no more. *)
Lemma Get_hands_out_an_exclusive_open_wrapper_witness :
  reset_rebinds RefZstd.engine /\
  admissible owner_ok Demo.owned_run (empty_world RefZstd.engine) = true /\
  exists s',
    DecoderPoolWrapper_Get (Z := RefZstd.engine) Demo.facade (Some 0) (Some 11)
      (exec_all Demo.owned_run (empty_world RefZstd.engine)) = Ok 1 s' /\
    (forall p sp, pools s' !! p = Some sp -> DecPtr 1 ∉ idle sp) /\
    (forall (d2 : DecoderPoolWrapper) pick2 r2 w2 s2,
       DecoderPoolWrapper_Get d2 pick2 r2 s' = Ok w2 s2 -> w2 <> 1).
Proof.
  assert (H1 : admissible owner_ok Demo.owned_run (empty_world RefZstd.engine) = true)
    by (vm_compute; reflexivity).
  assert (H2 : DecoderPoolWrapper_Get (Z := RefZstd.engine) Demo.facade (Some 0) (Some 11)
      (exec_all Demo.owned_run (empty_world RefZstd.engine)) =
      Ok 1 (world_of (DecoderPoolWrapper_Get (Z := RefZstd.engine) Demo.facade
                        (Some 0) (Some 11)
                        (exec_all Demo.owned_run (empty_world RefZstd.engine)))))
    by (vm_compute; reflexivity).
  split; [exact ref_reset_rebinds|]. split; [exact H1|].
  eexists. split; [exact H2|].
  destruct (Get_hands_out_an_exclusive_open_wrapper RefZstd.engine Demo.owned_run
              Demo.facade (Some 0) (Some 11) 1 _ ref_reset_rebinds H1 H2)
    as (Hidle & _ & Hnext & _).
  split; [exact Hidle|exact Hnext].
Defined.

(** X13 at work: releasing wrapper 1 after [Demo.owned_run] leaves wrapper 0
    as it is. *)
Lemma release_and_Get_leave_other_wrappers_alone_witness :
  0 <> 1 /\
  decs (world_of (DecoderWrapper_Close 1
          (exec_all Demo.owned_run (empty_world RefZstd.engine)))) !! 0 =
  decs (exec_all Demo.owned_run (empty_world RefZstd.engine)) !! 0.
Proof.
  split; [discriminate|].
  exact (proj1 (release_and_Get_leave_other_wrappers_alone RefZstd.engine
                  (exec_all Demo.owned_run (empty_world RefZstd.engine))
                  Demo.facade 1 0 ltac:(discriminate))).
Defined.
